(** * Giftimize: the batch GIF optimizer and the raster-to-WebP converter

    A shallow embedding of the four scripts of the repository:

    - [Legacy]: the first sequential optimizer (progress bar without sizes);
    - [Index]: [index.js], the sequential optimizer with size annotations;
    - [Pool]: the pooled optimizer with the size fallback;
    - [Webp]: [convert-to-webp.js], the pooled raster converter.

    The file system, the console and the exit status form an explicit
    [world]; the asynchronous parts (interval timers, child-process events,
    promise settlement) are driven by an explicit list of events supplied by
    the environment. *)

From Stdlib Require Import ZArith NArith QArith Qround Qminmax Lia Lqa List Sorted Ascii
  DecimalString.
From stdpp Require Import base option list gmap strings.

Local Open Scope Z_scope.

(** ** Strings of the Node runtime *)

Module NodeString.

(** Decimal rendering of a natural number, as a template literal
    [`${n}`] prints an integral Number below 1e21. *)
Definition show_N (n : N) : string := NilZero.string_of_uint (N.to_uint n).

Definition lower_ascii (c : ascii) : ascii :=
  let n := Ascii.N_of_ascii c in
  if ((65 <=? n) && (n <=? 90))%N then Ascii.ascii_of_N (n + 32) else c.

(** [String.prototype.toLowerCase] on the ASCII range. *)
Fixpoint toLowerCase (s : string) : string :=
  match s with
  | EmptyString => EmptyString
  | String c r => String (lower_ascii c) (toLowerCase r)
  end.

(** [strip_prefix p s = Some r] exactly when [s = p +:+ r]. *)
Fixpoint strip_prefix (p s : string) : option string :=
  match p, s with
  | EmptyString, _ => Some s
  | String a p', String b s' =>
      if Ascii.eqb a b then strip_prefix p' s' else None
  | String _ _, EmptyString => None
  end.

(** [strip_suffix x s = Some r] exactly when [s = r +:+ x]. *)
Fixpoint strip_suffix (x s : string) : option string :=
  if String.eqb x s then Some EmptyString
  else match s with
       | EmptyString => None
       | String c r => String c <$> strip_suffix x r
       end.

Definition ends_with (x s : string) : bool := bool_decide (is_Some (strip_suffix x s)).

Fixpoint has_char (c : ascii) (s : string) : bool :=
  match s with
  | EmptyString => false
  | String a r => Ascii.eqb a c || has_char c r
  end.

End NodeString.

(** ** The [path] module of Node, on directory entries

    Every name handed to these functions by the scripts is a directory entry
    returned by [fs.readdirSync], so it holds no separator; the functions are
    given for such names. *)

Module NodePath.
Import NodeString.

(** Splits at the last dot: [Some (before, from_the_dot)]. *)
Fixpoint split_last_dot (s : string) : option (string * string) :=
  match s with
  | EmptyString => None
  | String c r =>
      match split_last_dot r with
      | Some (b, e) => Some (String c b, e)
      | None => if Ascii.eqb c "."%char then Some (EmptyString, s) else None
      end
  end.

(** [path.extname]: from the last dot to the end; empty when there is no
    dot, when the only dot is the first character, or for [".."]. *)
Definition extname (name : string) : string :=
  match split_last_dot name with
  | Some (b, e) =>
      if String.eqb b "" || String.eqb name ".." then "" else e
  | None => ""
  end.

(** [path.basename(name, suffix)]: the name without [suffix] when it ends
    with it. *)
Definition basename (name suffix : string) : string :=
  if String.eqb suffix "" then name
  else if String.eqb suffix name then ""
  else match strip_suffix suffix name with
       | Some stem => stem
       | None => name
       end.

(** [path.join(dir, name)] for a normalized directory and an entry of it. *)
Definition join (dir name : string) : string := dir +:+ "/" +:+ name.

End NodePath.

(** ** SizeFormatter *)

Module SizeFormatter.
Import NodeString.

(** [x.toFixed(1)] for a non-negative number below 1e21: the integer [n]
    with [n / 10] nearest to [x], the larger one on a tie, printed with
    one digit after the point. *)
Definition toFixed1 (x : Q) : string :=
  let n := Z.to_N (Qfloor (x * 10 + (1 # 2))) in
  show_N (n / 10) +:+ "." +:+ show_N (n mod 10).

(** Division of a Number by 1024 is exact (a power of two), so the
    quotients are the rationals themselves. *)
Definition formatFileSize (bytes : N) : string :=
  if bool_decide (bytes < 1024)%N then show_N bytes +:+ " B"
  else
    let kb := (inject_Z (Z.of_N bytes) / 1024)%Q in
    if Qlt_le_dec kb 1024 then toFixed1 kb +:+ " KB"
    else
      let mb := (kb / 1024)%Q in
      if Qlt_le_dec mb 1024 then toFixed1 mb +:+ " MB"
      else
        let gb := (mb / 1024)%Q in
        toFixed1 gb +:+ " GB".

(** The size rule as the specification words it, over the naturals:
    which unit applies, and the tenths shown. *)
Definition tenths (bytes unit : N) : N := ((20 * bytes + unit) / (2 * unit))%N.

Definition one_decimal (n : N) : string :=
  show_N (n / 10) +:+ "." +:+ show_N (n mod 10).

Definition size_rule (bytes : N) : string :=
  if (bytes <? 1024)%N then show_N bytes +:+ " B"
  else if (bytes <? 1024 * 1024)%N then one_decimal (tenths bytes 1024) +:+ " KB"
  else if (bytes <? 1024 * 1024 * 1024)%N
       then one_decimal (tenths bytes (1024 * 1024)) +:+ " MB"
  else one_decimal (tenths bytes (1024 * 1024 * 1024)) +:+ " GB".

End SizeFormatter.

(** ** The world the scripts act on *)

(** What the host gives a script: the rounding of its double-precision
    arithmetic, and the directory the script lives in ([__dirname], an
    absolute normalized path other than the root, so that
    [path.resolve(__dirname, name)] is [__dirname/name]). *)
Class Runtime := {
  fl : Q -> Q;
  dirname : string;
}.

Inductive node :=
| File (content : list Byte.byte)
| Dir (st_size : N).

(** The calls a script makes on the file system and on other programs. *)
Inductive syscall :=
| SysExists (p : string)
| SysMkdir (p : string)
| SysReaddir (p : string)
| SysStat (p : string)
| SysCopy (src dst : string)
| SysSpawn (cmd : string) (args : list string)
| SysSharp (src dst : string).

(** One call of [updateProgressBar]: the name, the percent and, where the
    script tracks them, the original and the current size.  The bar itself
    (terminal width, filled and empty cells) is not rendered here. *)
Record report := Report {
  r_name : string;
  r_percent : Q;
  r_sizes : option (N * N);
}.

Record world := World {
  fs : gmap string node;
  console : list string;       (* lines of console.log and console.error, oldest first,
                                  without their leading and trailing newlines *)
  bar : list report;           (* calls of updateProgressBar, oldest first *)
  ops : list syscall;          (* calls made, oldest first *)
  exit_code : option Z;        (* [Some c] once the process has exited with status c *)
}.

(** The status the operating system sees: a process that runs to the end of
    its event loop exits with 0. *)
Definition exit_status (w : world) : Z := default 0 (exit_code w).

(** *** A state and exception monad over the world *)

Inductive result (A : Type) :=
| Ok (a : A)
| Throw (message : string).
Arguments Ok {A} a.
Arguments Throw {A} message.

Definition M (A : Type) : Type := world -> result A * world.

Definition ret {A} (a : A) : M A := fun w => (Ok a, w).

Definition bind {A B} (m : M A) (k : A -> M B) : M B :=
  fun w => match m w with
           | (Ok a, w') => k a w'
           | (Throw e, w') => (Throw e, w')
           end.

Definition throw {A} (e : string) : M A := fun w => (Throw e, w).

(** [try { m } catch (err) { h err }] *)
Definition try_catch {A} (m : M A) (h : string -> M A) : M A :=
  fun w => match m w with
           | (Ok a, w') => (Ok a, w')
           | (Throw e, w') => h e w'
           end.

Notation "'let*' x := m 'in' k" := (bind m (fun x => k))
  (at level 10, x name, m at level 100, k at level 200).

Definition sys (c : syscall) : M unit :=
  fun w => (Ok tt, World (fs w) (console w) (bar w) (ops w ++ [c]) (exit_code w)).

Definition console_log (line : string) : M unit :=
  fun w => (Ok tt, World (fs w) (console w ++ [line]) (bar w) (ops w) (exit_code w)).

(** [console.error] writes to the same terminal. *)
Definition console_error (line : string) : M unit := console_log line.

Definition set_fs (m : gmap string node) : M unit :=
  fun w => (Ok tt, World m (console w) (bar w) (ops w) (exit_code w)).

Definition get_fs : M (gmap string node) := fun w => (Ok (fs w), w).

(** [process.exit(c)]; the caller runs nothing after it. *)
Definition process_exit (c : Z) : M unit :=
  fun w => (Ok tt, World (fs w) (console w) (bar w) (ops w) (Some c)).

(** *** The [fs] module of Node *)

Module NodeFs.
Import NodeString.

Definition existsSync (p : string) : M bool :=
  let* _ := sys (SysExists p) in
  let* m := get_fs in
  ret (bool_decide (is_Some (m !! p))).

(** [fs.mkdirSync(p, { recursive: true })]: no error when the directory is
    already there.  The size a fresh directory reports is of no account and
    is taken as 0. *)
Definition mkdirSync (p : string) : M unit :=
  let* _ := sys (SysMkdir p) in
  let* m := get_fs in
  match m !! p with
  | None => set_fs (<[p := Dir 0]> m)
  | Some (Dir _) => ret tt
  | Some (File _) => throw ("EEXIST: file already exists, mkdir " +:+ p)
  end.

(** The name of [path] inside [dir], when [path] is an entry of [dir]. *)
Definition entry_of (dir path : string) : option string :=
  match strip_prefix (dir +:+ "/") path with
  | Some r => if String.eqb r "" || has_char "/"%char r then None else Some r
  | None => None
  end.

Definition entries (dir : string) (m : gmap string node) : list string :=
  omap (entry_of dir) (map_to_list m).*1.

Definition readdirSync (dir : string) : M (list string) :=
  let* _ := sys (SysReaddir dir) in
  let* m := get_fs in
  match m !! dir with
  | Some (Dir _) => ret (entries dir m)
  | Some (File _) => throw ("ENOTDIR: not a directory, scandir " +:+ dir)
  | None => throw ("ENOENT: no such file or directory, scandir " +:+ dir)
  end.

(** [fs.statSync(p).size] *)
Definition statSync_size (p : string) : M N :=
  let* _ := sys (SysStat p) in
  let* m := get_fs in
  match m !! p with
  | Some (File c) => ret (N.of_nat (length c))
  | Some (Dir sz) => ret sz
  | None => throw ("ENOENT: no such file or directory, stat " +:+ p)
  end.

Definition copyFileSync (src dst : string) : M unit :=
  let* _ := sys (SysCopy src dst) in
  let* m := get_fs in
  match m !! src with
  | Some (File c) =>
      match m !! dst with
      | Some (Dir _) => throw ("EISDIR: illegal operation on a directory, copyfile " +:+ dst)
      | _ => set_fs (<[dst := File c]> m)
      end
  | Some (Dir _) => throw ("EISDIR: illegal operation on a directory, copyfile " +:+ src)
  | None => throw ("ENOENT: no such file or directory, copyfile " +:+ src)
  end.

End NodeFs.

(** ** Tasks, promises and events *)

(** A ConversionTask: one per matched file. *)
Record task := Task {
  inputPath : string;
  outputPath : string;
  fileName : string;
}.

(** The outcome of a task.  The promises of the scripts carry no value, so
    the variants hold no sizes: those are shown by the progress reporter. *)
Inductive ConversionOutcome :=
| Succeeded
| SucceededViaFallback
| Failed (reason : string).

(** How the promise of a task was settled: [resolve()] on one of the paths
    of the script, or [reject(err)]. *)
Inductive settlement :=
| Fulfil (o : ConversionOutcome)
| Reject (reason : string).

Definition outcome_of (s : settlement) : ConversionOutcome :=
  match s with
  | Fulfil o => o
  | Reject reason => Failed reason
  end.

Definition is_failed (o : ConversionOutcome) : bool :=
  match o with Failed _ => true | _ => false end.

Definition is_rejected (s : settlement) : bool :=
  match s with Reject _ => true | Fulfil _ => false end.

(** The variables one call of [optimizeGIF] or [convertToWebP] closes over,
    and the state of the promise it returned. *)
Record tstate := TState {
  originalSize : N;
  progress : Q;
  interval : bool;                 (* the timer of setInterval is armed *)
  promise : option settlement;     (* [None] while pending *)
}.

Definition clearInterval (st : tstate) : tstate :=
  TState (originalSize st) (progress st) false (promise st).

Definition set_progress (p : Q) (st : tstate) : tstate :=
  TState (originalSize st) p (interval st) (promise st).

(** A promise is settled once; later calls of resolve or reject are ignored. *)
Definition settle (s : settlement) (st : tstate) : tstate :=
  match promise st with
  | None => TState (originalSize st) (progress st) (interval st) (Some s)
  | Some _ => st
  end.

Definition resolve (o : ConversionOutcome) : tstate -> tstate := settle (Fulfil o).
Definition reject (reason : string) : tstate -> tstate := settle (Reject reason).

(** What the environment does to a started task. *)
Inductive event :=
| Tick (r : Q)                            (* the interval fires; [r] is the draw of Math.random() *)
| Produced (content : list Byte.byte)     (* the converter writes the destination file *)
| Close (code : Z)                        (* 'close' of the child process *)
| SpawnError (message : string)           (* 'error' of the child process *)
| Resolved                                (* the promise of sharp's toFile is fulfilled *)
| Rejected (message : string).            (* the promise of sharp's toFile is rejected *)

Definition show_Z (z : Z) : string := NilZero.string_of_int (Z.to_int z).

Definition updateProgressBar (name : string) (percent : Q) (sizes : option (N * N)) : M unit :=
  fun w => (Ok tt, World (fs w) (console w) (bar w ++ [Report name percent sizes])
                         (ops w) (exit_code w)).

(** The size annotation [updateProgressBar] prints for a report with sizes. *)
Definition sizeInfo (originalSize optimizedSize : N) : string :=
  "(" +:+ SizeFormatter.formatFileSize originalSize +:+ " -> "
      +:+ SizeFormatter.formatFileSize optimizedSize +:+ ")".

(** [fs.existsSync(p) ? fs.statSync(p).size : dflt] *)
Definition size_or (p : string) (dflt : N) : M N :=
  let* ex := NodeFs.existsSync p in
  if ex then NodeFs.statSync_size p else ret dflt.

(** ** Running a batch on the event loop *)

(** A started task with the state of its closure. *)
Record job := Job {
  jtask : task;
  jstate : tstate;
}.

(** A batch in flight: the tasks not started yet, the started ones in the
    order they were started (an event is addressed to a started task by its
    position), and whether the body of the batch function has run to its
    end. *)
Record batch := Batch {
  queue : list task;
  jobs : list job;
  returned : bool;
}.

Definition pending (j : job) : bool :=
  match promise (jstate j) with None => true | Some _ => false end.

(** The tasks in progress: started, promise not settled yet. *)
Definition in_progress (js : list job) : nat := length (List.filter pending js).

Definition fulfilled (j : job) : bool :=
  match promise (jstate j) with Some (Fulfil _) => true | _ => false end.

Fixpoint first_rejected (js : list job) : option string :=
  match js with
  | [] => None
  | j :: js' =>
      match promise (jstate j) with
      | Some (Reject reason) => Some reason
      | _ => first_rejected js'
      end
  end.

(** The part of an event that is the environment's own doing. *)
Definition environment (t : task) (e : event) : M unit :=
  match e with
  | Produced content =>
      let* m := get_fs in set_fs (<[outputPath t := File content]> m)
  | _ => ret tt
  end.

(** An exception nobody catches ends the process with status 1. *)
Definition crash (message : string) (w : world) : world :=
  World (fs w) (console w ++ ["Uncaught " +:+ message]) (bar w) (ops w) (Some 1).

(** One callback of the event loop (or the top level of the script): it does
    not run once the process has exited, and an exception it throws is
    uncaught.  The batch functions are async and called without a handler, so
    an exception in them is an unhandled rejection, which ends the process
    the same way (Node 15 and later). *)
Definition callback {A} (m : M A) (dflt : A) (w : world) : A * world :=
  match exit_code w with
  | Some _ => (dflt, w)
  | None =>
      match m w with
      | (Ok a, w') => (a, w')
      | (Throw e, w') => (dflt, crash e w')
      end
  end.

Section Batch.
Variable start : task -> M tstate.
Variable handle : task -> event -> tstate -> M tstate.

(** Event [e] reaches the started task at position [i]. *)
Definition fire (i : nat) (e : event) (js : list job) : M (list job) :=
  match js !! i with
  | None => ret js
  | Some j =>
      let* _ := environment (jtask j) e in
      let* st := handle (jtask j) e (jstate j) in
      ret (<[i := Job (jtask j) st]> js)
  end.

(** *** The sequential loop
    [for (const file of gifFiles) { try { await optimizeGIF(..) } catch (error) { console.error(..) } }]
    followed by the final message. *)

Definition onRejection (t : task) (s : settlement) : M unit :=
  if is_rejected s then console_error ("Failed to optimize file: " +:+ fileName t)
  else ret tt.

(** Runs the loop from the top of an iteration until it suspends in an
    [await] on a pending promise, or ends. *)
Fixpoint for_await (q : list task) (js : list job) : M batch :=
  match q with
  | [] =>
      let* _ := console_log "All files optimized successfully!" in
      ret (Batch [] js true)
  | t :: q' =>
      let* st := start t in
      match promise st with
      | None => ret (Batch q' (js ++ [Job t st]) false)
      | Some s =>
          let* _ := onRejection t s in
          for_await q' (js ++ [Job t st])
      end
  end.

(** One event under the sequential loop: the handler runs; when the
    promise the loop awaits (the last one started) is settled by it, the
    loop goes on. *)
Definition seq_step (i : nat) (e : event) (b : batch) : M batch :=
  let* js := fire i e (jobs b) in
  if returned b then ret (Batch (queue b) js true)
  else
    match last js with
    | Some j =>
        match promise (jstate j) with
        | Some s =>
            let* _ := onRejection (jtask j) s in
            for_await (queue b) js
        | None => ret (Batch (queue b) js false)
        end
    | None => ret (Batch (queue b) js false)
    end.

(** *** The pool: [pLimit(n)], [Promise.all] and the final message *)

(** Modelled from the spec: the limiter returned by [pLimit(n)] of the
    p-limit package, which is not among the sources.  At most [n] work
    units run at once; excess submissions queue in submission order and
    begin as soon as a slot frees.  Here: while fewer than [n] started
    tasks are pending, the head of the queue is started. *)
Fixpoint pLimit (n : nat) (q : list task) (js : list job) : M (list task * list job) :=
  match q with
  | [] => ret ([], js)
  | t :: q' =>
      if (in_progress js <? n)%nat then
        let* st := start t in
        pLimit n q' (js ++ [Job t st])
      else ret (q, js)
  end.

Variable all_done_message : string.
Variable error_message : string.

(** [try { await Promise.all(promises); console.log(..) } catch (error) { console.error(.., error) }]:
    the promise of [Promise.all] is rejected by the first rejection and
    fulfilled once every promise is fulfilled. *)
Definition barrier (b : batch) : M batch :=
  if returned b then ret b
  else
    match first_rejected (jobs b) with
    | Some reason =>
        let* _ := console_error (error_message +:+ " " +:+ reason) in
        ret (Batch (queue b) (jobs b) true)
    | None =>
        if bool_decide (queue b = []) && forallb fulfilled (jobs b) then
          let* _ := console_log all_done_message in
          ret (Batch (queue b) (jobs b) true)
        else ret b
    end.

Definition pool_step (n : nat) (i : nat) (e : event) (b : batch) : M batch :=
  let* js := fire i e (jobs b) in
  let* qjs := pLimit n (queue b) js in
  barrier (Batch (fst qjs) (snd qjs) (returned b)).

(** Submits every task to the limiter and awaits them all. *)
Definition pool_submit (n : nat) (tasks : list task) : M batch :=
  let* qjs := pLimit n tasks [] in
  barrier (Batch (fst qjs) (snd qjs) false).

End Batch.

(** The events of a run, each addressed to a started task. *)
Fixpoint run_events (step : nat -> event -> batch -> M batch)
    (evs : list (nat * event)) (b : batch) (w : world) : batch * world :=
  match evs with
  | [] => (b, w)
  | (i, e) :: evs' =>
      let '(b', w') := callback (step i e b) b w in
      run_events step evs' b' w'
  end.

(** How the one-off [gifsicle --version] child ends: it could not be
    launched (the errno of the failure), or it ran and exited. *)
Inductive spawn_result :=
| LaunchFailed (errno : positive)
| Exited (code : Z).

Inductive child_event :=
| EvError (message : string)
| EvClose (code : Z).

(** A child that cannot be launched emits 'error' and then 'close' with the
    negated errno as code; a child that ran emits 'close' with its exit
    code. *)
Definition child_events (r : spawn_result) : list child_event :=
  match r with
  | LaunchFailed errno => [EvError "spawn gifsicle ENOENT"; EvClose (Z.neg errno)]
  | Exited code => [EvClose code]
  end.

(** [if (!fs.existsSync(outputDir)) fs.mkdirSync(outputDir, { recursive: true })] *)
Definition ensureOutputDir (outputDir : string) : M unit :=
  let* ex := NodeFs.existsSync outputDir in
  if ex then ret tt else NodeFs.mkdirSync outputDir.

Definition is_gif (file : string) : bool :=
  String.eqb (NodeString.toLowerCase (NodePath.extname file)) ".gif".

(** [/\.(jpg|jpeg|png)$/i.test(path.extname(file))] *)
Definition is_raster (file : string) : bool :=
  let ext := NodeString.toLowerCase (NodePath.extname file) in
  NodeString.ends_with ".jpg" ext || NodeString.ends_with ".jpeg" ext
  || NodeString.ends_with ".png" ext.

(** The two handlers on the [gifsicle --version] child, with [processGIFs]
    the batch function of the script; [None] while no batch was started. *)
Definition onCheckEvent (processGIFs : M batch) (not_installed : string)
    (ev : child_event) (b : option batch) : M (option batch) :=
  match ev with
  | EvError _ => let* _ := console_error not_installed in ret b
  | EvClose code =>
      if code =? 0 then let* b' := processGIFs in ret (Some b') else ret b
  end.

Fixpoint run_check (processGIFs : M batch) (not_installed : string)
    (evs : list child_event) (b : option batch) (w : world) : option batch * world :=
  match evs with
  | [] => (b, w)
  | ev :: evs' =>
      let '(b', w') := callback (onCheckEvent processGIFs not_installed ev b) b w in
      run_check processGIFs not_installed evs' b' w'
  end.

(** A whole run of an optimizer script: the top level, the events of the
    version check, then the events of the batch. *)
Definition run_script (top : M unit) (processGIFs : M batch) (not_installed : string)
    (step : nat -> event -> batch -> M batch)
    (check : spawn_result) (evs : list (nat * event)) (w : world)
    : option batch * world :=
  let '(_, w1) := callback top tt w in
  let '(ob, w2) := run_check processGIFs not_installed (child_events check) None w1 in
  match ob with
  | Some b => let '(b', w3) := run_events step evs b w2 in (Some b', w3)
  | None => (None, w2)
  end.

(** ** The first optimizer: sequential, progress without sizes *)

Module Legacy.
Section Script.
Context {RT : Runtime}.

Definition inputDir : string := NodePath.join dirname "input".
Definition outputDir : string := NodePath.join dirname "output".

Definition onInterval (t : task) (r : Q) (st : tstate) : M tstate :=
  if interval st then
    let progress' := fl (progress st + fl (r * 10)) in
    let* _ := updateProgressBar (fileName t) (Qmin progress' 100) None in
    ret (set_progress progress' st)
  else ret st.

Definition onClose (t : task) (code : Z) (st : tstate) : M tstate :=
  let st := clearInterval st in
  if code =? 0 then
    let* _ := updateProgressBar (fileName t) 100 None in
    let* _ := console_log "" in
    ret (resolve Succeeded st)
  else
    ret (reject ("Optimization failed for " +:+ fileName t
                 +:+ " with exit code " +:+ show_Z code) st).

Definition onError (t : task) (err : string) (st : tstate) : M tstate :=
  ret (reject err (clearInterval st)).

(** The executor of the promise [optimizeGIF] returns. *)
Definition optimizeGIF (t : task) : M tstate :=
  let* _ := sys (SysSpawn "gifsicle"
                   ["--optimize=3"; "--lossy=80"; "--colors=128"; "-o";
                    outputPath t; inputPath t]) in
  ret (TState 0 0 true None).

Definition handle (t : task) (e : event) (st : tstate) : M tstate :=
  match e with
  | Tick r => onInterval t r st
  | Close code => onClose t code st
  | SpawnError err => onError t err st
  | _ => ret st
  end.


Definition make_task (file : string) : task :=
  Task (NodePath.join inputDir file) (NodePath.join outputDir file) file.

Definition processGIFs : M batch :=
  let* files := NodeFs.readdirSync inputDir in
  let gifFiles := List.filter is_gif files in
  let totalFiles := length gifFiles in
  if (totalFiles =? 0)%nat then
    let* _ := console_log "No .gif files found in the input directory." in
    ret (Batch [] [] true)
  else
    let* _ := console_log ("Found " +:+ NodeString.show_N (N.of_nat totalFiles)
                           +:+ " GIF file(s). Starting optimization...") in
    for_await optimizeGIF (map make_task gifFiles) [].

Definition step : nat -> event -> batch -> M batch := seq_step optimizeGIF handle.

(** The top level of the script up to the spawn of the version check. *)
Definition top : M unit :=
  let* _ := ensureOutputDir outputDir in
  sys (SysSpawn "gifsicle" ["--version"]).

Definition not_installed : string :=
  "gifsicle is not installed. Please install gifsicle and try again.".

Definition main : spawn_result -> list (nat * event) -> world -> option batch * world :=
  run_script top processGIFs not_installed step.

End Script.
End Legacy.

(** ** index.js: sequential, progress with sizes *)

Module Index.
Section Script.
Context {RT : Runtime}.

Definition inputDir : string := NodePath.join dirname "input".
Definition outputDir : string := NodePath.join dirname "output".

Definition onInterval (t : task) (r : Q) (st : tstate) : M tstate :=
  if interval st then
    let progress' := fl (progress st + fl (r * 10)) in
    let* optimizedSize := size_or (outputPath t) (originalSize st) in
    let* _ := updateProgressBar (fileName t) (Qmin progress' 100)
                (Some (originalSize st, optimizedSize)) in
    ret (set_progress progress' st)
  else ret st.

Definition onClose (t : task) (code : Z) (st : tstate) : M tstate :=
  let st := clearInterval st in
  let* optimizedSize := size_or (outputPath t) (originalSize st) in
  let* _ := updateProgressBar (fileName t) 100
              (Some (originalSize st, optimizedSize)) in
  let* _ := console_log "" in
  if code =? 0 then ret (resolve Succeeded st)
  else
    ret (reject ("Optimization failed for " +:+ fileName t
                 +:+ " with exit code " +:+ show_Z code) st).

Definition onError (t : task) (err : string) (st : tstate) : M tstate :=
  ret (reject err (clearInterval st)).

(** The executor of the promise; an exception thrown in it rejects the
    promise. *)
Definition optimizeGIF (t : task) : M tstate :=
  try_catch
    (let* originalSize := NodeFs.statSync_size (inputPath t) in
     let* _ := sys (SysSpawn "gifsicle"
                      ["--optimize=3"; "--lossy=45"; "--colors=130"; "-o";
                       outputPath t; inputPath t]) in
     ret (TState originalSize 0 true None))
    (fun err => ret (TState 0 0 false (Some (Reject err)))).

Definition handle (t : task) (e : event) (st : tstate) : M tstate :=
  match e with
  | Tick r => onInterval t r st
  | Close code => onClose t code st
  | SpawnError err => onError t err st
  | _ => ret st
  end.


Definition make_task (file : string) : task :=
  Task (NodePath.join inputDir file) (NodePath.join outputDir file) file.

Definition processGIFs : M batch :=
  let* files := NodeFs.readdirSync inputDir in
  let gifFiles := List.filter is_gif files in
  let totalFiles := length gifFiles in
  if (totalFiles =? 0)%nat then
    let* _ := console_log "No .gif files found in the input directory." in
    ret (Batch [] [] true)
  else
    let* _ := console_log ("Found " +:+ NodeString.show_N (N.of_nat totalFiles)
                           +:+ " GIF file(s). Starting optimization...") in
    for_await optimizeGIF (map make_task gifFiles) [].

Definition step : nat -> event -> batch -> M batch := seq_step optimizeGIF handle.

(** The top level of the script up to the spawn of the version check. *)
Definition top : M unit :=
  let* _ := ensureOutputDir outputDir in
  sys (SysSpawn "gifsicle" ["--version"]).

Definition not_installed : string :=
  "gifsicle is not installed. Please install gifsicle and try again.".

Definition main : spawn_result -> list (nat * event) -> world -> option batch * world :=
  run_script top processGIFs not_installed step.

End Script.
End Index.

(** ** The pooled optimizer with the size fallback *)

Module Pool.
Section Script.
Context {RT : Runtime}.

Definition inputDir : string := NodePath.join dirname "input".
Definition outputDir : string := NodePath.join dirname "output".

Definition onInterval (t : task) (r : Q) (st : tstate) : M tstate :=
  if interval st then
    let progress' := fl (progress st + fl (r * 10)) in
    let* optimizedSize := size_or (outputPath t) (originalSize st) in
    let* _ := updateProgressBar (fileName t) (Qmin progress' 100)
                (Some (originalSize st, optimizedSize)) in
    ret (set_progress progress' st)
  else ret st.

Definition onClose (t : task) (code : Z) (st : tstate) : M tstate :=
  let st := clearInterval st in
  let* optimizedSize := size_or (outputPath t) (originalSize st) in
  if (originalSize st <=? optimizedSize)%N then
    let* _ := console_log ("❌ " +:+ fileName t
                +:+ ": Skipping optimization as it results in a larger file.") in
    let* _ := NodeFs.copyFileSync (inputPath t) (outputPath t) in
    ret (resolve SucceededViaFallback st)
  else
    let* _ := updateProgressBar (fileName t) 100
                (Some (originalSize st, optimizedSize)) in
    let* _ := console_log "" in
    if code =? 0 then ret (resolve Succeeded st)
    else
      ret (reject ("🔴 Optimization failed for " +:+ fileName t
                   +:+ " with exit code " +:+ show_Z code) st).

Definition onError (t : task) (err : string) (st : tstate) : M tstate :=
  ret (reject err (clearInterval st)).

Definition optimizeGIF (t : task) : M tstate :=
  try_catch
    (let* originalSize := NodeFs.statSync_size (inputPath t) in
     let* _ := sys (SysSpawn "gifsicle"
                      ["--optimize=3"; "--lossy=40"; "--colors=140"; "-o";
                       outputPath t; inputPath t]) in
     ret (TState originalSize 0 true None))
    (fun err => ret (TState 0 0 false (Some (Reject err)))).

Definition handle (t : task) (e : event) (st : tstate) : M tstate :=
  match e with
  | Tick r => onInterval t r st
  | Close code => onClose t code st
  | SpawnError err => onError t err st
  | _ => ret st
  end.


Definition make_task (file : string) : task :=
  Task (NodePath.join inputDir file) (NodePath.join outputDir file) file.

Definition all_done_message : string := "✅✅✅ All files optimized successfully! ✅✅✅".
Definition error_message : string := "🔴 Error during optimization:".

Definition processGIFs : M batch :=
  let* files := NodeFs.readdirSync inputDir in
  let gifFiles := List.filter is_gif files in
  let totalFiles := length gifFiles in
  if (totalFiles =? 0)%nat then
    let* _ := console_log "🪣 No .gif files found in the input directory." in
    ret (Batch [] [] true)
  else
    let* _ := console_log ("Found " +:+ NodeString.show_N (N.of_nat totalFiles)
                           +:+ " GIF file(s). Starting optimization...") in
    pool_submit optimizeGIF all_done_message error_message 4
      (map make_task gifFiles).

Definition step : nat -> event -> batch -> M batch :=
  pool_step optimizeGIF handle all_done_message error_message 4.

(** The top level of the script up to the spawn of the version check, or
    up to [process.exit(1)] when the input directory is missing (the quotes
    the message puts around the path are left out). *)
Definition top : M unit :=
  let* ex := NodeFs.existsSync inputDir in
  if ex then
    let* _ := ensureOutputDir outputDir in
    sys (SysSpawn "gifsicle" ["--version"])
  else
    let* _ := console_error ("🔴 Error: The input directory " +:+ inputDir
                             +:+ " does not exist.") in
    process_exit 1.

Definition not_installed : string :=
  "🔴 gifsicle is not installed. Please install gifsicle and try again.".

Definition main : spawn_result -> list (nat * event) -> world -> option batch * world :=
  run_script top processGIFs not_installed step.

End Script.
End Pool.

(** ** convert-to-webp.js: the pooled raster converter *)

Module Webp.
Section Script.
Context {RT : Runtime}.

Definition inputDir : string := NodePath.join dirname "images".
Definition outputDir : string := NodePath.join dirname "webp-images".

Definition onInterval (t : task) (r : Q) (st : tstate) : M tstate :=
  if interval st then
    let progress' := fl (progress st + fl (r * 10)) in
    let* convertedSize := size_or (outputPath t) (originalSize st) in
    let* _ := updateProgressBar (fileName t) (Qmin progress' 100)
                (Some (originalSize st, convertedSize)) in
    ret (set_progress progress' st)
  else ret st.

(** The [catch] block of [convertToWebP]; the function then returns, which
    fulfils its promise. *)
Definition onCatch (t : task) (err : string) (st : tstate) : M tstate :=
  let st := clearInterval st in
  let* _ := console_error ("🔴 Error converting " +:+ fileName t
                           +:+ ": " +:+ err) in
  ret (resolve (Failed err) st).

(** The rest of the [try] block once [await] returns. *)
Definition onResolved (t : task) (st : tstate) : M tstate :=
  try_catch
    (let st := clearInterval st in
     let* convertedSize := NodeFs.statSync_size (outputPath t) in
     let* _ := updateProgressBar (fileName t) 100
                 (Some (originalSize st, convertedSize)) in
     let* _ := console_log "" in
     ret (resolve Succeeded st))
    (fun err => onCatch t err st).

(** The body of the async function up to its [await]; an exception thrown
    there rejects the promise of the function. *)
Definition convertToWebP (t : task) : M tstate :=
  try_catch
    (let* originalSize := NodeFs.statSync_size (inputPath t) in
     let* _ := sys (SysSharp (inputPath t) (outputPath t)) in
     ret (TState originalSize 0 true None))
    (fun err => ret (TState 0 0 false (Some (Reject err)))).

Definition handle (t : task) (e : event) (st : tstate) : M tstate :=
  match e with
  | Tick r => onInterval t r st
  | Resolved => onResolved t st
  | Rejected err => onCatch t err st
  | _ => ret st
  end.


Definition make_task (file : string) : task :=
  Task (NodePath.join inputDir file)
       (NodePath.join outputDir
          (NodePath.basename file (NodePath.extname file) +:+ ".webp"))
       file.

Definition all_done_message : string := "✅✅✅ All files converted successfully! ✅✅✅".
Definition error_message : string := "🔴 Error during conversion:".

Definition processImages : M batch :=
  let* files := NodeFs.readdirSync inputDir in
  let imageFiles := List.filter is_raster files in
  let totalFiles := length imageFiles in
  if (totalFiles =? 0)%nat then
    let* _ := console_log "🪣 No JPG or PNG files found in the input directory." in
    ret (Batch [] [] true)
  else
    let* _ := console_log ("Found " +:+ NodeString.show_N (N.of_nat totalFiles)
                           +:+ " image file(s). Starting conversion...") in
    pool_submit convertToWebP all_done_message error_message 4
      (map make_task imageFiles).

Definition step : nat -> event -> batch -> M batch :=
  pool_step convertToWebP handle all_done_message error_message 4.

(** The top level of the script, which ends by calling [processImages]
    (the quotes the message puts around the path are left out). *)
Definition top : M (option batch) :=
  let* ex := NodeFs.existsSync inputDir in
  if ex then
    let* _ := ensureOutputDir outputDir in
    let* b := processImages in
    ret (Some b)
  else
    let* _ := console_error ("🔴 Error: The images directory " +:+ inputDir
                             +:+ " does not exist.") in
    let* _ := process_exit 1 in
    ret None.

(** A whole run of the script: the top level, then the events of the batch. *)
Definition main (evs : list (nat * event)) (w : world) : option batch * world :=
  let '(ob, w1) := callback top None w in
  match ob with
  | Some b => let '(b', w2) := run_events step evs b w1 in (Some b', w2)
  | None => (None, w1)
  end.

End Script.
End Webp.

(** ** Properties of a batch in flight *)

Definition settled (j : job) : Prop := pending j = false.

(** The concurrency bound for pool size [n] over the submitted [tasks]: at
    most [n] tasks in progress; started tasks followed by queued ones are the
    submitted ones in their order; a task is queued only while all [n] slots
    are taken. *)
Definition bounded_by (n : nat) (tasks : list task) (b : batch) : Prop :=
  (in_progress (jobs b) <= n)%nat
  /\ map jtask (jobs b) ++ queue b = tasks
  /\ (queue b <> [] -> in_progress (jobs b) = n).

(** Every submitted task was started and has settled. *)
Definition all_complete (b : batch) : Prop :=
  queue b = [] /\ in_progress (jobs b) = 0%nat.

(** The batch function awaits all outcomes: it has returned only if every
    task is complete. *)
Definition all_complete_barrier (b : batch) : Prop :=
  returned b = true -> all_complete b.

(** The batch function returns at the first rejection, or else once every
    task is fulfilled. *)
Definition first_failure_barrier (b : batch) : Prop :=
  returned b = true <->
  (is_Some (first_rejected (jobs b))
   \/ (queue b = [] /\ forallb fulfilled (jobs b) = true)).

(** The state of the sequential loop: suspended on the last started task,
    every earlier one settled; or over, with every task settled. *)
Definition loop_state (tasks : list task) (b : batch) : Prop :=
  map jtask (jobs b) ++ queue b = tasks
  /\ (returned b = true -> queue b = [] /\ Forall settled (jobs b))
  /\ (returned b = false ->
      exists js0 j, jobs b = js0 ++ [j] /\ pending j = true /\ Forall settled js0).

(** The state of the pool. *)
Definition pool_state (n : nat) (tasks : list task) (b : batch) : Prop :=
  bounded_by n tasks b /\ first_failure_barrier b.

(** Some task of the batch has the outcome Failed. *)
Definition any_failed (b : batch) : bool :=
  existsb (fun j => match promise (jstate j) with
                    | Some s => is_failed (outcome_of s)
                    | None => false
                    end) (jobs b).

(** The files a batch function submits: the entries of its input directory
    that pass its filter. *)
Definition matching (keep : string -> bool) (dir : string) (w : world) : list string :=
  List.filter keep (NodeFs.entries dir (fs w)).

(** The exit status is nonzero exactly when some task failed. *)
Definition exit_reflects_failure (r : option batch * world) : Prop :=
  match fst r with
  | Some b => exit_status (snd r) <> 0 <-> any_failed b = true
  | None => True
  end.

(** [m] leaves the exit status alone, whether it throws or not. *)
Definition calm {A} (m : M A) : Prop :=
  forall w r w', m w = (r, w') -> exit_code w' = exit_code w.

(** [m] never throws and leaves the exit status alone. *)
Definition quiet {A} (m : M A) : Prop :=
  forall w, exists a w', m w = (Ok a, w') /\ exit_code w' = exit_code w.

(** The lines printed when no file matches. *)
Definition none_found_gif : string := "No .gif files found in the input directory.".
Definition none_found_raster : string :=
  "🪣 No JPG or PNG files found in the input directory.".

(** What a script leaves of the file system when all it wrote is the output
    directory. *)
Definition only_ensured (out : string) (before after : gmap string node) : Prop :=
  after = before \/ (before !! out = None /\ after = <[out := Dir 0]> before).

(** Calls that read an input file or start a conversion. *)
Definition batch_work (c : syscall) : bool :=
  match c with
  | SysReaddir _ | SysStat _ | SysCopy _ _ | SysSharp _ _ => true
  | SysSpawn _ args => negb (bool_decide (args = ["--version"]))
  | SysExists _ | SysMkdir _ => false
  end.

(** The world a script is left in when the version check did not exit with
    code 0: the line of the 'error' handler when the child could not be
    launched (and the process is still there to print it). *)
Definition after_check (not_installed : string) (check : spawn_result)
    (w : world) : world :=
  match check, exit_code w with
  | LaunchFailed _, None =>
      World (fs w) (console w ++ [not_installed]) (bar w) (ops w) (exit_code w)
  | _, _ => w
  end.

(** ** One task from its start to its last event *)

(** The laws of rounding to the nearest double that the progress arithmetic
    relies on: rounding is monotone, leaves a double as it is, and 0 is a
    double. *)
Class RoundingLaws (RT : Runtime) : Prop := {
  fl_mono : forall x y : Q, (x <= y)%Q -> (fl x <= fl y)%Q;
  fl_idem : forall x : Q, (fl (fl x) == fl x)%Q;
  fl_zero : (fl 0 == 0)%Q;
}.

(** [Math.random()] returns a number in [0, 1). *)
Definition draw_ok (e : event) : Prop :=
  match e with
  | Tick r => (0 <= r)%Q /\ (r < 1)%Q
  | _ => True
  end.

Fixpoint task_events (handle : task -> event -> tstate -> M tstate)
    (t : task) (evs : list event) (st : tstate) : M tstate :=
  match evs with
  | [] => ret st
  | e :: evs' =>
      let* _ := environment t e in
      let* st' := handle t e st in
      task_events handle t evs' st'
  end.

Definition task_run (start : task -> M tstate)
    (handle : task -> event -> tstate -> M tstate)
    (t : task) (evs : list event) : M tstate :=
  let* st := start t in
  task_events handle t evs st.

(** A sequence of percents is nondecreasing and never above 100. *)
Definition percents_ok (ps : list Q) : Prop :=
  StronglySorted Qle ps /\ Forall (fun p => (p <= 100)%Q) ps.

(** The reports a run added to the bar are nondecreasing and at most 100. *)
Definition monotone_reports (w w' : world) : Prop :=
  exists reps, bar w' = bar w ++ reps /\ percents_ok (map r_percent reps).

(** While the timer is armed every percent reported so far is at most the
    progress counter, which is a double. *)
Definition armed_ok {RT : Runtime} (st : tstate) (ps : list Q) : Prop :=
  interval st = true ->
  Forall (fun p => (p <= progress st)%Q) ps /\ (fl (progress st) == progress st)%Q.

(** What one handler adds to the percents [ps] reported so far. *)
Definition step_ok {RT : Runtime} (ps : list Q) (w w' : world) (r : result tstate) : Prop :=
  exists new,
    bar w' = bar w ++ new
    /\ percents_ok (ps ++ map r_percent new)
    /\ (forall st', r = Ok st' -> armed_ok st' (ps ++ map r_percent new)).

(** ** The percents passed to the progress reporter, task by task *)

(** What one handler of the task called [name] adds to the percents [ps]
    reported for it so far. *)
Definition step_named {RT : Runtime} (name : string) (ps : list Q) (w w' : world)
    (r : result tstate) : Prop :=
  exists new,
    bar w' = bar w ++ new
    /\ Forall (fun rep => r_name rep = name) new
    /\ percents_ok (ps ++ map r_percent new)
    /\ (forall st', r = Ok st' -> armed_ok st' (ps ++ map r_percent new)).

(** The percents reported for the task called [name]. *)
Definition percents_of (name : string) (w : world) : list Q :=
  map r_percent (List.filter (fun rep => String.eqb (r_name rep) name) (bar w)).

Definition names (js : list job) : list string :=
  (fun j => fileName (jtask j)) <$> js.

(** The reports of a started task are in order, and agree with its counter
    while its timer is armed. *)
Definition job_ok {RT : Runtime} (w : world) (j : job) : Prop :=
  percents_ok (percents_of (fileName (jtask j)) w)
  /\ armed_ok (jstate j) (percents_of (fileName (jtask j)) w).

(** The reports of a batch in flight: the tasks have distinct names, every
    started task is [job_ok], and every report on the bar is that of a
    started task. *)
Definition reports_inv {RT : Runtime} (q : list task) (js : list job) (w : world) : Prop :=
  NoDup (names js ++ (fileName <$> q))
  /\ Forall (job_ok w) js
  /\ Forall (fun rep => r_name rep ∈ names js) (bar w).

(** For every task the percents reported are nondecreasing and at most
    100. *)
Definition reports_in_order (w : world) : Prop :=
  forall name, percents_ok (percents_of name w).

(** ** The line [updateProgressBar] writes

    The three scripts with sizes share one renderer; the first optimizer has
    the same one without the size annotation and with a buffer of 5.  The
    terminal control calls ([readline.clearLine], [readline.cursorTo]) are
    left out: the line is what is handed to [process.stdout.write].
    [String.length] stands for the [length] of a JavaScript string, which
    it is for names over the ASCII range. *)

(** Integers up to 2^53 in magnitude are doubles. *)
Class ExactIntegers (RT : Runtime) : Prop :=
  fl_int : forall n : Z, Z.abs n <= 2 ^ 53 -> (fl (inject_Z n) == inject_Z n)%Q.

Module ProgressBar.
Section Render.
Context {RT : Runtime}.

(** [process.stdout.columns || 80]; [columns] is undefined when the output
    is not a terminal. *)
Definition getTerminalWidth (columns : option N) : N :=
  match columns with
  | Some c => if (c =? 0)%N then 80%N else c
  | None => 80%N
  end.

Fixpoint replicate_char (c : ascii) (n : nat) : string :=
  match n with
  | O => EmptyString
  | S n' => String c (replicate_char c n')
  end.

(** [c.repeat(count)] for an integral count: a RangeError when it is
    negative. *)
Definition repeat (c : ascii) (count : Z) : result string :=
  if count <? 0 then Throw ("RangeError: Invalid count value: " +:+ show_Z count)
  else Ok (replicate_char c (Z.to_nat count)).

(** [Math.round]: the nearest integer, the larger one on a tie. *)
Definition round (x : Q) : Z := Qfloor (x + (1 # 2)).

Definition len (s : string) : Z := Z.of_nat (String.length s).

Definition completedWidth (progress : Q) (barWidth : Z) : Z :=
  round (fl (fl (progress / 100) * inject_Z barWidth)).

(** [`[${"#".repeat(completedWidth)}${"-".repeat(barWidth - completedWidth)}]`] *)
Definition cells (progress : Q) (barWidth : Z) : result string :=
  let completedWidth := completedWidth progress barWidth in
  match repeat "#" completedWidth with
  | Throw e => Throw e
  | Ok done =>
      match repeat "-" (barWidth - completedWidth) with
      | Throw e => Throw e
      | Ok rest => Ok ("[" +:+ done +:+ rest +:+ "]")
      end
  end.

(** The width of the bar, given what the other parts of the line take. *)
Definition barWidth (totalWidth : N) (taken buffer : Z) : Z :=
  Z.max (Z.of_N totalWidth - taken - buffer) 10.

(** The line written for one call of [updateProgressBar] on a terminal
    whose width is reported as [columns]. *)
Definition render (columns : option N) (r : report) : result string :=
  let totalWidth := getTerminalWidth columns in
  let label := r_name r +:+ ":" in
  let percentage := SizeFormatter.toFixed1 (r_percent r) +:+ "%" in
  match r_sizes r with
  | Some (originalSize, optimizedSize) =>
      let sizeInfo := sizeInfo originalSize optimizedSize in
      let barWidth := barWidth totalWidth (len label + len percentage + len sizeInfo) 10 in
      match cells (r_percent r) barWidth with
      | Throw e => Throw e
      | Ok bar => Ok (label +:+ " " +:+ bar +:+ " " +:+ percentage +:+ " " +:+ sizeInfo)
      end
  | None =>
      let barWidth := barWidth totalWidth (len label + len percentage) 5 in
      match cells (r_percent r) barWidth with
      | Throw e => Throw e
      | Ok bar => Ok (label +:+ " " +:+ bar +:+ " " +:+ percentage)
      end
  end.

(** What the other parts of the line of a report take. *)
Definition taken (r : report) : Z :=
  len (r_name r +:+ ":") + len (SizeFormatter.toFixed1 (r_percent r) +:+ "%")
  + match r_sizes r with
    | Some (originalSize, optimizedSize) => len (sizeInfo originalSize optimizedSize)
    | None => 0
    end.

End Render.
End ProgressBar.

(** The events that end a task under the optimizers ('close' and 'error'
    of the child) and under the raster converter (the settlement of the
    promise of sharp). *)
Definition ends_child (e : event) : Prop :=
  match e with Close _ | SpawnError _ => True | _ => False end.

Definition ends_conversion (e : event) : Prop :=
  match e with Resolved | Rejected _ => True | _ => False end.


(** A report the renderer can draw: a percent between 0 and 100. *)
Definition drawable (rep : report) : Prop :=
  (0 <= r_percent rep)%Q /\ (r_percent rep <= 100)%Q.

(** The counter of every started task is at least 0 while its timer is
    armed, and every report on the bar is [drawable]. *)
Definition bar_inv {RT : Runtime} (js : list job) (w : world) : Prop :=
  Forall (fun j => armed_ok (jstate j) [0%Q]) js /\ Forall drawable (bar w).

(** The line of a report can be written on a terminal [columns] wide. *)
Definition rendered {RT : Runtime} (columns : option N) (rep : report) : Prop :=
  exists line, ProgressBar.render columns rep = Ok line.

(** The promise of a started task is pending or fulfilled. *)
Definition unrejected (j : job) : Prop :=
  forall reason, promise (jstate j) <> Some (Reject reason).

(** The source of every task still queued is on the disk. *)
Definition sources_present (q : list task) (w : world) : Prop :=
  Forall (fun t => is_Some (fs w !! inputPath t)) q.

(** The line the sequential loop logs for a rejected task. *)
Definition failure_line (t : task) : string :=
  "Failed to optimize file: " +:+ fileName t.

Definition is_failure_line (l : string) : bool :=
  bool_decide (is_Some (NodeString.strip_prefix "Failed to optimize file: " l)).

Definition rejected (j : job) : bool :=
  match promise (jstate j) with Some (Reject _) => true | _ => false end.

(** One failure line for each rejected task, in the order of the tasks. *)
Definition failure_log (js : list job) : list string :=
  map (fun j => failure_line (jtask j)) (List.filter rejected js).

(** The console since [base]: its failure lines are those of the rejected
    tasks of the batch. *)
Definition accounted (base : list string) (b : batch) (w : world) : Prop :=
  exists lines, console w = base ++ lines
                /\ List.filter is_failure_line lines = failure_log (jobs b).

(** The size [fs.statSync] reports for a node. *)
Definition node_size (nd : node) : N :=
  match nd with
  | File c => N.of_nat (length c)
  | Dir sz => sz
  end.

(** The world [w'] differs from [w] on destination paths only, [dest]
    telling which paths those are. *)
Definition frame (dest : string -> Prop) (w w' : world) : Prop :=
  forall p, ~ dest p -> fs w' !! p = fs w !! p.

(** A path inside the directory [dir]. *)
Definition inside (dir : string) (p : string) : Prop :=
  exists name, p = NodePath.join dir name.

(** ** A concrete host and concrete directories, for the examples *)

Module Example.

(** Exact arithmetic and the script installed in [/app]. *)
Definition host : Runtime := {| fl := fun x => x; dirname := "/app" |}.

Definition bytes (n : nat) : list Byte.byte := repeat Byte.x00 n.

Definition world_of (files : list (string * node)) : world :=
  World (list_to_map files) [] [] [] None.

(** [input/] holds a.gif (5 bytes) and b.gif (3 bytes); no [output/] yet. *)
Definition two_gifs : world :=
  world_of [("/app/input", Dir 0);
            ("/app/input/a.gif", File (bytes 5));
            ("/app/input/b.gif", File (bytes 3))].

(** [images/] holds a.jpg and a.png. *)
Definition two_rasters : world :=
  world_of [("/app/images", Dir 0);
            ("/app/images/a.jpg", File (bytes 4));
            ("/app/images/a.png", File (bytes 6))].

(** [input/] holds only a PNG file. *)
Definition no_gifs : world :=
  world_of [("/app/input", Dir 0); ("/app/input/c.png", File (bytes 2))].

(** [images/] holds only a GIF file. *)
Definition no_rasters : world :=
  world_of [("/app/images", Dir 0); ("/app/images/c.gif", File (bytes 2))].

(** The pooled optimizer run on [two_gifs] after a successful version
    check, and the raster converter run on [two_rasters]. *)
Definition pool_run (evs : list (nat * event)) : option batch * world :=
  Pool.main (RT := host) (Exited 0) evs two_gifs.

Definition webp_run (evs : list (nat * event)) : option batch * world :=
  Webp.main (RT := host) evs two_rasters.

(** The result of a batch function run in a world. *)
Definition started (m : M batch) (w : world) : batch * world :=
  match m w with
  | (Ok b, w') => (b, w')
  | (Throw _, w') => (Batch [] [] true, w')
  end.

(** The state a finished run of one task ends in. *)
Definition state_of (r : result tstate * world) : tstate :=
  match fst r with
  | Ok st => st
  | Throw _ => TState 0 0 false None
  end.

(** Three ticks of the task of a.gif under index.js, the converter writing
    two bytes before the last one. *)
Definition ticks : list event :=
  [Tick (1 # 2); Tick (3 # 4); Produced (bytes 2); Tick (1 # 10)].

(** Events for the first two tasks of a batch: ticks of both, the converter
    of the first writing two bytes in between. *)
Definition batch_ticks : list (nat * event) :=
  [(0%nat, Tick (1 # 2)); (1%nat, Tick (9 # 10)); (0%nat, Tick (3 # 4));
   (0%nat, Produced (bytes 2)); (1%nat, Tick (1 # 3)); (0%nat, Tick (1 # 10))].

End Example.

(** * Proofs *)

(** ** SizeFormatter *)

Section SizeFormatterFacts.
Import NodeString SizeFormatter.

Lemma tenths_as_floor (x : Q) (b : N) (d : positive) :
  (x == inject_Z (Z.of_N b) / inject_Z (Z.pos d))%Q ->
  Z.to_N (Qfloor (x * 10 + (1 # 2))) = tenths b (N.pos d).
Proof.
  intros Hx.
  assert (Hq : (x * 10 + (1 # 2) == (20 * Z.of_N b + Z.pos d) # (2 * d))%Q).
  { rewrite Hx, Qmake_Qdiv. unfold Qeq, Qplus, Qmult; simpl. lia. }
  rewrite (Qfloor_comp _ _ Hq). unfold tenths; simpl Qfloor.
  apply N2Z.inj. rewrite N2Z.inj_div, N2Z.inj_add, !N2Z.inj_mul.
  rewrite Z2N.id; [reflexivity|].
  apply Z.div_pos; lia.
Qed.

(** The tenths shown are the nearest ones: the error is at most half a
    tenth of the unit, and a tie goes up. *)
Lemma tenths_nearest (b d : N) :
  (0 < d)%N ->
  (2 * d * tenths b d <= 20 * b + d < 2 * d * tenths b d + 2 * d)%N.
Proof.
  intros Hd. unfold tenths.
  pose proof (N.div_mod (20 * b + d) (2 * d) ltac:(lia)) as E.
  pose proof (N.mod_lt (20 * b + d) (2 * d) ltac:(lia)) as L.
  set (q := ((20 * b + d) / (2 * d))%N) in *.
  set (r := ((20 * b + d) mod (2 * d))%N) in *.
  lia.
Qed.

Lemma kb_lt_iff (b : N) (d : positive) (x : Q) :
  (x == inject_Z (Z.of_N b) / inject_Z (Z.pos d))%Q ->
  (x < 1024)%Q <-> (b < 1024 * N.pos d)%N.
Proof.
  intros Hx. rewrite Hx, Qmake_Qdiv. unfold Qlt; simpl. lia.
Qed.

(** C8. The size formatter prints the byte count with unit B below 1024
    bytes, otherwise kilobytes with one decimal below 1024 KB, otherwise
    megabytes with one decimal below 1024 MB, otherwise gigabytes with one
    decimal. *)
Theorem formatFileSize_rule (bytes : N) :
  formatFileSize bytes = size_rule bytes.
Proof.
  unfold formatFileSize, size_rule.
  set (kb := (inject_Z (Z.of_N bytes) / 1024)%Q).
  set (mb := (kb / 1024)%Q).
  set (gb := (mb / 1024)%Q).
  assert (Hkb : (kb == inject_Z (Z.of_N bytes) / inject_Z (Z.pos 1024))%Q)
    by reflexivity.
  assert (Hmb : (mb == inject_Z (Z.of_N bytes) / inject_Z (Z.pos (1024 * 1024)))%Q).
  { unfold mb. rewrite Hkb, !Qmake_Qdiv. unfold Qeq, Qdiv, Qmult; simpl. lia. }
  assert (Hgb : (gb == inject_Z (Z.of_N bytes)
                       / inject_Z (Z.pos (1024 * 1024 * 1024)))%Q).
  { unfold gb. rewrite Hmb, !Qmake_Qdiv. unfold Qeq, Qdiv, Qmult; simpl. lia. }
  case_bool_decide as H0.
  { apply N.ltb_lt in H0. now rewrite H0. }
  apply N.ltb_nlt in H0. rewrite H0.
  unfold toFixed1, one_decimal.
  destruct (Qlt_le_dec kb 1024) as [H1 | H1].
  { apply (kb_lt_iff bytes 1024 kb Hkb) in H1.
    assert ((bytes <? 1024 * 1024)%N = true) as -> by (apply N.ltb_lt; lia).
    now rewrite (tenths_as_floor kb bytes 1024 Hkb). }
  assert ((bytes <? 1024 * 1024)%N = false) as ->.
  { apply N.ltb_nlt. intros C.
    apply (Qlt_not_le kb 1024); [|exact H1].
    apply (kb_lt_iff bytes 1024 kb Hkb). lia. }
  destruct (Qlt_le_dec mb 1024) as [H2 | H2].
  { apply (kb_lt_iff bytes (1024 * 1024) mb Hmb) in H2.
    assert ((bytes <? 1024 * 1024 * 1024)%N = true) as ->
      by (apply N.ltb_lt; lia).
    now rewrite (tenths_as_floor mb bytes (1024 * 1024) Hmb). }
  assert ((bytes <? 1024 * 1024 * 1024)%N = false) as ->.
  { apply N.ltb_nlt. intros C.
    apply (Qlt_not_le mb 1024); [|exact H2].
    apply (kb_lt_iff bytes (1024 * 1024) mb Hmb). lia. }
  now rewrite (tenths_as_floor gb bytes (1024 * 1024 * 1024) Hgb).
Qed.

End SizeFormatterFacts.

Example formatFileSize_samples :
  map SizeFormatter.formatFileSize [0; 1023; 1024; 1280; 500000; 1048575; 1048576; 5000000000]%N
  = ["0 B"; "1023 B"; "1.0 KB"; "1.3 KB"; "488.3 KB"; "1024.0 KB"; "1.0 MB"; "4.7 GB"].
Proof. vm_compute. reflexivity. Qed.

Example extname_samples :
  map NodePath.extname ["a.gif"; "a.b.GIF"; ".gif"; "noext"; "a."; ".."]
  = [".gif"; ".GIF"; ""; ""; "."; ""].
Proof. reflexivity. Qed.

Example basename_samples :
  map (fun f => NodePath.basename f (NodePath.extname f)) ["a.jpg"; "a.png"; "x.y.jpeg"; ".png"]
  = ["a"; "a"; "x.y"; ".png"].
Proof. reflexivity. Qed.

Example filter_samples :
  map is_gif ["a.gif"; "B.GIF"; "c.png"; ".gif"; "gif"] = [true; true; false; false; false]
  /\ map is_raster ["a.jpg"; "b.JPEG"; "c.Png"; "d.gif"; ".png"; "e.jpg.txt"]
     = [true; true; true; false; false; false].
Proof. split; reflexivity. Qed.

(** ** Unfolding the monad *)

Ltac run_m :=
  unfold size_or, NodeFs.existsSync, NodeFs.statSync_size, NodeFs.copyFileSync,
    NodeFs.mkdirSync, NodeFs.readdirSync, updateProgressBar, console_error,
    console_log, sys, get_fs, set_fs, process_exit, try_catch, bind, ret, throw;
  cbn -[N.leb N.ltb Z.eqb N.of_nat Nat.ltb Nat.eqb Qmin Qplus Qmult String.append].

Tactic Notation "run_m" "in" hyp(H) :=
  unfold size_or, NodeFs.existsSync, NodeFs.statSync_size, NodeFs.copyFileSync,
    NodeFs.mkdirSync, NodeFs.readdirSync, updateProgressBar, console_error,
    console_log, sys, get_fs, set_fs, process_exit, try_catch, bind, ret, throw in H;
  cbn -[N.leb N.ltb Z.eqb N.of_nat Nat.ltb Nat.eqb Qmin Qplus Qmult String.append] in H.

(** Runs a monadic term as far as the given equations allow. *)
Tactic Notation "run_m" "with" constr(H1) :=
  run_m; repeat (progress (rewrite ?H1; run_m)).
Tactic Notation "run_m" "with" constr(H1) constr(H2) :=
  run_m; repeat (progress (rewrite ?H1, ?H2; run_m)).
Tactic Notation "run_m" "with" constr(H1) constr(H2) constr(H3) :=
  run_m; repeat (progress (rewrite ?H1, ?H2, ?H3; run_m)).

(** ** FallbackPolicy of the pooled optimizer *)

Section Fallback.
Context {RT : Runtime}.

(** C1. On the optimizer path with the fallback, when the produced file is
    at least as large as the original size recorded at the start, the close
    handler replaces the produced file by a byte-for-byte copy of the
    source, touches no other path, reports no completion percent and
    resolves the promise as SucceededViaFallback. *)
Theorem fallback_copies_original
    (t : task) (code : Z) (st : tstate) (w : world)
    (original produced : list Byte.byte) :
  fs w !! inputPath t = Some (File original) ->
  fs w !! outputPath t = Some (File produced) ->
  (originalSize st <= N.of_nat (length produced))%N ->
  promise st = None ->
  exists st' w',
    Pool.onClose t code st w = (Ok st', w')
    /\ promise st' = Some (Fulfil SucceededViaFallback)
    /\ fs w' !! outputPath t = Some (File original)
    /\ fs w' !! inputPath t = Some (File original)
    /\ (forall p, p <> outputPath t -> fs w' !! p = fs w !! p)
    /\ bar w' = bar w.
Proof.
  intros Hin Hout Hsize Hpending.
  apply N.leb_le in Hsize.
  unfold Pool.onClose. run_m with Hout Hsize Hin.
  eexists _, _. split; [reflexivity|].
  cbn [fs bar]. repeat split.
  - unfold resolve, settle. cbn [promise clearInterval]. now rewrite Hpending.
  - apply lookup_insert_eq.
  - destruct (decide (inputPath t = outputPath t)) as [E|E].
    + rewrite E. apply lookup_insert_eq.
    + rewrite lookup_insert_ne by congruence. exact Hin.
  - intros p Hp. now rewrite lookup_insert_ne by congruence.
Qed.

End Fallback.

(** The close handler run on a produced file of 7 bytes for a source of 5. *)
Lemma fallback_copies_original_witness :
  let t := Pool.make_task (RT := Example.host) "a.gif" in
  let w := Example.world_of [("/app/input/a.gif", File (Example.bytes 5));
                             ("/app/output/a.gif", File (Example.bytes 7))] in
  exists st' w',
    Pool.onClose t 0 (TState 5 0 true None) w = (Ok st', w')
    /\ promise st' = Some (Fulfil SucceededViaFallback)
    /\ fs w' !! outputPath t = Some (File (Example.bytes 5))
    /\ fs w' !! inputPath t = Some (File (Example.bytes 5))
    /\ (forall p, p <> outputPath t -> fs w' !! p = fs w !! p)
    /\ bar w' = bar w.
Proof.
  intros t w.
  apply (fallback_copies_original t 0 (TState 5 0 true None) w
           (Example.bytes 5) (Example.bytes 7)).
  - reflexivity.
  - reflexivity.
  - vm_compute. discriminate.
  - reflexivity.
Defined.

(** ** Exit codes of the converter process *)

Section ExitCodes.
Context {RT : Runtime}.

(** In index.js every nonzero exit code rejects the promise. *)
Lemma Index_nonzero_exit_rejected (t : task) (code : Z) (st : tstate) (w : world) :
  code <> 0 -> promise st = None ->
  exists reason st' w',
    Index.onClose t code st w = (Ok st', w') /\ promise st' = Some (Reject reason).
Proof.
  intros Hcode Hpending. apply Z.eqb_neq in Hcode.
  unfold Index.onClose.
  destruct (fs w !! outputPath t) as [[c|sz]|] eqn:E; run_m with E Hcode;
    (eexists _, _, _; split; [reflexivity|]);
    unfold reject, settle; cbn [promise clearInterval]; now rewrite Hpending.
Qed.

(** In the pooled optimizer a child that leaves no destination file is
    taken for a losing optimization, whatever its exit code. *)
Lemma Pool_close_without_output (t : task) (code : Z) (st : tstate) (w : world)
    (original : list Byte.byte) :
  fs w !! inputPath t = Some (File original) ->
  fs w !! outputPath t = None ->
  promise st = None ->
  exists st' w',
    Pool.onClose t code st w = (Ok st', w')
    /\ promise st' = Some (Fulfil SucceededViaFallback)
    /\ fs w' !! outputPath t = Some (File original).
Proof.
  intros Hin Hout Hpending.
  unfold Pool.onClose. run_m with Hout (N.leb_refl (originalSize st)) Hin.
  eexists _, _. split; [reflexivity|]. split.
  - unfold resolve, settle. cbn [promise clearInterval]. now rewrite Hpending.
  - apply lookup_insert_eq.
Qed.

End ExitCodes.

(** C2. The pooled optimizer at a converter that exits with code 1 and
    writes nothing: the task of a.gif is started, its child closes with code
    1, and the promise is fulfilled as SucceededViaFallback with the source
    copied to the destination, where the claim asks for Failed. *)
Lemma Pool_nonzero_exit_recorded_as_fallback :
  let t := Pool.make_task (RT := Example.host) "a.gif" in
  let started := Pool.optimizeGIF t Example.two_gifs in
  exists st w st' w',
    started = (Ok st, w)
    /\ Pool.handle (RT := Example.host) t (Close 1) st w = (Ok st', w')
    /\ promise st = None
    /\ promise st' = Some (Fulfil SucceededViaFallback)
    /\ fs w' !! outputPath t = Some (File (Example.bytes 5)).
Proof.
  vm_compute. eexists _, _, _, _. repeat split.
Qed.

(** ** Inversion of monadic runs *)

Lemma bind_Ok {A B} (m : M A) (k : A -> M B) (w w' : world) (b : B) :
  bind m k w = (Ok b, w') ->
  exists a w1, m w = (Ok a, w1) /\ k a w1 = (Ok b, w').
Proof.
  unfold bind. destruct (m w) as [[a|e] w1]; intros H; [eauto | discriminate].
Qed.

Lemma ret_Ok {A} (a b : A) (w w' : world) : ret a w = (Ok b, w') -> a = b /\ w = w'.
Proof. unfold ret. intros H. now inversion H. Qed.

Ltac inv_m H :=
  repeat match type of H with
  | bind _ _ _ = (Ok _, _) =>
      let a := fresh "a" in let w1 := fresh "w" in let H1 := fresh "Hm" in
      apply bind_Ok in H; destruct H as (a & w1 & H1 & H)
  | ret _ _ = (Ok _, _) => apply ret_Ok in H; destruct H; subst
  end.

(** ** Pending and settled jobs *)

Lemma in_progress_app (js js' : list job) :
  in_progress (js ++ js') = (in_progress js + in_progress js')%nat.
Proof. unfold in_progress. now rewrite List.filter_app, length_app. Qed.

Lemma in_progress_cons (j : job) (js : list job) :
  in_progress (j :: js) = ((if pending j then 1 else 0) + in_progress js)%nat.
Proof. unfold in_progress. cbn [List.filter]. now destruct (pending j). Qed.

Lemma in_progress_settled (js : list job) :
  Forall (fun j => pending j = false) js -> in_progress js = 0%nat.
Proof.
  induction 1 as [|j js Hj _ IH]; [reflexivity|].
  now rewrite in_progress_cons, Hj, IH.
Qed.

(** A job whose promise was settled keeps its settlement. *)
Definition keeps_promise (j j' : job) : Prop :=
  jtask j' = jtask j
  /\ (promise (jstate j) <> None -> promise (jstate j') = promise (jstate j)).

Lemma keeps_promise_refl (j : job) : keeps_promise j j.
Proof. now split. Qed.

Lemma keeps_pending (j j' : job) :
  keeps_promise j j' -> pending j = false -> pending j' = false.
Proof.
  intros [_ H] Hp. unfold pending in *.
  destruct (promise (jstate j)); [|discriminate].
  now rewrite H.
Qed.

Lemma keeps_in_progress (js js' : list job) :
  Forall2 keeps_promise js js' -> (in_progress js' <= in_progress js)%nat.
Proof.
  induction 1 as [|j j' js js' Hj _ IH]; [reflexivity|].
  rewrite !in_progress_cons.
  destruct (pending j) eqn:E.
  - destruct (pending j'); lia.
  - rewrite (keeps_pending j j' Hj E). lia.
Qed.

Lemma keeps_tasks (js js' : list job) :
  Forall2 keeps_promise js js' -> map jtask js' = map jtask js.
Proof.
  induction 1 as [|j j' js js' [Hj _] _ IH]; [reflexivity|].
  cbn [map]. now rewrite Hj, IH.
Qed.

Lemma keeps_settled (js js' : list job) :
  Forall2 keeps_promise js js' ->
  Forall (fun j => pending j = false) js -> Forall (fun j => pending j = false) js'.
Proof.
  induction 1 as [|j j' js js' Hj _ IH]; intros Hs; [constructor|].
  inversion Hs; subst. constructor; [eapply keeps_pending; eauto | auto].
Qed.

Lemma keeps_first_rejected (js js' : list job) :
  Forall2 keeps_promise js js' ->
  is_Some (first_rejected js) -> is_Some (first_rejected js').
Proof.
  induction 1 as [|j j' js js' [_ Hj] _ IH]; [easy|].
  cbn [first_rejected].
  destruct (promise (jstate j)) as [[o|reason]|].
  - rewrite Hj by discriminate. exact IH.
  - rewrite Hj by discriminate. eauto.
  - intros H. destruct (promise (jstate j')) as [[o|reason]|]; eauto.
Qed.

Lemma keeps_fulfilled (js js' : list job) :
  Forall2 keeps_promise js js' ->
  forallb fulfilled js = true -> forallb fulfilled js' = true.
Proof.
  induction 1 as [|j j' js js' [_ Hj] _ IH]; [easy|].
  cbn [forallb]. rewrite !andb_true_iff. intros [Hf Hr]. split; [|auto].
  unfold fulfilled in *.
  destruct (promise (jstate j)) as [[o|reason]|]; try discriminate.
  now rewrite Hj by discriminate.
Qed.

Lemma keeps_insert (js : list job) (i : nat) (j j' : job) :
  js !! i = Some j -> keeps_promise j j' ->
  Forall2 keeps_promise js (<[i := j']> js).
Proof.
  revert i. induction js as [|x js IH]; intros [|i] Hi Hk; try discriminate.
  - cbn in Hi. inversion Hi; subst. cbn. constructor; [exact Hk|].
    apply Forall_Forall2_diag, Forall_forall. intros; apply keeps_promise_refl.
  - cbn in Hi. cbn. constructor; [apply keeps_promise_refl | eauto].
Qed.

Lemma first_rejected_app (js new : list job) :
  is_Some (first_rejected js) -> is_Some (first_rejected (js ++ new)).
Proof.
  induction js as [|j js IH]; cbn [first_rejected app]; [intros [? ?]; discriminate|].
  destruct (promise (jstate j)) as [[o|reason]|]; eauto.
Qed.

Lemma settled_in_progress (js : list job) :
  Forall settled js -> in_progress js = 0%nat.
Proof. apply in_progress_settled. Qed.

(** ** The two schedulers, for any script whose handlers respect promises *)

Section BatchFacts.
Variable start : task -> M tstate.
Variable handle : task -> event -> tstate -> M tstate.

(** A handler never changes a promise that is settled. *)
Hypothesis handle_keeps : forall t e st w st' w',
  handle t e st w = (Ok st', w') ->
  promise st <> None -> promise st' = promise st.

Lemma fire_keeps (i : nat) (e : event) (js js' : list job) (w w' : world) :
  fire handle i e js w = (Ok js', w') -> Forall2 keeps_promise js js'.
Proof.
  unfold fire. destruct (js !! i) as [j|] eqn:Hi; intros H.
  - inv_m H. apply keeps_insert with (j := j); [exact Hi|].
    split; [reflexivity|]. cbn [jstate]. eauto.
  - inv_m H. apply Forall_Forall2_diag, Forall_forall.
    intros; apply keeps_promise_refl.
Qed.

Lemma pLimit_spec (n : nat) (q : list task) :
  forall (js : list job) (w w' : world) (q' : list task) (js' : list job),
  pLimit start n q js w = (Ok (q', js'), w') ->
  (in_progress js <= n)%nat ->
  (in_progress js' <= n)%nat
  /\ map jtask js' ++ q' = map jtask js ++ q
  /\ (q' <> [] -> in_progress js' = n)
  /\ (exists new, js' = js ++ new)
  /\ (q = [] -> js' = js).
Proof.
  induction q as [|t q IH]; intros js w w' q' js' H Hle; cbn [pLimit] in H.
  - inv_m H. inversion H; subst.
    split; [exact Hle|]. split; [reflexivity|]. split; [congruence|].
    split; [|reflexivity]. exists []. now rewrite app_nil_r.
  - destruct (in_progress js <? n)%nat eqn:Hlt.
    + inv_m H. apply IH in H.
      * destruct H as (H1 & H2 & H3 & [new H4] & _).
        split; [exact H1|]. split; [|split; [exact H3|split]].
        -- rewrite H2, map_app. cbn [map jtask]. now rewrite <- app_assoc.
        -- exists (Job t a :: new). now rewrite H4, <- app_assoc.
        -- discriminate.
      * apply Nat.ltb_lt in Hlt. rewrite in_progress_app, in_progress_cons.
        unfold in_progress at 2. cbn [List.filter length].
        destruct (pending (Job t a)); lia.
    + inv_m H. inversion H; subst. apply Nat.ltb_ge in Hlt.
      split; [exact Hle|]. split; [reflexivity|]. split; [intros _; lia|].
      split; [|discriminate]. exists []. now rewrite app_nil_r.
Qed.

Lemma barrier_spec (done_msg err_msg : string) (b b' : batch) (w w' : world) :
  barrier done_msg err_msg b w = (Ok b', w') ->
  queue b' = queue b /\ jobs b' = jobs b
  /\ (returned b' = true <->
      (returned b = true
       \/ is_Some (first_rejected (jobs b))
       \/ (queue b = [] /\ forallb fulfilled (jobs b) = true))).
Proof.
  unfold barrier. destruct (returned b) eqn:Hr.
  - intros H. inv_m H. rewrite Hr. repeat split; auto.
  - destruct (first_rejected (jobs b)) as [reason|] eqn:Hf.
    + intros H. inv_m H. cbn [queue jobs returned]. repeat split; eauto.
    + destruct (bool_decide (queue b = []) && forallb fulfilled (jobs b)) eqn:Hall.
      * intros H. inv_m H. cbn [queue jobs returned].
        apply andb_true_iff in Hall. destruct Hall as [Hq Hall].
        apply bool_decide_eq_true in Hq. repeat split; auto.
      * intros H. inv_m H. rewrite Hr.
        split; [reflexivity|]. split; [reflexivity|]. split.
        -- discriminate.
        -- intros [C|[[x C]|[Hq C]]]; try discriminate.
           apply andb_false_iff in Hall. destruct Hall as [Hall|Hall].
           ++ apply bool_decide_eq_false in Hall. contradiction.
           ++ congruence.
Qed.

Lemma pool_state_step (done_msg err_msg : string) (n i : nat) (e : event)
    (tasks : list task) (b b' : batch) (w w' : world) :
  pool_state n tasks b ->
  pool_step start handle done_msg err_msg n i e b w = (Ok b', w') ->
  pool_state n tasks b'.
Proof.
  intros [(Hle & Hord & Hfull) Hbar] H. unfold pool_step in H. inv_m H.
  destruct a0 as [q' js2]. cbn [fst snd] in H.
  pose proof (fire_keeps _ _ _ _ _ _ Hm) as Hk.
  pose proof (keeps_in_progress _ _ Hk) as Hk1.
  apply pLimit_spec in Hm0; [|lia].
  destruct Hm0 as (P1 & P2 & P3 & [new P4] & P5).
  apply barrier_spec in H. cbn [queue jobs returned] in H.
  destruct H as (B1 & B2 & B3).
  split.
  - unfold bounded_by. rewrite B1, B2. repeat split; auto.
    now rewrite P2, (keeps_tasks _ _ Hk).
  - unfold first_failure_barrier. rewrite B1, B2, B3. split.
    + intros [Hr|[Hr|Hr]]; auto.
      apply Hbar in Hr. destruct Hr as [Hr|[Hq Hr]].
      * left. rewrite P4. apply first_rejected_app.
        eapply keeps_first_rejected; eauto.
      * right. rewrite Hq in *. rewrite (P5 eq_refl).
        split; [|eapply keeps_fulfilled; eauto].
        destruct q'; [reflexivity|].
        rewrite (P5 eq_refl) in P2. rewrite app_nil_r in P2.
        apply (f_equal length) in P2. rewrite length_app in P2.
        cbn [length] in P2. lia.
    + tauto.
Qed.

Lemma pool_state_submit (done_msg err_msg : string) (n : nat)
    (tasks : list task) (b : batch) (w w' : world) :
  pool_submit start done_msg err_msg n tasks w = (Ok b, w') ->
  pool_state n tasks b.
Proof.
  intros H. unfold pool_submit in H. inv_m H.
  destruct a as [q' js2]. cbn [fst snd] in H.
  apply pLimit_spec in Hm; [|cbn; lia].
  destruct Hm as (P1 & P2 & P3 & _ & P5).
  apply barrier_spec in H. cbn [queue jobs returned] in H.
  destruct H as (B1 & B2 & B3).
  split.
  - unfold bounded_by. rewrite B1, B2. repeat split; auto.
  - unfold first_failure_barrier. rewrite B1, B2, B3. split.
    + intros [Hr|[Hr|Hr]]; auto. discriminate.
    + tauto.
Qed.

Lemma pool_state_run (done_msg err_msg : string) (n : nat) (tasks : list task)
    (evs : list (nat * event)) :
  forall (b : batch) (w : world),
  pool_state n tasks b ->
  pool_state n tasks
    (fst (run_events (pool_step start handle done_msg err_msg n) evs b w)).
Proof.
  induction evs as [|[i e] evs IH]; intros b w Hb; cbn [run_events]; [exact Hb|].
  unfold callback. destruct (exit_code w).
  - apply IH, Hb.
  - destruct (pool_step start handle done_msg err_msg n i e b w) as [[b'|msg] w'] eqn:E.
    + apply IH. eapply pool_state_step; eauto.
    + apply IH, Hb.
Qed.

(** *** The sequential loop *)

Lemma for_await_spec (q : list task) :
  forall (js : list job) (b : batch) (w w' : world),
  for_await start q js w = (Ok b, w') ->
  Forall settled js ->
  loop_state (map jtask js ++ q) b.
Proof.
  induction q as [|t q IH]; intros js b w w' H Hs; cbn [for_await] in H.
  - inv_m H. unfold loop_state. cbn [jobs queue returned].
    repeat split; auto. discriminate.
  - inv_m H. destruct (promise a) as [s|] eqn:Hp.
    + inv_m H. apply IH in H.
      * rewrite map_app in H. cbn [map jtask] in H.
        now rewrite <- app_assoc in H.
      * apply Forall_app. split; [exact Hs|].
        constructor; [|constructor]. unfold settled, pending. cbn [jstate].
        now rewrite Hp.
    + inv_m H. unfold loop_state. cbn [jobs queue returned]. split; [|split].
      * rewrite map_app. cbn [map jtask]. now rewrite <- app_assoc.
      * discriminate.
      * intros _. exists js, (Job t a). repeat split; auto.
        unfold pending. cbn [jstate]. now rewrite Hp.
Qed.

Lemma loop_state_step (i : nat) (e : event) (tasks : list task)
    (b b' : batch) (w w' : world) :
  loop_state tasks b ->
  seq_step start handle i e b w = (Ok b', w') ->
  loop_state tasks b'.
Proof.
  intros (Hord & Hret & Hrun) H. unfold seq_step in H. inv_m H.
  pose proof (fire_keeps _ _ _ _ _ _ Hm) as Hk.
  destruct (returned b) eqn:Hr.
  - inv_m H. destruct (Hret eq_refl) as [Hq Hs].
    unfold loop_state. cbn [jobs queue returned]. split; [|split].
    + now rewrite (keeps_tasks _ _ Hk).
    + intros _. split; [exact Hq|]. eapply keeps_settled; eauto.
    + discriminate.
  - destruct (Hrun eq_refl) as (js0 & j & Hjobs & Hj & Hs0).
    rewrite Hjobs in Hk. apply Forall2_app_inv_l in Hk.
    destruct Hk as (js0' & l' & K0 & K1 & Ea).
    inversion K1 as [|j0 j' l0 l'' Kj Knil E1 E2]. inversion Knil.
    assert (Ea' : a = js0' ++ [j']) by congruence. clear Ea. rewrite Ea' in H.
    rewrite last_snoc in H.
    assert (Hs0' : Forall settled js0') by (eapply keeps_settled; eauto).
    assert (Htasks : map jtask (js0' ++ [j']) ++ queue b = tasks).
    { rewrite <- Hord, Hjobs, !map_app, (keeps_tasks _ _ K0). cbn [map].
      now destruct Kj as [-> _]. }
    destruct (promise (jstate j')) as [s|] eqn:Hp.
    + inv_m H. apply for_await_spec in H.
      * now rewrite Htasks in H.
      * apply Forall_app. split; [exact Hs0'|]. constructor; [|constructor].
        unfold settled, pending. now rewrite Hp.
    + inv_m H. unfold loop_state. cbn [jobs queue returned]. split; [|split].
      * exact Htasks.
      * discriminate.
      * intros _. exists js0', j'. repeat split; auto.
        unfold pending. now rewrite Hp.
Qed.

Lemma loop_state_run (tasks : list task) (evs : list (nat * event)) :
  forall (b : batch) (w : world),
  loop_state tasks b ->
  loop_state tasks (fst (run_events (seq_step start handle) evs b w)).
Proof.
  induction evs as [|[i e] evs IH]; intros b w Hb; cbn [run_events]; [exact Hb|].
  unfold callback. destruct (exit_code w).
  - apply IH, Hb.
  - destruct (seq_step start handle i e b w) as [[b'|msg] w'] eqn:E.
    + apply IH. eapply loop_state_step; eauto.
    + apply IH, Hb.
Qed.

End BatchFacts.

Lemma loop_state_bounded (tasks : list task) (b : batch) :
  loop_state tasks b -> bounded_by 1 tasks b.
Proof.
  intros (Hord & Hret & Hrun). unfold bounded_by.
  destruct (returned b) eqn:Hr.
  - destruct (Hret eq_refl) as [Hq Hs].
    rewrite (settled_in_progress _ Hs). repeat split; auto. congruence.
  - destruct (Hrun eq_refl) as (js0 & j & Hjobs & Hj & Hs0).
    assert (in_progress (jobs b) = 1%nat) as ->.
    { rewrite Hjobs, in_progress_app, (settled_in_progress _ Hs0).
      unfold in_progress. cbn [List.filter]. now rewrite Hj. }
    repeat split; auto.
Qed.

Lemma loop_state_barrier (tasks : list task) (b : batch) :
  loop_state tasks b -> all_complete_barrier b.
Proof.
  intros (_ & Hret & _) Hr. destruct (Hret Hr) as [Hq Hs].
  split; [exact Hq | now apply settled_in_progress].
Qed.

(** ** The handlers of the four scripts respect settled promises *)

Lemma settle_keeps (s : settlement) (st : tstate) :
  promise st <> None -> promise (settle s st) = promise st.
Proof. unfold settle. destruct (promise st) eqn:E; [now rewrite E | congruence]. Qed.

Lemma settle_clear_keeps (s : settlement) (st : tstate) :
  promise st <> None -> promise (settle s (clearInterval st)) = promise st.
Proof. intros H. now rewrite settle_keeps. Qed.

Ltac split_matches H :=
  repeat match type of H with
  | context [match ?x with _ => _ end] =>
      lazymatch x with
      | context [match _ with _ => _ end] => fail
      | _ => destruct x eqn:?; run_m in H
      end
  end.

Ltac handler_keeps H Hp :=
  run_m in H; split_matches H; inversion H; subst;
  unfold resolve, reject;
  rewrite ?settle_clear_keeps, ?settle_keeps by exact Hp;
  try reflexivity; try discriminate.

Section HandlersKeep.
Context {RT : Runtime}.

Lemma Legacy_handle_keeps t e st w st' w' :
  Legacy.handle t e st w = (Ok st', w') ->
  promise st <> None -> promise st' = promise st.
Proof.
  intros H Hp. destruct e; cbn [Legacy.handle] in H;
    unfold Legacy.onInterval, Legacy.onClose, Legacy.onError in H;
    handler_keeps H Hp.
Qed.

Lemma Index_handle_keeps t e st w st' w' :
  Index.handle t e st w = (Ok st', w') ->
  promise st <> None -> promise st' = promise st.
Proof.
  intros H Hp. destruct e; cbn [Index.handle] in H;
    unfold Index.onInterval, Index.onClose, Index.onError in H;
    handler_keeps H Hp.
Qed.

Lemma Pool_handle_keeps t e st w st' w' :
  Pool.handle t e st w = (Ok st', w') ->
  promise st <> None -> promise st' = promise st.
Proof.
  intros H Hp. destruct e; cbn [Pool.handle] in H;
    unfold Pool.onInterval, Pool.onClose, Pool.onError in H;
    handler_keeps H Hp.
Qed.

Lemma Webp_handle_keeps t e st w st' w' :
  Webp.handle t e st w = (Ok st', w') ->
  promise st <> None -> promise st' = promise st.
Proof.
  intros H Hp. destruct e; cbn [Webp.handle] in H;
    unfold Webp.onResolved, Webp.onInterval, Webp.onCatch in H;
    handler_keeps H Hp.
Qed.

End HandlersKeep.

(** ** The batch functions *)

Lemma readdirSync_Ok (dir : string) (files : list string) (w w' : world) :
  NodeFs.readdirSync dir w = (Ok files, w') ->
  files = NodeFs.entries dir (fs w)
  /\ w' = World (fs w) (console w) (bar w) (ops w ++ [SysReaddir dir]) (exit_code w)
  /\ exists sz, fs w !! dir = Some (Dir sz).
Proof.
  intros H. run_m in H.
  destruct (fs w !! dir) as [[c|sz]|] eqn:E; run_m in H; inversion H; subst; eauto.
Qed.

Lemma filter_length_0 {A} (f : A -> bool) (l : list A) :
  (length (List.filter f l) =? 0)%nat = true -> List.filter f l = [].
Proof. destruct (List.filter f l); [reflexivity | discriminate]. Qed.

Lemma pool_state_empty (n : nat) : pool_state n [] (Batch [] [] true).
Proof.
  split.
  - unfold bounded_by. cbn. repeat split; [lia | congruence].
  - unfold first_failure_barrier. cbn. split; auto.
Qed.

Lemma loop_state_empty : loop_state [] (Batch [] [] true).
Proof.
  unfold loop_state. cbn. repeat split; auto. discriminate.
Qed.

Section BatchFunctions.
Context {RT : Runtime}.

Lemma Pool_processGIFs_state (w w0 : world) (b0 : batch) :
  Pool.processGIFs w = (Ok b0, w0) ->
  pool_state 4 (map Pool.make_task (matching is_gif Pool.inputDir w)) b0.
Proof.
  intros H. unfold Pool.processGIFs in H. inv_m H.
  apply readdirSync_Ok in Hm. destruct Hm as (-> & _ & _).
  unfold matching.
  destruct (length (List.filter is_gif (NodeFs.entries Pool.inputDir (fs w))) =? 0)%nat eqn:E.
  - apply filter_length_0 in E. rewrite E. inv_m H. apply pool_state_empty.
  - inv_m H. eapply pool_state_submit; eauto.
Qed.

Lemma Webp_processImages_state (w w0 : world) (b0 : batch) :
  Webp.processImages w = (Ok b0, w0) ->
  pool_state 4 (map Webp.make_task (matching is_raster Webp.inputDir w)) b0.
Proof.
  intros H. unfold Webp.processImages in H. inv_m H.
  apply readdirSync_Ok in Hm. destruct Hm as (-> & _ & _).
  unfold matching.
  destruct (length (List.filter is_raster (NodeFs.entries Webp.inputDir (fs w))) =? 0)%nat eqn:E.
  - apply filter_length_0 in E. rewrite E. inv_m H. apply pool_state_empty.
  - inv_m H. eapply pool_state_submit; eauto.
Qed.

Lemma Index_processGIFs_state (w w0 : world) (b0 : batch) :
  Index.processGIFs w = (Ok b0, w0) ->
  loop_state (map Index.make_task (matching is_gif Index.inputDir w)) b0.
Proof.
  intros H. unfold Index.processGIFs in H. inv_m H.
  apply readdirSync_Ok in Hm. destruct Hm as (-> & _ & _).
  unfold matching.
  destruct (length (List.filter is_gif (NodeFs.entries Index.inputDir (fs w))) =? 0)%nat eqn:E.
  - apply filter_length_0 in E. rewrite E. inv_m H. apply loop_state_empty.
  - inv_m H. apply for_await_spec in H; [exact H | constructor].
Qed.

Lemma Legacy_processGIFs_state (w w0 : world) (b0 : batch) :
  Legacy.processGIFs w = (Ok b0, w0) ->
  loop_state (map Legacy.make_task (matching is_gif Legacy.inputDir w)) b0.
Proof.
  intros H. unfold Legacy.processGIFs in H. inv_m H.
  apply readdirSync_Ok in Hm. destruct Hm as (-> & _ & _).
  unfold matching.
  destruct (length (List.filter is_gif (NodeFs.entries Legacy.inputDir (fs w))) =? 0)%nat eqn:E.
  - apply filter_length_0 in E. rewrite E. inv_m H. apply loop_state_empty.
  - inv_m H. apply for_await_spec in H; [exact H | constructor].
Qed.

(** C3. With the pool of size 4 of the pooled optimizer and of the raster
    converter, and with the sequential loop of the other two scripts (pool
    size 1), whatever events arrive: at most that many tasks are in
    progress, the started tasks followed by the queued ones are the
    submitted ones in submission order, and a task stays queued only while
    every slot is taken. *)
Theorem concurrency_bound (evs : list (nat * event)) (w w0 : world) (b0 : batch) :
  (Pool.processGIFs w = (Ok b0, w0) ->
   bounded_by 4 (map Pool.make_task (matching is_gif Pool.inputDir w))
     (fst (run_events Pool.step evs b0 w0)))
  /\ (Webp.processImages w = (Ok b0, w0) ->
      bounded_by 4 (map Webp.make_task (matching is_raster Webp.inputDir w))
        (fst (run_events Webp.step evs b0 w0)))
  /\ (Index.processGIFs w = (Ok b0, w0) ->
      bounded_by 1 (map Index.make_task (matching is_gif Index.inputDir w))
        (fst (run_events Index.step evs b0 w0)))
  /\ (Legacy.processGIFs w = (Ok b0, w0) ->
      bounded_by 1 (map Legacy.make_task (matching is_gif Legacy.inputDir w))
        (fst (run_events Legacy.step evs b0 w0))).
Proof.
  split; [|split; [|split]].
  - intros H. apply Pool_processGIFs_state in H.
    exact (proj1 (pool_state_run _ _ Pool_handle_keeps _ _ _ _ evs b0 w0 H)).
  - intros H. apply Webp_processImages_state in H.
    exact (proj1 (pool_state_run _ _ Webp_handle_keeps _ _ _ _ evs b0 w0 H)).
  - intros H. apply Index_processGIFs_state in H.
    apply loop_state_bounded.
    exact (loop_state_run _ _ Index_handle_keeps _ evs b0 w0 H).
  - intros H. apply Legacy_processGIFs_state in H.
    apply loop_state_bounded.
    exact (loop_state_run _ _ Legacy_handle_keeps _ evs b0 w0 H).
Qed.


End BatchFunctions.

(** The pooled optimizer and index.js on two GIF files, after a tick and a
    successful close of the first task. *)
Lemma concurrency_bound_witness :
  let evs := [(0%nat, Tick (1 # 2)); (0%nat, Close 0)] in
  let p := Example.started (Pool.processGIFs (RT := Example.host)) Example.two_gifs in
  let s := Example.started (Index.processGIFs (RT := Example.host)) Example.two_gifs in
  bounded_by 4
    (map (Pool.make_task (RT := Example.host))
       (matching is_gif (Pool.inputDir (RT := Example.host)) Example.two_gifs))
    (fst (run_events (Pool.step (RT := Example.host)) evs (fst p) (snd p)))
  /\ bounded_by 1
       (map (Index.make_task (RT := Example.host))
          (matching is_gif (Index.inputDir (RT := Example.host)) Example.two_gifs))
       (fst (run_events (Index.step (RT := Example.host)) evs (fst s) (snd s))).
Proof.
  intros evs p s. split.
  - apply (proj1 (concurrency_bound (RT := Example.host) evs
                    Example.two_gifs (snd p) (fst p))).
    vm_compute. reflexivity.
  - apply (proj1 (proj2 (proj2 (concurrency_bound (RT := Example.host) evs
                                  Example.two_gifs (snd s) (fst s))))).
    vm_compute. reflexivity.
Defined.



(** ** Computations that cannot end the process *)

Lemma quiet_calm {A} (m : M A) : quiet m -> calm m.
Proof.
  intros Hq w r w' H. destruct (Hq w) as (a & w1 & E & Hx). congruence.
Qed.

Lemma quiet_ret {A} (a : A) : quiet (ret a).
Proof. intros w. now exists a, w. Qed.

Lemma quiet_bind {A B} (m : M A) (k : A -> M B) :
  quiet m -> (forall a, quiet (k a)) -> quiet (bind m k).
Proof.
  intros Hm Hk w. destruct (Hm w) as (a & w1 & E & Hx).
  destruct (Hk a w1) as (b & w2 & E2 & Hx2).
  exists b, w2. unfold bind. rewrite E. split; congruence.
Qed.

Lemma calm_bind {A B} (m : M A) (k : A -> M B) :
  calm m -> (forall a, calm (k a)) -> calm (bind m k).
Proof.
  intros Hm Hk w r w' H. unfold bind in H.
  destruct (m w) as [[a|e] w1] eqn:E.
  - rewrite (Hk a _ _ _ H). eapply Hm; eauto.
  - inversion H; subst. eapply Hm; eauto.
Qed.

Lemma calm_throw {A} (e : string) : calm (throw (A := A) e).
Proof. intros w r w' H. now inversion H. Qed.

Lemma quiet_try_catch {A} (m : M A) (h : string -> M A) :
  calm m -> (forall e, quiet (h e)) -> quiet (try_catch m h).
Proof.
  intros Hm Hh w. unfold try_catch.
  destruct (m w) as [[a|e] w1] eqn:E.
  - exists a, w1. split; [reflexivity | eapply Hm; eauto].
  - destruct (Hh e w1) as (a & w2 & E2 & Hx2).
    exists a, w2. split; [exact E2|]. rewrite Hx2. eapply Hm; eauto.
Qed.

Lemma quiet_sys (c : syscall) : quiet (sys c).
Proof. intros w. now eexists _, _. Qed.

Lemma quiet_console_log (line : string) : quiet (console_log line).
Proof. intros w. now eexists _, _. Qed.

Lemma quiet_console_error (line : string) : quiet (console_error line).
Proof. apply quiet_console_log. Qed.

Lemma quiet_get_fs : quiet get_fs.
Proof. intros w. now eexists _, _. Qed.

Lemma quiet_set_fs (m : gmap string node) : quiet (set_fs m).
Proof. intros w. now eexists _, _. Qed.

Lemma quiet_updateProgressBar name percent sizes :
  quiet (updateProgressBar name percent sizes).
Proof. intros w. now eexists _, _. Qed.

Lemma quiet_existsSync (p : string) : quiet (NodeFs.existsSync p).
Proof.
  unfold NodeFs.existsSync.
  repeat (apply quiet_bind; [|intros]);
    auto using quiet_sys, quiet_get_fs, quiet_ret.
Qed.

Lemma calm_statSync_size (p : string) : calm (NodeFs.statSync_size p).
Proof.
  unfold NodeFs.statSync_size.
  apply calm_bind; [apply quiet_calm, quiet_sys|]. intros _.
  apply calm_bind; [apply quiet_calm, quiet_get_fs|]. intros m.
  destruct (m !! p) as [[c|sz]|];
    auto using quiet_calm, quiet_ret, calm_throw.
Qed.

(** The size is read only after the file was seen, in the same callback. *)
Lemma quiet_size_or (p : string) (dflt : N) : quiet (size_or p dflt).
Proof.
  intros w. unfold size_or. run_m.
  destruct (fs w !! p) as [[c|sz]|] eqn:E; run_m with E; now eexists _, _.
Qed.

Lemma quiet_environment (t : task) (e : event) : quiet (environment t e).
Proof.
  destruct e; cbn [environment]; try apply quiet_ret.
  apply quiet_bind; [apply quiet_get_fs | intros; apply quiet_set_fs].
Qed.

Lemma quiet_ensureOutputDir (out : string) : quiet (ensureOutputDir out).
Proof.
  intros w. unfold ensureOutputDir. run_m.
  destruct (fs w !! out) as [[c|sz]|] eqn:E; run_m with E; now eexists _, _.
Qed.

Ltac quiet_steps :=
  repeat first
    [ apply quiet_ret | apply quiet_size_or | apply quiet_existsSync
    | apply quiet_updateProgressBar | apply quiet_console_error
    | apply quiet_console_log | apply quiet_sys | apply quiet_get_fs
    | apply quiet_set_fs | apply quiet_environment
    | apply quiet_bind; [|intros] ].

Lemma callback_quiet {A} (m : M A) (dflt : A) (w : world) :
  quiet m -> exit_code w = None ->
  exists a w', m w = (Ok a, w') /\ callback m dflt w = (a, w') /\ exit_code w' = None.
Proof.
  intros Hq Hw. destruct (Hq w) as (a & w' & E & Hx).
  exists a, w'. unfold callback. rewrite Hw, E. repeat split. congruence.
Qed.

Lemma run_events_quiet (step : nat -> event -> batch -> M batch)
    (evs : list (nat * event)) :
  (forall i e b, quiet (step i e b)) ->
  forall b w, exit_code w = None -> exit_code (snd (run_events step evs b w)) = None.
Proof.
  intros Hq. induction evs as [|[i e] evs IH]; intros b w Hw; [exact Hw|].
  cbn [run_events].
  destruct (callback_quiet (step i e b) b w (Hq i e b) Hw) as (b' & w' & _ & -> & Hw').
  now apply IH.
Qed.

Section QuietPool.
Variable start : task -> M tstate.
Variable handle : task -> event -> tstate -> M tstate.
Hypothesis quiet_start : forall t, quiet (start t).
Hypothesis quiet_handle : forall t e st, quiet (handle t e st).

Lemma quiet_fire (i : nat) (e : event) (js : list job) : quiet (fire handle i e js).
Proof.
  unfold fire. destruct (js !! i) as [j|]; [|apply quiet_ret].
  repeat (apply quiet_bind; [|intros]);
    auto using quiet_environment, quiet_ret.
Qed.

Lemma quiet_pLimit (n : nat) (q : list task) :
  forall js, quiet (pLimit start n q js).
Proof.
  induction q as [|t q IH]; intros js; cbn [pLimit]; [apply quiet_ret|].
  destruct (in_progress js <? n)%nat; [|apply quiet_ret].
  apply quiet_bind; [apply quiet_start | intros; apply IH].
Qed.

Lemma quiet_barrier (done_msg err_msg : string) (b : batch) :
  quiet (barrier done_msg err_msg b).
Proof.
  unfold barrier. destruct (returned b); [apply quiet_ret|].
  destruct (first_rejected (jobs b)).
  - apply quiet_bind; [apply quiet_console_error | intros; apply quiet_ret].
  - destruct (bool_decide (queue b = []) && forallb fulfilled (jobs b));
      [|apply quiet_ret].
    apply quiet_bind; [apply quiet_console_log | intros; apply quiet_ret].
Qed.

Lemma quiet_pool_step (done_msg err_msg : string) (n i : nat) (e : event) (b : batch) :
  quiet (pool_step start handle done_msg err_msg n i e b).
Proof.
  unfold pool_step.
  apply quiet_bind; [apply quiet_fire | intros js].
  apply quiet_bind; [apply quiet_pLimit | intros qjs].
  apply quiet_barrier.
Qed.

Lemma quiet_pool_submit (done_msg err_msg : string) (n : nat) (tasks : list task) :
  quiet (pool_submit start done_msg err_msg n tasks).
Proof.
  unfold pool_submit.
  apply quiet_bind; [apply quiet_pLimit | intros qjs]. apply quiet_barrier.
Qed.

End QuietPool.

(** ** The exit status of the raster converter *)

Lemma readdirSync_Dir (dir : string) (sz : N) (w : world) :
  fs w !! dir = Some (Dir sz) ->
  NodeFs.readdirSync dir w
  = (Ok (NodeFs.entries dir (fs w)),
     World (fs w) (console w) (bar w) (ops w ++ [SysReaddir dir]) (exit_code w)).
Proof. intros E. run_m with E. reflexivity. Qed.

Lemma ensureOutputDir_spec (out : string) (w : world) :
  exists w',
    ensureOutputDir out w = (Ok tt, w')
    /\ exit_code w' = exit_code w
    /\ console w' = console w
    /\ (forall p, p <> out -> fs w' !! p = fs w !! p)
    /\ (fs w' = fs w \/ (fs w !! out = None /\ fs w' = <[out := Dir 0]> (fs w)))
    /\ (ops w' = ops w ++ [SysExists out]
        \/ ops w' = ops w ++ [SysExists out; SysMkdir out])
    /\ bar w' = bar w.
Proof.
  unfold ensureOutputDir. run_m.
  destruct (fs w !! out) as [[c|sz]|] eqn:E; run_m with E;
    eexists; (split; [reflexivity|]); cbn [fs console ops exit_code bar];
    repeat split; auto.
  - intros p Hp. now rewrite lookup_insert_ne by congruence.
  - right. now rewrite <- app_assoc.
Qed.

Section WebpExit.
Context {RT : Runtime}.

Lemma Webp_dirs_differ : Webp.inputDir <> Webp.outputDir.
Proof.
  unfold Webp.inputDir, Webp.outputDir, NodePath.join. intros H.
  apply (inj (String.app dirname)) in H. discriminate H.
Qed.

Lemma quiet_Webp_onInterval t r st : quiet (Webp.onInterval t r st).
Proof.
  unfold Webp.onInterval. destruct (interval st); quiet_steps.
Qed.

Lemma quiet_Webp_onCatch t err st : quiet (Webp.onCatch t err st).
Proof.
  unfold Webp.onCatch.
  apply quiet_bind; [apply quiet_console_error | intros; apply quiet_ret].
Qed.

Lemma quiet_Webp_onResolved t st : quiet (Webp.onResolved t st).
Proof.
  unfold Webp.onResolved. apply quiet_try_catch; [|intros; apply quiet_Webp_onCatch].
  apply calm_bind; [apply calm_statSync_size | intros sz].
  apply quiet_calm. quiet_steps.
Qed.

Lemma quiet_Webp_handle t e st : quiet (Webp.handle t e st).
Proof.
  destruct e; cbn [Webp.handle];
    auto using quiet_ret, quiet_Webp_onInterval, quiet_Webp_onResolved,
      quiet_Webp_onCatch.
Qed.

Lemma quiet_convertToWebP t : quiet (Webp.convertToWebP t).
Proof.
  unfold Webp.convertToWebP. apply quiet_try_catch; [|intros; apply quiet_ret].
  apply calm_bind; [apply calm_statSync_size | intros sz].
  apply quiet_calm.
  apply quiet_bind; [apply quiet_sys | intros; apply quiet_ret].
Qed.

Lemma quiet_Webp_step i e b : quiet (Webp.step i e b).
Proof.
  apply quiet_pool_step; auto using quiet_convertToWebP, quiet_Webp_handle.
Qed.

Lemma Webp_processImages_Dir (sz : N) (w : world) :
  fs w !! Webp.inputDir = Some (Dir sz) ->
  exists b w', Webp.processImages w = (Ok b, w') /\ exit_code w' = exit_code w.
Proof.
  intros E. unfold Webp.processImages. unfold bind at 1.
  rewrite (readdirSync_Dir _ _ _ E).
  match goal with |- context [(if ?c then _ else _) ?w1] => destruct c end.
  - run_m. now eexists _, _.
  - match goal with |- exists b w', ?m ?w1 = _ /\ _ =>
      assert (Hq : quiet m)
    end.
    { apply quiet_bind; [apply quiet_console_log | intros _].
      apply quiet_pool_submit. apply quiet_convertToWebP. }
    match goal with |- exists b w', ?m ?w1 = _ /\ _ =>
      destruct (Hq w1) as (b & w' & Hb & Hx)
    end.
    exists b, w'. split; [exact Hb | exact Hx].
Qed.

Lemma Webp_top_Dir (sz : N) (w : world) :
  fs w !! Webp.inputDir = Some (Dir sz) ->
  exists b w', Webp.top w = (Ok (Some b), w') /\ exit_code w' = exit_code w.
Proof.
  intros E. unfold Webp.top. unfold bind at 1.
  assert (Hex : NodeFs.existsSync Webp.inputDir w
                = (Ok true, World (fs w) (console w) (bar w)
                              (ops w ++ [SysExists Webp.inputDir]) (exit_code w))).
  { run_m with E. reflexivity. }
  rewrite Hex. unfold bind at 1.
  match goal with |- context [ensureOutputDir ?o ?w1] =>
    destruct (ensureOutputDir_spec o w1) as (w2 & -> & Hx2 & _ & Hfs & _)
  end.
  cbn [fs exit_code] in *.
  destruct (Webp_processImages_Dir sz w2) as (b & w3 & Hb & Hx3).
  { rewrite Hfs by apply Webp_dirs_differ. exact E. }
  exists b, w3. unfold bind, ret. rewrite Hb. split; congruence.
Qed.

Lemma Webp_top_missing (w : world) :
  fs w !! Webp.inputDir = None ->
  exists w', Webp.top w = (Ok None, w') /\ exit_code w' = Some 1
             /\ fs w' = fs w /\ ops w' = ops w ++ [SysExists Webp.inputDir].
Proof.
  intros E. unfold Webp.top. run_m with E. now eexists.
Qed.


End WebpExit.



(** ** Directories without a matching file *)

Lemma string_app_assoc (a b c : string) : (a +:+ b) +:+ c = a +:+ (b +:+ c).
Proof.
  induction a as [|x a IH]; [reflexivity|].
  change (String x ((a +:+ b) +:+ c) = String x (a +:+ (b +:+ c))).
  now rewrite IH.
Qed.

Lemma strip_prefix_app (a b c : string) :
  NodeString.strip_prefix (a +:+ b) (a +:+ c) = NodeString.strip_prefix b c.
Proof.
  induction a as [|x a IH]; [reflexivity|].
  change (NodeString.strip_prefix (String x (a +:+ b)) (String x (a +:+ c))
          = NodeString.strip_prefix b c).
  cbn [NodeString.strip_prefix]. now rewrite Ascii.eqb_refl.
Qed.

Lemma entry_of_sibling (d x y : string) :
  NodeString.strip_prefix ("/" +:+ x +:+ "/") ("/" +:+ y) = None ->
  NodeFs.entry_of (NodePath.join d x) (NodePath.join d y) = None.
Proof.
  intros H. unfold NodeFs.entry_of, NodePath.join.
  now rewrite !string_app_assoc, strip_prefix_app, H.
Qed.

Lemma filter_nil_Forall {A} (f : A -> bool) (l : list A) :
  List.filter f l = [] <-> Forall (fun x => f x = false) l.
Proof.
  induction l as [|x l IH]; cbn [List.filter].
  - split; [constructor | reflexivity].
  - destruct (f x) eqn:E.
    + split; [discriminate|]. intros H. inversion H; congruence.
    + rewrite IH. split; [now constructor | intros H; now inversion H].
Qed.

Lemma matching_insert (keep : string -> bool) (dir out : string) (v : node)
    (m : gmap string node) :
  m !! out = None -> NodeFs.entry_of dir out = None ->
  List.filter keep (NodeFs.entries dir m) = [] ->
  List.filter keep (NodeFs.entries dir (<[out := v]> m)) = [].
Proof.
  intros Hm He. rewrite !filter_nil_Forall. unfold NodeFs.entries.
  intros H. rewrite (map_to_list_insert m out v Hm).
  cbn [fmap list_fmap fst omap list_omap]. now rewrite He.
Qed.

Lemma run_events_empty (step : nat -> event -> batch -> M batch)
    (evs : list (nat * event)) (w : world) :
  (forall i e w, step i e (Batch [] [] true) w = (Ok (Batch [] [] true), w)) ->
  run_events step evs (Batch [] [] true) w = (Batch [] [] true, w).
Proof.
  intros Hs. induction evs as [|[i e] evs IH]; [reflexivity|].
  cbn [run_events]. unfold callback. rewrite Hs.
  destruct (exit_code w); exact IH.
Qed.

Section NoMatch.
Context {RT : Runtime}.

Lemma Index_processGIFs_none (w : world) (sz : N) :
  fs w !! Index.inputDir = Some (Dir sz) ->
  matching is_gif Index.inputDir w = [] ->
  Index.processGIFs w
  = (Ok (Batch [] [] true),
     World (fs w) (console w ++ [none_found_gif]) (bar w)
           (ops w ++ [SysReaddir Index.inputDir]) (exit_code w)).
Proof.
  intros E Hm. unfold Index.processGIFs, matching in *. unfold bind at 1.
  rewrite (readdirSync_Dir _ _ _ E), Hm. reflexivity.
Qed.

Lemma Webp_processImages_none (w : world) (sz : N) :
  fs w !! Webp.inputDir = Some (Dir sz) ->
  matching is_raster Webp.inputDir w = [] ->
  Webp.processImages w
  = (Ok (Batch [] [] true),
     World (fs w) (console w ++ [none_found_raster]) (bar w)
           (ops w ++ [SysReaddir Webp.inputDir]) (exit_code w)).
Proof.
  intros E Hm. unfold Webp.processImages, matching in *. unfold bind at 1.
  rewrite (readdirSync_Dir _ _ _ E), Hm. reflexivity.
Qed.

Lemma Index_dirs_differ : Index.inputDir <> Index.outputDir.
Proof.
  unfold Index.inputDir, Index.outputDir, NodePath.join. intros H.
  apply (inj (String.app dirname)) in H. discriminate H.
Qed.

Lemma Webp_step_empty i e w :
  Webp.step i e (Batch [] [] true) w = (Ok (Batch [] [] true), w).
Proof. reflexivity. Qed.

Lemma Index_step_empty i e w :
  Index.step i e (Batch [] [] true) w = (Ok (Batch [] [] true), w).
Proof. reflexivity. Qed.

Lemma matching_after_ensure (keep : string -> bool) (dir out : string)
    (before after : gmap string node) :
  NodeFs.entry_of dir out = None ->
  only_ensured out before after ->
  List.filter keep (NodeFs.entries dir before) = [] ->
  List.filter keep (NodeFs.entries dir after) = [].
Proof.
  intros He [->|[Hn ->]] H; [exact H|]. now apply matching_insert.
Qed.

End NoMatch.

Section NoMatchScripts.
Context {RT : Runtime}.

Lemma Webp_main_none (evs : list (nat * event)) (w : world) (sz : N) :
  exit_code w = None ->
  fs w !! Webp.inputDir = Some (Dir sz) ->
  matching is_raster Webp.inputDir w = [] ->
  let r := Webp.main evs w in
  fst r = Some (Batch [] [] true)
  /\ console (snd r) = console w ++ [none_found_raster]
  /\ bar (snd r) = bar w
  /\ only_ensured Webp.outputDir (fs w) (fs (snd r)).
Proof.
  intros Hw E Hm r.
  cut (exists w', r = (Some (Batch [] [] true), w')
                  /\ console w' = console w ++ [none_found_raster]
                  /\ bar w' = bar w
                  /\ only_ensured Webp.outputDir (fs w) (fs w')).
  { intros (w' & -> & H). exact (conj eq_refl H). }
  subst r. unfold Webp.main, callback. rewrite Hw.
  unfold Webp.top. unfold bind at 1.
  assert (Hex : NodeFs.existsSync Webp.inputDir w
                = (Ok true, World (fs w) (console w) (bar w)
                              (ops w ++ [SysExists Webp.inputDir]) (exit_code w))).
  { run_m with E. reflexivity. }
  rewrite Hex. unfold bind at 1.
  match goal with |- context [ensureOutputDir ?o ?w1] =>
    destruct (ensureOutputDir_spec o w1) as (w2 & -> & Hx2 & Hc2 & Hfs & Hens & _ & Hb2)
  end.
  cbn [fs exit_code console bar] in *.
  assert (E2 : fs w2 !! Webp.inputDir = Some (Dir sz)).
  { rewrite Hfs by apply Webp_dirs_differ. exact E. }
  assert (Hm2 : matching is_raster Webp.inputDir w2 = []).
  { unfold matching in *.
    apply (matching_after_ensure is_raster _ Webp.outputDir (fs w) (fs w2));
      [apply entry_of_sibling; reflexivity | exact Hens | exact Hm]. }
  unfold bind at 1. rewrite (Webp_processImages_none w2 sz E2 Hm2).
  unfold ret. rewrite (run_events_empty _ _ _ Webp_step_empty).
  eexists. split; [reflexivity|].
  cbn [console bar fs]. rewrite Hc2, Hb2.
  repeat split. exact Hens.
Qed.

Lemma Index_main_none (evs : list (nat * event)) (w : world) (sz : N) :
  exit_code w = None ->
  fs w !! Index.inputDir = Some (Dir sz) ->
  matching is_gif Index.inputDir w = [] ->
  let r := Index.main (Exited 0) evs w in
  fst r = Some (Batch [] [] true)
  /\ console (snd r) = console w ++ [none_found_gif]
  /\ bar (snd r) = bar w
  /\ only_ensured Index.outputDir (fs w) (fs (snd r)).
Proof.
  intros Hw E Hm r.
  cut (exists w', r = (Some (Batch [] [] true), w')
                  /\ console w' = console w ++ [none_found_gif]
                  /\ bar w' = bar w
                  /\ only_ensured Index.outputDir (fs w) (fs w')).
  { intros (w' & -> & H). exact (conj eq_refl H). }
  subst r. unfold Index.main, run_script, callback at 1. rewrite Hw.
  unfold Index.top. unfold bind at 1.
  destruct (ensureOutputDir_spec Index.outputDir w)
    as (w2 & -> & Hx2 & Hc2 & Hfs & Hens & _ & Hb2).
  assert (E2 : fs w2 !! Index.inputDir = Some (Dir sz)).
  { rewrite Hfs by apply Index_dirs_differ. exact E. }
  assert (Hm2 : matching is_gif Index.inputDir w2 = []).
  { unfold matching in *.
    apply (matching_after_ensure is_gif _ Index.outputDir (fs w) (fs w2));
      [apply entry_of_sibling; reflexivity | exact Hens | exact Hm]. }
  unfold sys. cbn [child_events run_check]. unfold callback.
  cbn [exit_code]. rewrite Hx2, Hw.
  unfold onCheckEvent. rewrite Z.eqb_refl. unfold bind at 1.
  match goal with |- context [Index.processGIFs ?w3] =>
    rewrite (Index_processGIFs_none w3 sz E2 Hm2)
  end.
  unfold ret. cbn [exit_code].
  rewrite (run_events_empty _ _ _ Index_step_empty).
  eexists. split; [reflexivity|].
  cbn [console bar fs]. rewrite Hc2, Hb2.
  repeat split. exact Hens.
Qed.

(** C6. With no entry of the input directory passing the filter, the batch
    function of index.js and that of the raster converter print that no file
    was found, return an empty batch without an error and leave the file
    system as it was, their only call being the listing of the directory;
    a whole run of either script then starts no task and changes nothing on
    the file system but for the output directory it ensures. *)
Theorem no_matching_files (evs : list (nat * event)) (w : world) (sz : N) :
  (fs w !! Index.inputDir = Some (Dir sz) ->
   matching is_gif Index.inputDir w = [] ->
   Index.processGIFs w
   = (Ok (Batch [] [] true),
      World (fs w) (console w ++ [none_found_gif]) (bar w)
            (ops w ++ [SysReaddir Index.inputDir]) (exit_code w))
   /\ (exit_code w = None ->
       let r := Index.main (Exited 0) evs w in
       fst r = Some (Batch [] [] true)
       /\ console (snd r) = console w ++ [none_found_gif]
       /\ bar (snd r) = bar w
       /\ only_ensured Index.outputDir (fs w) (fs (snd r))))
  /\ (fs w !! Webp.inputDir = Some (Dir sz) ->
      matching is_raster Webp.inputDir w = [] ->
      Webp.processImages w
      = (Ok (Batch [] [] true),
         World (fs w) (console w ++ [none_found_raster]) (bar w)
               (ops w ++ [SysReaddir Webp.inputDir]) (exit_code w))
      /\ (exit_code w = None ->
          let r := Webp.main evs w in
          fst r = Some (Batch [] [] true)
          /\ console (snd r) = console w ++ [none_found_raster]
          /\ bar (snd r) = bar w
          /\ only_ensured Webp.outputDir (fs w) (fs (snd r)))).
Proof.
  split; intros E Hm; split.
  - now apply (Index_processGIFs_none w sz).
  - intros Hw. now apply (Index_main_none evs w sz).
  - now apply (Webp_processImages_none w sz).
  - intros Hw. now apply (Webp_main_none evs w sz).
Qed.

End NoMatchScripts.

(** index.js on a directory holding only a PNG file, and the raster
    converter on a directory holding only a GIF file. *)
Lemma no_matching_files_witness :
  Index.processGIFs (RT := Example.host) Example.no_gifs
  = (Ok (Batch [] [] true),
     World (fs Example.no_gifs) [none_found_gif] []
           [SysReaddir (Index.inputDir (RT := Example.host))] None)
  /\ Webp.processImages (RT := Example.host) Example.no_rasters
     = (Ok (Batch [] [] true),
        World (fs Example.no_rasters) [none_found_raster] []
              [SysReaddir (Webp.inputDir (RT := Example.host))] None).
Proof.
  split.
  - apply (proj1 (no_matching_files (RT := Example.host) [] Example.no_gifs 0%N));
      reflexivity.
  - apply (proj2 (no_matching_files (RT := Example.host) [] Example.no_rasters 0%N));
      reflexivity.
Defined.

(** ** AvailabilityPrecheck *)

Lemma run_script_no_batch (top : M unit) (processGIFs : M batch)
    (not_installed : string) (step : nat -> event -> batch -> M batch)
    (check : spawn_result) (evs : list (nat * event)) (w w1 : world) :
  callback top tt w = (tt, w1) ->
  check <> Exited 0 ->
  run_script top processGIFs not_installed step check evs w
  = (None, after_check not_installed check w1).
Proof.
  intros Ht Hc. unfold run_script. rewrite Ht.
  destruct check as [errno|code]; cbn [child_events run_check after_check].
  - unfold callback at 1. destruct (exit_code w1) eqn:Hx.
    + unfold callback. now rewrite Hx.
    + cbn [onCheckEvent]. unfold console_error, console_log, bind, ret.
      unfold callback. cbn [exit_code]. rewrite Hx. reflexivity.
  - assert ((code =? 0) = false) as Hz by (apply Z.eqb_neq; congruence).
    unfold callback. destruct (exit_code w1); [reflexivity|].
    cbn [onCheckEvent]. rewrite Hz. reflexivity.
Qed.

Section Precheck.
Context {RT : Runtime}.

Lemma Index_top_spec (w : world) :
  exit_code w = None ->
  exists w1,
    callback Index.top tt w = (tt, w1)
    /\ exit_code w1 = None /\ console w1 = console w /\ bar w1 = bar w
    /\ only_ensured Index.outputDir (fs w) (fs w1)
    /\ exists new, ops w1 = ops w ++ new /\ Forall (fun c => batch_work c = false) new.
Proof.
  intros Hw. unfold callback, Index.top. rewrite Hw. unfold bind at 1.
  destruct (ensureOutputDir_spec Index.outputDir w)
    as (w2 & -> & Hx2 & Hc2 & _ & Hens & Hops & Hb2).
  unfold sys. eexists. split; [reflexivity|]. cbn [exit_code console bar fs ops].
  repeat split; try congruence; [exact Hens|].
  destruct Hops as [-> | ->]; rewrite <- app_assoc; eexists; (split; [reflexivity|]);
    repeat constructor.
Qed.

Lemma Pool_top_spec (w : world) :
  exit_code w = None ->
  exists w1,
    callback Pool.top tt w = (tt, w1)
    /\ bar w1 = bar w
    /\ only_ensured Pool.outputDir (fs w) (fs w1)
    /\ (exists new, ops w1 = ops w ++ new /\ Forall (fun c => batch_work c = false) new)
    /\ (is_Some (fs w !! Pool.inputDir) -> exit_code w1 = None /\ console w1 = console w)
    /\ (fs w !! Pool.inputDir = None -> exit_code w1 = Some 1).
Proof.
  intros Hw. unfold callback, Pool.top. rewrite Hw.
  destruct (fs w !! Pool.inputDir) as [n|] eqn:E.
  - unfold bind at 1.
    assert (Hex : NodeFs.existsSync Pool.inputDir w
                  = (Ok true, World (fs w) (console w) (bar w)
                                (ops w ++ [SysExists Pool.inputDir]) (exit_code w))).
    { run_m with E. reflexivity. }
    rewrite Hex. unfold bind at 1.
    match goal with |- context [ensureOutputDir ?o ?w1] =>
      destruct (ensureOutputDir_spec o w1) as (w2 & -> & Hx2 & Hc2 & _ & Hens & Hops & Hb2)
    end.
    cbn [fs exit_code console bar ops] in *.
    unfold sys. eexists. split; [reflexivity|]. cbn [exit_code console bar fs ops].
    split; [exact Hb2|]. split; [exact Hens|]. split; [|split].
    + destruct Hops as [-> | ->]; rewrite <- !app_assoc; eexists;
        (split; [reflexivity|]); repeat constructor.
    + intros _. split; congruence.
    + discriminate.
  - run_m with E. eexists. split; [reflexivity|]. cbn [exit_code console bar fs ops].
    split; [reflexivity|]. split; [now left|]. split; [|split].
    + eexists. split; [reflexivity|]. repeat constructor.
    + intros [? ?]. discriminate.
    + reflexivity.
Qed.

(** C7. When the version check of gifsicle cannot be launched, or exits
    with a code other than 0, index.js and the pooled optimizer start no
    batch: no directory is listed, no input file is read and no conversion
    is spawned, the file system keeps all but the output directory the
    script ensures, and a failed launch is reported by the error line. *)
Theorem precheck_gates_batch (check : spawn_result) (evs : list (nat * event))
    (w : world) :
  exit_code w = None ->
  check <> Exited 0 ->
  (let r := Index.main check evs w in
   fst r = None
   /\ (exists new, ops (snd r) = ops w ++ new
                   /\ Forall (fun c => batch_work c = false) new)
   /\ only_ensured Index.outputDir (fs w) (fs (snd r))
   /\ bar (snd r) = bar w
   /\ (forall errno, check = LaunchFailed errno ->
       console (snd r) = console w ++ [Index.not_installed]))
  /\ (let r := Pool.main check evs w in
      fst r = None
      /\ (exists new, ops (snd r) = ops w ++ new
                      /\ Forall (fun c => batch_work c = false) new)
      /\ only_ensured Pool.outputDir (fs w) (fs (snd r))
      /\ bar (snd r) = bar w
      /\ (forall errno, check = LaunchFailed errno ->
          is_Some (fs w !! Pool.inputDir) ->
          console (snd r) = console w ++ [Pool.not_installed])).
Proof.
  intros Hw Hc. split.
  - destruct (Index_top_spec w Hw) as (w1 & Ht & Hx & Hcon & Hbar & Hens & Hops).
    intros r. subst r. unfold Index.main.
    rewrite (run_script_no_batch _ _ _ _ _ _ _ _ Ht Hc). cbn [fst snd].
    unfold after_check. rewrite Hx.
    destruct check as [errno|code]; cbn [fs console bar ops];
      (split; [reflexivity|]); (split; [exact Hops|]); (split; [exact Hens|]);
      (split; [exact Hbar|]).
    + intros _ _. now rewrite Hcon.
    + discriminate.
  - destruct (Pool_top_spec w Hw) as (w1 & Ht & Hbar & Hens & Hops & Hin & Hmiss).
    intros r. subst r. unfold Pool.main.
    rewrite (run_script_no_batch _ _ _ _ _ _ _ _ Ht Hc). cbn [fst snd].
    unfold after_check.
    destruct check as [errno|code]; [destruct (exit_code w1) eqn:Hx|];
      cbn [fs console bar ops];
      (split; [reflexivity|]); (split; [exact Hops|]); (split; [exact Hens|]);
      (split; [exact Hbar|]).
    + intros _ _ Hsome. destruct (Hin Hsome). congruence.
    + intros _ _ Hsome. destruct (Hin Hsome) as [_ ->]. reflexivity.
    + discriminate.
Qed.

End Precheck.

(** index.js and the pooled optimizer on two GIF files when gifsicle is not
    on the search path (errno 2), with events that no task is there to
    receive. *)
Lemma precheck_gates_batch_witness :
  let ri := Index.main (RT := Example.host) (LaunchFailed 2) [(0%nat, Close 0)]
              Example.two_gifs in
  fst ri = None
  /\ console (snd ri) = [Index.not_installed]
  /\ fst (Pool.main (RT := Example.host) (Exited 1) [] Example.two_gifs) = None.
Proof.
  intros ri.
  destruct (precheck_gates_batch (RT := Example.host) (LaunchFailed 2)
              [(0%nat, Close 0)] Example.two_gifs eq_refl ltac:(discriminate))
    as [(H1 & _ & _ & _ & H2) _].
  destruct (precheck_gates_batch (RT := Example.host) (Exited 1)
              [] Example.two_gifs eq_refl ltac:(discriminate))
    as [_ (H3 & _)].
  split; [exact H1|]. split; [exact (H2 2%positive eq_refl) | exact H3].
Defined.

(** ** Destination paths *)

Lemma list_ascii_of_app (a b : string) :
  String.list_ascii_of_string (a +:+ b)
  = String.list_ascii_of_string a ++ String.list_ascii_of_string b.
Proof.
  induction a as [|x a IH]; [reflexivity|].
  change (x :: String.list_ascii_of_string (a +:+ b)
          = x :: (String.list_ascii_of_string a ++ String.list_ascii_of_string b)).
  now rewrite IH.
Qed.

Lemma list_ascii_inj (a b : string) :
  String.list_ascii_of_string a = String.list_ascii_of_string b -> a = b.
Proof.
  intros H. rewrite <- (String.string_of_list_ascii_of_string a),
    <- (String.string_of_list_ascii_of_string b). now rewrite H.
Qed.

Lemma string_app_inv_tail (a b x : string) : a +:+ x = b +:+ x -> a = b.
Proof.
  intros H. apply list_ascii_inj.
  apply (f_equal String.list_ascii_of_string) in H.
  rewrite !list_ascii_of_app in H. now apply app_inv_tail in H.
Qed.

Lemma string_app_empty_r (a : string) : a +:+ "" = a.
Proof.
  induction a as [|x a IH]; [reflexivity|].
  change (String x (a +:+ "") = String x a). now rewrite IH.
Qed.

Lemma join_inj (dir a b : string) : NodePath.join dir a = NodePath.join dir b -> a = b.
Proof.
  unfold NodePath.join. intros H.
  apply (inj (String.app dir)) in H. now apply (inj (String.app "/")) in H.
Qed.

Lemma strip_prefix_Some (p s r : string) :
  NodeString.strip_prefix p s = Some r -> s = p +:+ r.
Proof.
  revert s. induction p as [|a p IH]; intros s H.
  - cbn in H. now inversion H.
  - destruct s as [|b s]; cbn [NodeString.strip_prefix] in H; [discriminate|].
    destruct (Ascii.eqb_spec a b) as [->|]; [|discriminate].
    change (String b s = String b (p +:+ r)). now rewrite (IH s H).
Qed.

Lemma strip_suffix_Some (x s r : string) :
  NodeString.strip_suffix x s = Some r -> s = r +:+ x.
Proof.
  revert r. induction s as [|c s IH]; intros r H.
  - cbn [NodeString.strip_suffix] in H.
    destruct (String.eqb_spec x "") as [->|]; [now inversion H | discriminate].
  - cbn [NodeString.strip_suffix] in H.
    destruct (String.eqb_spec x (String c s)) as [->|].
    + now inversion H.
    + destruct (NodeString.strip_suffix x s) as [r'|]; [|discriminate].
      cbn in H. inversion H; subst.
      change (String c s = String c (r' +:+ x)). now rewrite (IH r' eq_refl).
Qed.

Lemma strip_suffix_app (x b : string) :
  is_Some (NodeString.strip_suffix x (b +:+ x)).
Proof.
  induction b as [|c b IH].
  - change ("" +:+ x) with x. destruct x; cbn [NodeString.strip_suffix];
      rewrite String.eqb_refl; eauto.
  - change (String c b +:+ x) with (String c (b +:+ x)).
    cbn [NodeString.strip_suffix].
    destruct (String.eqb x (String c (b +:+ x))); [eauto|].
    destruct IH as [r ->]. cbn. eauto.
Qed.

Lemma split_last_dot_Some (s b e : string) :
  NodePath.split_last_dot s = Some (b, e) -> s = b +:+ e.
Proof.
  revert b e. induction s as [|c s IH]; intros b e H; [discriminate|].
  cbn [NodePath.split_last_dot] in H.
  destruct (NodePath.split_last_dot s) as [[b' e']|].
  - inversion H; subst.
    change (String c s = String c (b' +:+ e)). now rewrite (IH b' e eq_refl).
  - destruct (Ascii.eqb c "."); [|discriminate]. now inversion H.
Qed.

(** A name is its stem followed by its extension. *)
Lemma basename_extname (f : string) :
  NodePath.basename f (NodePath.extname f) +:+ NodePath.extname f = f.
Proof.
  unfold NodePath.basename.
  destruct (String.eqb_spec (NodePath.extname f) "") as [->|Hne].
  { apply string_app_empty_r. }
  destruct (String.eqb_spec (NodePath.extname f) f) as [E|Hnf].
  { exact E. }
  destruct (NodeString.strip_suffix (NodePath.extname f) f) as [stem|] eqn:Hs.
  { symmetry. now apply strip_suffix_Some. }
  exfalso. unfold NodePath.extname in *.
  destruct (NodePath.split_last_dot f) as [[b e]|] eqn:Hd; [|congruence].
  destruct (String.eqb b "" || String.eqb f ".."); [congruence|].
  apply split_last_dot_Some in Hd. subst f.
  destruct (strip_suffix_app e b) as [r Hr]. congruence.
Qed.

Lemma entry_of_Some (dir path r : string) :
  NodeFs.entry_of dir path = Some r -> path = NodePath.join dir r.
Proof.
  unfold NodeFs.entry_of, NodePath.join. intros H.
  destruct (NodeString.strip_prefix (dir +:+ "/") path) as [r'|] eqn:E; [|discriminate].
  destruct (String.eqb r' "" || NodeString.has_char "/" r'); [discriminate|].
  inversion H; subst. apply strip_prefix_Some in E.
  now rewrite E, string_app_assoc.
Qed.

Lemma NoDup_omap_inj {A B} (f : A -> option B) (l : list A) :
  (forall x y z, f x = Some z -> f y = Some z -> x = y) ->
  NoDup l -> NoDup (omap f l).
Proof.
  intros Hinj. induction 1 as [|x l Hx Hl IH]; cbn [omap list_omap]; [constructor|].
  destruct (f x) as [z|] eqn:E; [|exact IH].
  constructor; [|exact IH].
  intros Hz. apply list_elem_of_omap in Hz. destruct Hz as (y & Hy & Ey).
  now rewrite (Hinj x y z E Ey) in Hx.
Qed.

Lemma elem_of_List_filter {A} (f : A -> bool) (l : list A) (x : A) :
  x ∈ List.filter f l -> x ∈ l.
Proof.
  rewrite !list_elem_of_In. intros H. now apply List.filter_In in H.
Qed.

Lemma NoDup_List_filter {A} (f : A -> bool) (l : list A) :
  NoDup l -> NoDup (List.filter f l).
Proof.
  induction 1 as [|x l Hx Hl IH]; cbn [List.filter]; [constructor|].
  destruct (f x); [|exact IH].
  constructor; [|exact IH]. intros H. now apply elem_of_List_filter in H.
Qed.

Lemma NoDup_map_inj {A B} (f : A -> B) (l : list A) :
  (forall x y, f x = f y -> x = y) -> NoDup l -> NoDup (map f l).
Proof.
  intros Hinj. induction 1 as [|x l Hx Hl IH]; cbn [map]; [constructor|].
  constructor; [|exact IH].
  rewrite list_elem_of_In, List.in_map_iff. intros (y & Ey & Hy).
  apply Hinj in Ey. subst y. now rewrite <- list_elem_of_In in Hy.
Qed.

Lemma NoDup_entries (dir : string) (m : gmap string node) :
  NoDup (NodeFs.entries dir m).
Proof.
  unfold NodeFs.entries. apply NoDup_omap_inj; [|apply NoDup_fst_map_to_list].
  intros x y z Hx Hy. apply entry_of_Some in Hx, Hy. congruence.
Qed.

Section Destinations.
Context {RT : Runtime}.

(** C9, as amended. On the optimizer path the destination is the output
    directory joined with the name of the source, so the tasks of one batch
    have pairwise distinct destinations.  On the raster path the destination
    is the output directory joined with the stem of the name and ".webp":
    two tasks have the same destination exactly when their names have the
    same stem, that is, when they differ in the extension only. *)
Theorem destination_paths (w : world) :
  NoDup (map outputPath (map Pool.make_task (matching is_gif Pool.inputDir w)))
  /\ NoDup (map outputPath (map Index.make_task (matching is_gif Index.inputDir w)))
  /\ NoDup (matching is_raster Webp.inputDir w)
  /\ (forall f1 f2,
        outputPath (Webp.make_task f1) = outputPath (Webp.make_task f2)
        <-> NodePath.basename f1 (NodePath.extname f1)
            = NodePath.basename f2 (NodePath.extname f2))
  /\ (forall f, NodePath.basename f (NodePath.extname f) +:+ NodePath.extname f = f).
Proof.
  split; [|split; [|split; [|split]]].
  - rewrite List.map_map. apply NoDup_map_inj.
    + intros x y H. cbn [Pool.make_task outputPath] in H. now apply join_inj in H.
    + apply NoDup_List_filter, NoDup_entries.
  - rewrite List.map_map. apply NoDup_map_inj.
    + intros x y H. cbn [Index.make_task outputPath] in H. now apply join_inj in H.
    + apply NoDup_List_filter, NoDup_entries.
  - apply NoDup_List_filter, NoDup_entries.
  - intros f1 f2. cbn [Webp.make_task outputPath]. split.
    + intros H. apply join_inj in H. now apply string_app_inv_tail in H.
    + now intros ->.
  - apply basename_extname.
Qed.

End Destinations.

(** C9, the claim as stated, fails on the raster path: with a.jpg and
    a.png in the input directory the batch holds two distinct tasks and both
    have the destination webp-images/a.webp. *)
Lemma raster_destinations_collide :
  match fst (Example.webp_run []) with
  | Some b =>
      exists j1 j2,
        jobs b = [j1; j2]
        /\ inputPath (jtask j1) <> inputPath (jtask j2)
        /\ outputPath (jtask j1) = outputPath (jtask j2)
        /\ ~ NoDup (map outputPath (map jtask (jobs b)))
  | None => False
  end.
Proof.
  vm_compute. eexists _, _. split; [reflexivity|].
  split; [discriminate|]. split; [reflexivity|].
  intros H. apply NoDup_cons in H. destruct H as [H _].
  apply H. constructor.
Qed.

(** ** ProgressReporter *)

Lemma StronglySorted_snoc {A} (R : A -> A -> Prop) (l : list A) (x : A) :
  StronglySorted R l -> Forall (fun y => R y x) l -> StronglySorted R (l ++ [x]).
Proof.
  induction 1 as [|y l Hl IH Hy]; intros Hx; cbn [app].
  - repeat constructor.
  - inversion Hx; subst. constructor; [auto|].
    apply Forall_app. split; [exact Hy | now constructor].
Qed.

Lemma percents_ok_nil : percents_ok [].
Proof. split; constructor. Qed.

(** The report made at completion keeps the sequence in order. *)
Lemma percents_ok_final (ps : list Q) : percents_ok ps -> percents_ok (ps ++ [100%Q]).
Proof.
  intros [Hs Hb]. split.
  - apply StronglySorted_snoc; assumption.
  - apply Forall_app. split; [exact Hb|]. constructor; [apply Qle_refl | constructor].
Qed.

Section Progress.
Context {RT : Runtime} {RL : RoundingLaws RT}.

Lemma disarmed_ok (st : tstate) (ps : list Q) : interval st = false -> armed_ok st ps.
Proof. intros H C. congruence. Qed.

Lemma armed_ok_start (n : N) : armed_ok (TState n 0 true None) [].
Proof. intros _. split; [constructor | apply fl_zero]. Qed.

(** One firing of the interval: the counter grows, and the percent it
    reports is in order after the earlier ones. *)
Lemma tick_ok (r : Q) (st : tstate) (ps : list Q) :
  (0 <= r)%Q -> percents_ok ps -> armed_ok st ps -> interval st = true ->
  let p' := fl (progress st + fl (r * 10)) in
  percents_ok (ps ++ [Qmin p' 100])
  /\ armed_ok (set_progress p' st) (ps ++ [Qmin p' 100]).
Proof.
  intros Hr [Hs Hb] Ha Hi p'. destruct (Ha Hi) as [Hle Hfix].
  assert (Hd : (0 <= fl (r * 10))%Q).
  { rewrite <- fl_zero. apply fl_mono.
    apply Qmult_le_0_compat; [exact Hr | discriminate]. }
  assert (Hgrow : (progress st <= p')%Q).
  { unfold p'. rewrite <- Hfix at 1. apply fl_mono.
    rewrite <- (Qplus_0_r (progress st)) at 1.
    apply Qplus_le_r. exact Hd. }
  assert (Hall : Forall (fun p => (p <= Qmin p' 100)%Q) ps).
  { apply Forall_forall. intros p Hp.
    apply Q.min_glb.
    - eapply Qle_trans; [|exact Hgrow]. rewrite Forall_forall in Hle. auto.
    - rewrite Forall_forall in Hb. auto. }
  split; [split|].
  - apply StronglySorted_snoc; assumption.
  - apply Forall_app. split; [exact Hb|].
    constructor; [apply Q.le_min_r | constructor].
  - intros _. cbn [set_progress progress]. split.
    + apply Forall_app. split.
      * apply Forall_forall. intros p Hp. eapply Qle_trans; [|exact Hgrow].
        rewrite Forall_forall in Hle. auto.
      * constructor; [apply Q.le_min_l | constructor].
    + unfold p'. apply fl_idem.
Qed.

End Progress.

Lemma size_or_spec (p : string) (dflt : N) (w : world) :
  exists n w1,
    size_or p dflt w = (Ok n, w1)
    /\ bar w1 = bar w /\ fs w1 = fs w /\ console w1 = console w
    /\ exit_code w1 = exit_code w
    /\ (fs w !! p = None -> n = dflt).
Proof.
  unfold size_or. run_m.
  destruct (fs w !! p) as [[c|sz]|] eqn:E; run_m with E;
    eexists _, _; (split; [reflexivity|]); cbn [bar fs console exit_code];
    repeat split; auto; discriminate.
Qed.

Lemma environment_spec (t : task) (e : event) (w : world) :
  exists w1, environment t e w = (Ok tt, w1) /\ bar w1 = bar w
             /\ (forall c, e = Produced c -> fs w1 !! outputPath t = Some (File c)).
Proof.
  destruct e; cbn [environment]; run_m; eexists; (split; [reflexivity|]);
    (split; [reflexivity|]); intros c0 Hc; inversion Hc; subst.
  cbn [fs]. apply lookup_insert_eq.
Qed.

Lemma interval_settle_clear (s : settlement) (st : tstate) :
  interval (settle s (clearInterval st)) = false.
Proof. unfold settle. now destruct (promise (clearInterval st)). Qed.

Lemma task_events_app (handle : task -> event -> tstate -> M tstate) (t : task)
    (evs evs2 : list event) :
  forall st w,
  task_events handle t (evs ++ evs2) st w
  = bind (task_events handle t evs st) (task_events handle t evs2) w.
Proof.
  induction evs as [|e evs IH]; intros st w; [reflexivity|].
  cbn [app task_events]. unfold bind.
  destruct (environment t e w) as [[[]|msg] w1]; [|reflexivity].
  destruct (handle t e st w1) as [[st1|msg] w2]; [|reflexivity].
  rewrite IH. reflexivity.
Qed.

Section ProgressHandlers.
Context {RT : Runtime} {RL : RoundingLaws RT}.

Lemma step_named_none (name : string) (ps : list Q) (w : world) (st : tstate) :
  percents_ok ps -> armed_ok st ps -> step_named name ps w w (Ok st).
Proof.
  intros Hp Ha. exists []. cbn [map]. rewrite !app_nil_r.
  split; [reflexivity|]. split; [constructor|]. split; [exact Hp|].
  intros st' E. inversion E; subst. exact Ha.
Qed.

Lemma step_named_tick (ps : list Q) (w w' : world) (st : tstate) (r : Q)
    (name : string) (sizes : option (N * N)) :
  (0 <= r)%Q -> percents_ok ps -> armed_ok st ps -> interval st = true ->
  bar w' = bar w ++ [Report name (Qmin (fl (progress st + fl (r * 10))) 100) sizes] ->
  step_named name ps w w' (Ok (set_progress (fl (progress st + fl (r * 10))) st)).
Proof.
  intros Hr Hp Ha Hi Hbar. destruct (tick_ok r st ps Hr Hp Ha Hi) as [H1 H2].
  eexists. split; [exact Hbar|]. split; [now repeat constructor|].
  cbn [map r_percent].
  split; [exact H1|]. intros st' E. inversion E; subst. exact H2.
Qed.

Lemma step_named_final (ps : list Q) (w w' : world) (st : tstate)
    (name : string) (sizes : option (N * N)) :
  percents_ok ps -> interval st = false ->
  bar w' = bar w ++ [Report name 100 sizes] ->
  step_named name ps w w' (Ok st).
Proof.
  intros Hp Hi Hbar. eexists. split; [exact Hbar|].
  split; [now repeat constructor|]. cbn [map r_percent].
  split; [now apply percents_ok_final|].
  intros st' E. inversion E; subst. now apply disarmed_ok.
Qed.

Lemma step_named_disarmed (name : string) (ps : list Q) (w : world) (st : tstate) :
  percents_ok ps -> interval st = false -> step_named name ps w w (Ok st).
Proof. intros Hp Hi. apply step_named_none; [exact Hp | now apply disarmed_ok]. Qed.

Lemma Legacy_handle_named t e st w r w' ps :
  draw_ok e -> percents_ok ps -> armed_ok st ps ->
  Legacy.handle t e st w = (r, w') -> step_named (fileName t) ps w w' r.
Proof.
  intros He Hp Ha H. destruct e; cbn [Legacy.handle] in H;
    try (inversion H; subst; now apply step_named_none).
  - unfold Legacy.onInterval in H. destruct (interval st) eqn:Hi.
    + run_m in H. inversion H; subst. destruct He as [Hr _].
      now apply step_named_tick with (name := fileName t) (sizes := None) (r := r0).
    + inversion H; subst. now apply step_named_none.
  - unfold Legacy.onClose in H. destruct (code =? 0).
    + run_m in H. inversion H; subst.
      apply step_named_final with (name := fileName t) (sizes := None);
        [exact Hp | apply interval_settle_clear | reflexivity].
    + inversion H; subst. apply step_named_disarmed; [exact Hp|].
      apply interval_settle_clear.
  - inversion H; subst. apply step_named_disarmed; [exact Hp|].
    apply interval_settle_clear.
Qed.

Lemma Index_handle_named t e st w r w' ps :
  draw_ok e -> percents_ok ps -> armed_ok st ps ->
  Index.handle t e st w = (r, w') -> step_named (fileName t) ps w w' r.
Proof.
  intros He Hp Ha H. destruct e; cbn [Index.handle] in H;
    try (inversion H; subst; now apply step_named_none).
  - unfold Index.onInterval in H. destruct (interval st) eqn:Hi.
    + unfold bind at 1 in H.
      destruct (size_or_spec (outputPath t) (originalSize st) w)
        as (n & w1 & E & Hb & _). rewrite E in H.
      run_m in H. inversion H; subst. destruct He as [Hr _].
      eapply step_named_tick with (r := r0); eauto. cbn [bar]. now rewrite Hb.
    + inversion H; subst. now apply step_named_none.
  - unfold Index.onClose in H. unfold bind at 1 in H.
    destruct (size_or_spec (outputPath t) (originalSize (clearInterval st)) w)
      as (n & w1 & E & Hb & _). rewrite E in H.
    run_m in H. destruct (code =? 0); inversion H; subst;
      (eapply step_named_final; [exact Hp | apply interval_settle_clear |]);
      cbn [bar]; now rewrite Hb.
  - inversion H; subst. apply step_named_disarmed; [exact Hp|].
    apply interval_settle_clear.
Qed.

Lemma Webp_onCatch_named t err st w r w' ps :
  percents_ok ps -> Webp.onCatch t err st w = (r, w') ->
  step_named (fileName t) ps w w' r.
Proof.
  intros Hp H. unfold Webp.onCatch in H. run_m in H. inversion H; subst.
  exists []. cbn [map bar]. rewrite !app_nil_r.
  split; [reflexivity|]. split; [constructor|]. split; [exact Hp|].
  intros st' E. inversion E; subst. apply disarmed_ok, interval_settle_clear.
Qed.

Lemma Webp_handle_named t e st w r w' ps :
  draw_ok e -> percents_ok ps -> armed_ok st ps ->
  Webp.handle t e st w = (r, w') -> step_named (fileName t) ps w w' r.
Proof.
  intros He Hp Ha H. destruct e; cbn [Webp.handle] in H;
    try (inversion H; subst; now apply step_named_none).
  - unfold Webp.onInterval in H. destruct (interval st) eqn:Hi.
    + unfold bind at 1 in H.
      destruct (size_or_spec (outputPath t) (originalSize st) w)
        as (n & w1 & E & Hb & _). rewrite E in H.
      run_m in H. inversion H; subst. destruct He as [Hr _].
      eapply step_named_tick with (r := r0); eauto. cbn [bar]. now rewrite Hb.
    + inversion H; subst. now apply step_named_none.
  - unfold Webp.onResolved, try_catch in H.
    match type of H with context [match ?m with _ => _ end] =>
      destruct m as [[st1|err] w1] eqn:E
    end.
    + inversion H; subst. run_m in E.
      destruct (fs w !! outputPath t) as [[c|sz]|]; run_m in E; inversion E; subst;
        (eapply step_named_final; [exact Hp | apply interval_settle_clear | reflexivity]).
    + run_m in E.
      destruct (fs w !! outputPath t) as [[c|sz]|]; run_m in E; inversion E; subst.
      pose proof (Webp_onCatch_named _ _ _ _ _ _ ps Hp H) as (new & Hb & Hn).
      exists new. split; [exact Hb | exact Hn].
  - eapply Webp_onCatch_named; eauto.
Qed.

Lemma step_named_ok (name : string) (ps : list Q) (w w' : world) (r : result tstate) :
  step_named name ps w w' r -> step_ok ps w w' r.
Proof. intros (new & Hb & _ & H). exists new. now split. Qed.

Lemma Legacy_handle_reports t e st w r w' ps :
  draw_ok e -> percents_ok ps -> armed_ok st ps ->
  Legacy.handle t e st w = (r, w') -> step_ok ps w w' r.
Proof. intros. eapply step_named_ok, Legacy_handle_named; eauto. Qed.

Lemma Index_handle_reports t e st w r w' ps :
  draw_ok e -> percents_ok ps -> armed_ok st ps ->
  Index.handle t e st w = (r, w') -> step_ok ps w w' r.
Proof. intros. eapply step_named_ok, Index_handle_named; eauto. Qed.

Lemma Webp_handle_reports t e st w r w' ps :
  draw_ok e -> percents_ok ps -> armed_ok st ps ->
  Webp.handle t e st w = (r, w') -> step_ok ps w w' r.
Proof. intros. eapply step_named_ok, Webp_handle_named; eauto. Qed.

End ProgressHandlers.

Section ProgressRuns.
Context {RT : Runtime} {RL : RoundingLaws RT}.
Variable start : task -> M tstate.
Variable handle : task -> event -> tstate -> M tstate.

Hypothesis handle_reports : forall t e st w r w' ps,
  draw_ok e -> percents_ok ps -> armed_ok st ps ->
  handle t e st w = (r, w') -> step_ok ps w w' r.

Hypothesis start_reports : forall t w r w',
  start t w = (r, w') ->
  bar w' = bar w /\ forall st, r = Ok st -> armed_ok st [].

Lemma task_events_reports (t : task) (evs : list event) :
  forall st w r w' ps,
  Forall draw_ok evs -> percents_ok ps -> armed_ok st ps ->
  task_events handle t evs st w = (r, w') ->
  exists new, bar w' = bar w ++ new /\ percents_ok (ps ++ map r_percent new).
Proof.
  induction evs as [|e evs IH]; intros st w r w' ps Hd Hp Ha H.
  - inversion H; subst. exists []. cbn [map]. now rewrite !app_nil_r.
  - inversion Hd as [|e0 l0 He Hd']; subst.
    cbn [task_events] in H. unfold bind in H.
    destruct (environment_spec t e w) as (w1 & Ee & Hb1 & _). rewrite Ee in H.
    destruct (handle t e st w1) as [[st1|msg] w2] eqn:Eh.
    + destruct (handle_reports _ _ _ _ _ _ ps He Hp Ha Eh) as (new1 & Hb2 & Hp2 & Ha2).
      destruct (IH st1 w2 r w' _ Hd' Hp2 (Ha2 st1 eq_refl) H) as (new2 & Hb3 & Hp3).
      exists (new1 ++ new2). rewrite Hb3, Hb2, Hb1, map_app, !app_assoc.
      split; [reflexivity|]. now rewrite <- app_assoc in Hp3 |- *.
    + destruct (handle_reports _ _ _ _ _ _ ps He Hp Ha Eh) as (new1 & Hb2 & Hp2 & _).
      inversion H; subst. exists new1. rewrite Hb2, Hb1. now split.
Qed.

Lemma task_run_reports (t : task) (evs : list event) (w w' : world)
    (r : result tstate) :
  Forall draw_ok evs ->
  task_run start handle t evs w = (r, w') -> monotone_reports w w'.
Proof.
  intros Hd H. unfold task_run, bind in H.
  destruct (start t w) as [[st0|msg] w0] eqn:Es.
  - destruct (start_reports _ _ _ _ Es) as [Hb Ha].
    destruct (task_events_reports t evs st0 w0 r w' [] Hd percents_ok_nil
                (Ha st0 eq_refl) H) as (new & Hb2 & Hp).
    exists new. rewrite Hb2, Hb. now split.
  - destruct (start_reports _ _ _ _ Es) as [Hb _]. inversion H; subst.
    exists []. rewrite app_nil_r. split; [now rewrite Hb | apply percents_ok_nil].
Qed.

End ProgressRuns.

Section ProgressTheorem.
Context {RT : Runtime} {RL : RoundingLaws RT}.

Lemma Legacy_start_reports t w r w' :
  Legacy.optimizeGIF t w = (r, w') ->
  bar w' = bar w /\ forall st, r = Ok st -> armed_ok st [].
Proof.
  unfold Legacy.optimizeGIF. run_m. intros H. inversion H; subst.
  split; [reflexivity|]. intros st E. inversion E; subst. apply armed_ok_start.
Qed.

Lemma Index_start_reports t w r w' :
  Index.optimizeGIF t w = (r, w') ->
  bar w' = bar w /\ forall st, r = Ok st -> armed_ok st [].
Proof.
  unfold Index.optimizeGIF. run_m.
  destruct (fs w !! inputPath t) as [[c|sz]|]; run_m; intros H; inversion H; subst;
    (split; [reflexivity|]); intros st E; inversion E; subst;
    first [apply armed_ok_start | now apply disarmed_ok].
Qed.

Lemma Webp_start_reports t w r w' :
  Webp.convertToWebP t w = (r, w') ->
  bar w' = bar w /\ forall st, r = Ok st -> armed_ok st [].
Proof.
  unfold Webp.convertToWebP. run_m.
  destruct (fs w !! inputPath t) as [[c|sz]|]; run_m; intros H; inversion H; subst;
    (split; [reflexivity|]); intros st E; inversion E; subst;
    first [apply armed_ok_start | now apply disarmed_ok].
Qed.

Lemma last_percent_snoc (l : list report) (name : string) (p : Q)
    (sizes : option (N * N)) :
  last (map r_percent (l ++ [Report name p sizes])) = Some p.
Proof. rewrite map_app. cbn [map r_percent]. apply last_snoc. Qed.

Lemma task_run_suffix (start : task -> M tstate)
    (handle : task -> event -> tstate -> M tstate) t evs evs2 w st' w' :
  task_run start handle t (evs ++ evs2) w = (Ok st', w') ->
  exists st1 w1, task_events handle t evs2 st1 w1 = (Ok st', w').
Proof.
  intros H. unfold task_run in H. apply bind_Ok in H.
  destruct H as (st0 & w0 & _ & H). rewrite task_events_app in H.
  apply bind_Ok in H. destruct H as (st1 & w1 & _ & H). eauto.
Qed.

Lemma task_events_one (handle : task -> event -> tstate -> M tstate)
    t e st w st' w' :
  task_events handle t [e] st w = (Ok st', w') ->
  exists w1, environment t e w = (Ok tt, w1) /\ handle t e st w1 = (Ok st', w').
Proof.
  intros H. cbn [task_events] in H. apply bind_Ok in H.
  destruct H as ([] & w1 & He & H). apply bind_Ok in H.
  destruct H as (st1 & w2 & Hh & H). apply ret_Ok in H. destruct H; subst. eauto.
Qed.

Lemma Index_onClose_last t code st w st' w' :
  Index.onClose t code st w = (Ok st', w') ->
  last (map r_percent (bar w')) = Some 100%Q.
Proof.
  intros H. unfold Index.onClose in H. unfold bind at 1 in H.
  destruct (size_or_spec (outputPath t) (originalSize (clearInterval st)) w)
    as (n & w1 & E & _). rewrite E in H.
  run_m in H. destruct (code =? 0); inversion H; subst; apply last_percent_snoc.
Qed.

Lemma Index_close_last (start : task -> M tstate) t evs code w st' w' :
  task_run start Index.handle t (evs ++ [Close code]) w = (Ok st', w') ->
  last (map r_percent (bar w')) = Some 100%Q.
Proof.
  intros H. apply task_run_suffix in H. destruct H as (st1 & w1 & H).
  apply task_events_one in H. destruct H as (w2 & _ & H).
  cbn [Index.handle] in H. now apply Index_onClose_last in H.
Qed.

Lemma Legacy_close_last (start : task -> M tstate) t evs w st' w' :
  task_run start Legacy.handle t (evs ++ [Close 0]) w = (Ok st', w') ->
  last (map r_percent (bar w')) = Some 100%Q.
Proof.
  intros H. apply task_run_suffix in H. destruct H as (st1 & w1 & H).
  apply task_events_one in H. destruct H as (w2 & _ & H).
  cbn [Legacy.handle] in H. unfold Legacy.onClose in H.
  cbn [Z.eqb] in H. run_m in H. inversion H; subst. apply last_percent_snoc.
Qed.

Lemma Webp_resolved_last (start : task -> M tstate) t evs c w st' w' :
  task_run start Webp.handle t (evs ++ [Produced c; Resolved]) w = (Ok st', w') ->
  last (map r_percent (bar w')) = Some 100%Q.
Proof.
  intros H. apply task_run_suffix in H. destruct H as (st1 & w1 & H).
  change [Produced c; Resolved] with ([Produced c] ++ [Resolved]) in H.
  rewrite task_events_app in H. apply bind_Ok in H.
  destruct H as (st2 & w2 & H1 & H2).
  apply task_events_one in H1. destruct H1 as (w3 & He & Hh).
  destruct (environment_spec t (Produced c) w1) as (w3' & Ee & _ & Hfs).
  rewrite Ee in He. inversion He; subst w3'.
  cbn [Webp.handle] in Hh. apply ret_Ok in Hh. destruct Hh; subst.
  apply task_events_one in H2. destruct H2 as (w4 & He2 & Hh2).
  cbn [environment] in He2. apply ret_Ok in He2. destruct He2 as [_ <-].
  specialize (Hfs c eq_refl).
  cbn [Webp.handle] in Hh2. unfold Webp.onResolved in Hh2.
  run_m in Hh2. rewrite Hfs in Hh2. run_m in Hh2.
  inversion Hh2; subst. apply last_percent_snoc.
Qed.

Lemma Index_tick_sizes t rd st w :
  interval st = true -> fs w !! outputPath t = None ->
  exists p, bar (snd (Index.onInterval t rd st w))
            = bar w ++ [Report (fileName t) p (Some (originalSize st, originalSize st))].
Proof.
  intros Hi E. unfold Index.onInterval. rewrite Hi. run_m with E. eauto.
Qed.

Lemma Webp_tick_sizes t rd st w :
  interval st = true -> fs w !! outputPath t = None ->
  exists p, bar (snd (Webp.onInterval t rd st w))
            = bar w ++ [Report (fileName t) p (Some (originalSize st, originalSize st))].
Proof.
  intros Hi E. unfold Webp.onInterval. rewrite Hi. run_m with E. eauto.
Qed.


End ProgressTheorem.

(** Exact arithmetic obeys the laws of rounding. *)
Lemma exact_rounding_laws : RoundingLaws Example.host.
Proof.
  split; cbn [fl Example.host]; intros; [assumption | reflexivity | reflexivity].
Qed.


(** ** The reports of the tasks of a batch *)

Lemma filter_name_all (name : string) (new : list report) :
  Forall (fun rep => r_name rep = name) new ->
  List.filter (fun rep => String.eqb (r_name rep) name) new = new.
Proof.
  induction 1 as [|rep new Hr _ IH]; [reflexivity|].
  cbn [List.filter]. rewrite Hr, String.eqb_refl. now rewrite IH.
Qed.

Lemma filter_name_none (name other : string) (new : list report) :
  other <> name ->
  Forall (fun rep => r_name rep = name) new ->
  List.filter (fun rep => String.eqb (r_name rep) other) new = [].
Proof.
  intros Hne. induction 1 as [|rep new Hr _ IH]; [reflexivity|].
  cbn [List.filter]. rewrite Hr.
  destruct (String.eqb_spec name other) as [E|_]; [congruence | exact IH].
Qed.

Lemma percents_of_same (name : string) (new : list report) (w w' : world) :
  bar w' = bar w ++ new -> Forall (fun rep => r_name rep = name) new ->
  percents_of name w' = percents_of name w ++ map r_percent new.
Proof.
  intros Hb Hn. unfold percents_of.
  now rewrite Hb, List.filter_app, map_app, (filter_name_all name new Hn).
Qed.

Lemma percents_of_other (name other : string) (new : list report) (w w' : world) :
  bar w' = bar w ++ new -> Forall (fun rep => r_name rep = name) new ->
  other <> name -> percents_of other w' = percents_of other w.
Proof.
  intros Hb Hn Hne. unfold percents_of.
  rewrite Hb, List.filter_app, map_app, (filter_name_none name other new Hne Hn).
  apply app_nil_r.
Qed.

Lemma percents_of_bar (name : string) (w w' : world) :
  bar w' = bar w -> percents_of name w' = percents_of name w.
Proof. unfold percents_of. now intros ->. Qed.

Lemma percents_of_unreported (name : string) (w : world) :
  Forall (fun rep => r_name rep <> name) (bar w) -> percents_of name w = [].
Proof.
  unfold percents_of. induction 1 as [|rep l Hr _ IH]; [reflexivity|].
  cbn [List.filter]. destruct (String.eqb_spec (r_name rep) name); [contradiction|].
  exact IH.
Qed.

Section BatchReports.
Context {RT : Runtime} {RL : RoundingLaws RT}.

Lemma job_ok_bar (w w' : world) (j : job) :
  bar w' = bar w -> job_ok w j -> job_ok w' j.
Proof. intros Hb. unfold job_ok. now rewrite (percents_of_bar _ _ _ Hb). Qed.

Lemma reports_inv_bar (q : list task) (js : list job) (w w' : world) :
  bar w' = bar w -> reports_inv q js w -> reports_inv q js w'.
Proof.
  intros Hb (Hn & Hj & Hr). split; [exact Hn|]. split.
  - eapply Forall_impl; [exact Hj|]. intros j. now apply job_ok_bar.
  - now rewrite Hb.
Qed.

(** Every task of the batch, started or not, has its percents in order. *)
Lemma reports_inv_all (q : list task) (js : list job) (w : world) (name : string) :
  reports_inv q js w -> percents_ok (percents_of name w).
Proof.
  intros (Hn & Hj & Hr).
  destruct (decide (name ∈ names js)) as [Hin|Hout].
  - unfold names in Hin. apply list_elem_of_fmap in Hin.
    destruct Hin as (j & -> & Hjin).
    rewrite Forall_forall in Hj. now destruct (Hj j Hjin).
  - rewrite percents_of_unreported; [apply percents_ok_nil|].
    eapply Forall_impl; [exact Hr|]. intros rep Hrep E. cbn beta in Hrep. now rewrite E in Hrep.
Qed.

Lemma reports_inv_nil (q : list task) (w : world) :
  NoDup (fileName <$> q) -> bar w = [] -> reports_inv q [] w.
Proof.
  intros Hn Hb. split; [exact Hn|]. split; [constructor|]. rewrite Hb. constructor.
Qed.

Variable start : task -> M tstate.
Variable handle : task -> event -> tstate -> M tstate.

Hypothesis handle_reports : forall t e st w r w' ps,
  draw_ok e -> percents_ok ps -> armed_ok st ps ->
  handle t e st w = (r, w') -> step_named (fileName t) ps w w' r.

Hypothesis start_reports : forall t w r w',
  start t w = (r, w') ->
  bar w' = bar w /\ forall st, r = Ok st -> armed_ok st [].

Lemma fire_reports (q : list task) (i : nat) (e : event) (js js' : list job)
    (w w' : world) :
  draw_ok e -> reports_inv q js w ->
  fire handle i e js w = (Ok js', w') ->
  reports_inv q js' w'.
Proof.
  intros He (Hn & Hj & Hr) H. unfold fire in H.
  destruct (js !! i) as [j|] eqn:Hi.
  - apply bind_Ok in H. destruct H as ([] & w1 & Henv & H).
    apply bind_Ok in H. destruct H as (st & w2 & Hh & H).
    apply ret_Ok in H. destruct H as [<- <-].
    destruct (environment_spec (jtask j) e w) as (w1' & Ee & Hb1 & _).
    rewrite Ee in Henv. inversion Henv; subst w1'.
    assert (Hji : job_ok w j) by (rewrite Forall_lookup in Hj; eauto).
    destruct Hji as [Hp Ha].
    rewrite <- (percents_of_bar _ _ _ Hb1) in Hp, Ha.
    destruct (handle_reports _ _ _ _ _ _ _ He Hp Ha Hh)
      as (new & Hb2 & Hnew & Hp2 & Ha2).
    rewrite Hb1 in Hb2.
    rewrite (percents_of_bar (fileName (jtask j)) w w1 Hb1) in Hp2, Ha2.
    assert (Hnames : names (<[i := Job (jtask j) st]> js) = names js).
    { unfold names. rewrite list_fmap_insert. cbn [jtask].
      apply list_insert_id. now rewrite list_lookup_fmap, Hi. }
    unfold reports_inv. rewrite Hnames. split; [exact Hn|]. split.
    + apply Forall_lookup. intros k jk Hk.
      destruct (decide (k = i)) as [->|Hne].
      * rewrite list_lookup_insert_eq in Hk by (eapply lookup_lt_Some; eauto).
        inversion Hk; subst jk. unfold job_ok. cbn [jtask jstate].
        rewrite (percents_of_same _ _ _ _ Hb2 Hnew).
        split; [exact Hp2 | now apply Ha2].
      * rewrite list_lookup_insert_ne in Hk by congruence.
        assert (Hjk : job_ok w jk) by (rewrite Forall_lookup in Hj; eauto).
        assert (Hdiff : fileName (jtask jk) <> fileName (jtask j)).
        { intros E. apply NoDup_app in Hn. destruct Hn as (Hn & _).
          apply Hne. eapply (NoDup_lookup (names js)); [exact Hn | |].
          - unfold names. rewrite list_lookup_fmap, Hk. reflexivity.
          - unfold names. rewrite list_lookup_fmap, Hi. cbn. now rewrite E. }
        unfold job_ok. now rewrite (percents_of_other _ _ _ _ _ Hb2 Hnew Hdiff).
    + rewrite Hb2. apply Forall_app. split; [exact Hr|].
      eapply Forall_impl; [exact Hnew|]. intros rep ->.
      unfold names. apply list_elem_of_fmap. exists j. split; [reflexivity|].
      eapply list_elem_of_lookup_2; eauto.
  - apply ret_Ok in H. destruct H as [<- <-]. now split.
Qed.

Lemma start_reports_inv (t : task) (q : list task) (js : list job) (st : tstate)
    (w w' : world) :
  reports_inv (t :: q) js w ->
  start t w = (Ok st, w') ->
  reports_inv q (js ++ [Job t st]) w'.
Proof.
  intros (Hn & Hj & Hr) H. destruct (start_reports _ _ _ _ H) as [Hb Ha].
  assert (Hfresh : fileName t ∉ names js).
  { apply NoDup_app in Hn. destruct Hn as (_ & Hn & _).
    intros Hin. apply (Hn _ Hin). cbn. left. }
  assert (Hnone : percents_of (fileName t) w = []).
  { apply percents_of_unreported. eapply Forall_impl; [exact Hr|].
    intros rep Hrep E. cbn beta in Hrep. now rewrite E in Hrep. }
  unfold reports_inv, names. rewrite fmap_app. cbn [fmap list_fmap jtask].
  split; [|split].
  - rewrite <- app_assoc. exact Hn.
  - apply Forall_app. split.
    + eapply Forall_impl; [exact Hj|]. intros j. now apply job_ok_bar.
    + constructor; [|constructor]. unfold job_ok. cbn [jtask jstate].
      rewrite (percents_of_bar _ _ _ Hb), Hnone.
      split; [apply percents_ok_nil | now apply Ha].
  - rewrite Hb. eapply Forall_impl; [exact Hr|]. intros rep Hrep.
    apply elem_of_app. now left.
Qed.

Lemma onRejection_spec (t : task) (st : settlement) (w : world) :
  exists w', onRejection t st w = (Ok tt, w') /\ bar w' = bar w.
Proof.
  unfold onRejection. destruct (is_rejected st); run_m; now eexists.
Qed.

Lemma for_await_reports (q : list task) :
  forall js w b w',
  reports_inv q js w ->
  for_await start q js w = (Ok b, w') ->
  reports_inv (queue b) (jobs b) w'.
Proof.
  induction q as [|t q IH]; intros js w b w' Hinv H; cbn [for_await] in H.
  - run_m in H. inversion H; subst. cbn [queue jobs].
    eapply reports_inv_bar; [|exact Hinv]. reflexivity.
  - apply bind_Ok in H. destruct H as (st & w1 & Hs & H).
    pose proof (start_reports_inv t q js st w w1 Hinv Hs) as Hinv1.
    destruct (promise st) as [s|].
    + apply bind_Ok in H. destruct H as ([] & w2 & Hrej & H).
      destruct (onRejection_spec t s w1) as (w2' & E & Hb).
      rewrite E in Hrej. inversion Hrej; subst w2'.
      eapply IH; [|exact H]. eapply reports_inv_bar; eauto.
    + apply ret_Ok in H. destruct H as [<- <-]. exact Hinv1.
Qed.

Lemma seq_step_reports (i : nat) (e : event) (b b' : batch) (w w' : world) :
  draw_ok e ->
  reports_inv (queue b) (jobs b) w ->
  seq_step start handle i e b w = (Ok b', w') ->
  reports_inv (queue b') (jobs b') w'.
Proof.
  intros He Hinv H. unfold seq_step in H.
  apply bind_Ok in H. destruct H as (js & w1 & Hf & H).
  pose proof (fire_reports _ _ _ _ _ _ _ He Hinv Hf) as Hinv1.
  destruct (returned b).
  - apply ret_Ok in H. destruct H as [<- <-]. exact Hinv1.
  - destruct (last js) as [j|].
    + destruct (promise (jstate j)) as [s|].
      * apply bind_Ok in H. destruct H as ([] & w2 & Hrej & H).
        destruct (onRejection_spec (jtask j) s w1) as (w2' & E & Hb).
        rewrite E in Hrej. inversion Hrej; subst w2'.
        eapply for_await_reports; [|exact H]. eapply reports_inv_bar; eauto.
      * apply ret_Ok in H. destruct H as [<- <-]. exact Hinv1.
    + apply ret_Ok in H. destruct H as [<- <-]. exact Hinv1.
Qed.

Lemma pLimit_reports (n : nat) (q : list task) :
  forall js w q' js' w',
  reports_inv q js w ->
  pLimit start n q js w = (Ok (q', js'), w') ->
  reports_inv q' js' w'.
Proof.
  induction q as [|t q IH]; intros js w q' js' w' Hinv H; cbn [pLimit] in H.
  - apply ret_Ok in H. destruct H as [H <-]. now inversion H; subst.
  - destruct (in_progress js <? n)%nat.
    + apply bind_Ok in H. destruct H as (st & w1 & Hs & H).
      eapply IH; [|exact H]. eapply start_reports_inv; eauto.
    + apply ret_Ok in H. destruct H as [H <-]. now inversion H; subst.
Qed.

Lemma barrier_bar (done_msg err_msg : string) (b b' : batch) (w w' : world) :
  barrier done_msg err_msg b w = (Ok b', w') -> bar w' = bar w.
Proof.
  unfold barrier. destruct (returned b); [intros H; now inversion H|].
  destruct (first_rejected (jobs b)).
  - run_m. intros H. now inversion H.
  - destruct (bool_decide (queue b = []) && forallb fulfilled (jobs b));
      run_m; intros H; now inversion H.
Qed.

Lemma pool_step_reports (done_msg err_msg : string) (n i : nat) (e : event)
    (b b' : batch) (w w' : world) :
  draw_ok e ->
  reports_inv (queue b) (jobs b) w ->
  pool_step start handle done_msg err_msg n i e b w = (Ok b', w') ->
  reports_inv (queue b') (jobs b') w'.
Proof.
  intros He Hinv H. unfold pool_step in H.
  apply bind_Ok in H. destruct H as (js & w1 & Hf & H).
  apply bind_Ok in H. destruct H as ([q' js2] & w2 & Hl & H).
  pose proof (fire_reports _ _ _ _ _ _ _ He Hinv Hf) as Hinv1.
  pose proof (pLimit_reports _ _ _ _ _ _ _ Hinv1 Hl) as Hinv2.
  pose proof (barrier_bar _ _ _ _ _ _ H) as Hb.
  apply barrier_spec in H. cbn [fst snd queue jobs] in H.
  destruct H as (-> & -> & _). eapply reports_inv_bar; eauto.
Qed.

Lemma pool_submit_reports (done_msg err_msg : string) (n : nat) (tasks : list task)
    (b : batch) (w w' : world) :
  reports_inv tasks [] w ->
  pool_submit start done_msg err_msg n tasks w = (Ok b, w') ->
  reports_inv (queue b) (jobs b) w'.
Proof.
  intros Hinv H. unfold pool_submit in H.
  apply bind_Ok in H. destruct H as ([q' js2] & w2 & Hl & H).
  pose proof (pLimit_reports _ _ _ _ _ _ _ Hinv Hl) as Hinv2.
  pose proof (barrier_bar _ _ _ _ _ _ H) as Hb.
  apply barrier_spec in H. cbn [fst snd queue jobs] in H.
  destruct H as (-> & -> & _). eapply reports_inv_bar; eauto.
Qed.

End BatchReports.

Lemma run_events_reports {RT : Runtime} (step : nat -> event -> batch -> M batch)
    (evs : list (nat * event)) :
  (forall i e b w b' w', draw_ok e -> reports_inv (queue b) (jobs b) w ->
     step i e b w = (Ok b', w') -> reports_inv (queue b') (jobs b') w') ->
  (forall i e b, quiet (step i e b)) ->
  Forall (fun ie => draw_ok (snd ie)) evs ->
  forall b w,
  reports_inv (queue b) (jobs b) w ->
  let r := run_events step evs b w in
  reports_inv (queue (fst r)) (jobs (fst r)) (snd r).
Proof.
  intros Hstep Hq. induction 1 as [|[i e] evs He _ IH]; intros b w Hinv; [exact Hinv|].
  cbn [run_events]. unfold callback. destruct (exit_code w).
  - now apply IH.
  - destruct (Hq i e b w) as (b' & w' & E & _). rewrite E.
    apply IH. eapply Hstep; eauto.
Qed.

(** *** The sequential loop cannot end the process *)

Section QuietLoop.
Variable start : task -> M tstate.
Variable handle : task -> event -> tstate -> M tstate.
Hypothesis quiet_start : forall t, quiet (start t).
Hypothesis quiet_handle : forall t e st, quiet (handle t e st).

Lemma quiet_onRejection (t : task) (s : settlement) : quiet (onRejection t s).
Proof. unfold onRejection. destruct (is_rejected s); quiet_steps. Qed.

Lemma quiet_for_await (q : list task) : forall js, quiet (for_await start q js).
Proof.
  induction q as [|t q IH]; intros js; cbn [for_await]; [quiet_steps|].
  apply quiet_bind; [apply quiet_start | intros st].
  destruct (promise st); [|apply quiet_ret].
  apply quiet_bind; [apply quiet_onRejection | intros; apply IH].
Qed.

Lemma quiet_seq_step (i : nat) (e : event) (b : batch) :
  quiet (seq_step start handle i e b).
Proof.
  unfold seq_step. apply quiet_bind; [now apply quiet_fire | intros js].
  destruct (returned b); [apply quiet_ret|].
  destruct (last js) as [j|]; [|apply quiet_ret].
  destruct (promise (jstate j)); [|apply quiet_ret].
  apply quiet_bind; [apply quiet_onRejection | intros; apply quiet_for_await].
Qed.

End QuietLoop.

(** *** The report made at completion *)

Lemma run_events_snoc (step : nat -> event -> batch -> M batch)
    (evs : list (nat * event)) (i : nat) (e : event) :
  forall b w,
  run_events step (evs ++ [(i, e)]) b w
  = callback (step i e (fst (run_events step evs b w)))
             (fst (run_events step evs b w)) (snd (run_events step evs b w)).
Proof.
  induction evs as [|[i0 e0] evs IH]; intros b w; cbn [app run_events fst snd].
  - now destruct (callback (step i e b) b w).
  - destruct (callback (step i0 e0 b) b w) as [b1 w1]. apply IH.
Qed.

Lemma last_percent_final (name : string) (sizes : option (N * N)) (w w' : world) :
  bar w' = bar w ++ [Report name 100 sizes] ->
  last (percents_of name w') = Some 100%Q.
Proof.
  intros Hb. rewrite (percents_of_same name [Report name 100 sizes] w w' Hb).
  - cbn [map r_percent]. apply last_snoc.
  - now repeat constructor.
Qed.

Section FinalReport.
Variable start : task -> M tstate.
Variable handle : task -> event -> tstate -> M tstate.

Hypothesis start_bar : forall t w r w', start t w = (r, w') -> bar w' = bar w.

Lemma for_await_bar (q : list task) :
  forall js w b w', for_await start q js w = (Ok b, w') -> bar w' = bar w.
Proof.
  induction q as [|t q IH]; intros js w b w' H; cbn [for_await] in H.
  - run_m in H. now inversion H.
  - apply bind_Ok in H. destruct H as (st & w1 & Hs & H).
    apply start_bar in Hs. destruct (promise st) as [s|].
    + apply bind_Ok in H. destruct H as ([] & w2 & Hrej & H).
      destruct (onRejection_spec t s w1) as (w2' & E & Hb).
      rewrite E in Hrej. inversion Hrej; subst w2'.
      apply IH in H. congruence.
    + apply ret_Ok in H. destruct H as [_ <-]. exact Hs.
Qed.

Lemma pLimit_bar (n : nat) (q : list task) :
  forall js w qjs w', pLimit start n q js w = (Ok qjs, w') -> bar w' = bar w.
Proof.
  induction q as [|t q IH]; intros js w qjs w' H; cbn [pLimit] in H.
  - apply ret_Ok in H. now destruct H as [_ <-].
  - destruct (in_progress js <? n)%nat.
    + apply bind_Ok in H. destruct H as (st & w1 & Hs & H).
      apply start_bar in Hs. apply IH in H. congruence.
    + apply ret_Ok in H. now destruct H as [_ <-].
Qed.

(** The event at which a task completes, what must hold of the world for
    the handler to go through, and the report the handler then makes. *)
Variable e : event.
Variable pre : task -> world -> Prop.

Hypothesis e_silent : forall t, environment t e = ret tt.

Hypothesis handle_final : forall t st w st' w',
  pre t w -> handle t e st w = (Ok st', w') ->
  exists sizes, bar w' = bar w ++ [Report (fileName t) 100 sizes].

Lemma fire_final (i : nat) (js js' : list job) (j : job) (w w' : world) :
  js !! i = Some j -> pre (jtask j) w ->
  fire handle i e js w = (Ok js', w') ->
  exists sizes, bar w' = bar w ++ [Report (fileName (jtask j)) 100 sizes].
Proof.
  intros Hi Hpre H. unfold fire in H. rewrite Hi, e_silent in H.
  apply bind_Ok in H. destruct H as ([] & w1 & He & H).
  apply ret_Ok in He. destruct He as [_ <-].
  apply bind_Ok in H. destruct H as (st & w2 & Hh & H).
  apply ret_Ok in H. destruct H as [_ <-]. eauto.
Qed.

Lemma seq_step_final (i : nat) (b b' : batch) (j : job) (w w' : world) :
  jobs b !! i = Some j -> pre (jtask j) w ->
  seq_step start handle i e b w = (Ok b', w') ->
  exists sizes, bar w' = bar w ++ [Report (fileName (jtask j)) 100 sizes].
Proof.
  intros Hi Hpre H. unfold seq_step in H.
  apply bind_Ok in H. destruct H as (js & w1 & Hf & H).
  destruct (fire_final _ _ _ _ _ _ Hi Hpre Hf) as (sizes & Hb).
  exists sizes. rewrite <- Hb. destruct (returned b).
  - apply ret_Ok in H. now destruct H as [_ <-].
  - destruct (last js) as [jl|].
    + destruct (promise (jstate jl)) as [s|].
      * apply bind_Ok in H. destruct H as ([] & w2 & Hrej & H).
        destruct (onRejection_spec (jtask jl) s w1) as (w2' & E & Hb2).
        rewrite E in Hrej. inversion Hrej; subst w2'.
        apply for_await_bar in H. congruence.
      * apply ret_Ok in H. now destruct H as [_ <-].
    + apply ret_Ok in H. now destruct H as [_ <-].
Qed.

Lemma pool_step_final (done_msg err_msg : string) (n i : nat) (b b' : batch)
    (j : job) (w w' : world) :
  jobs b !! i = Some j -> pre (jtask j) w ->
  pool_step start handle done_msg err_msg n i e b w = (Ok b', w') ->
  exists sizes, bar w' = bar w ++ [Report (fileName (jtask j)) 100 sizes].
Proof.
  intros Hi Hpre H. unfold pool_step in H.
  apply bind_Ok in H. destruct H as (js & w1 & Hf & H).
  apply bind_Ok in H. destruct H as (qjs & w2 & Hl & H).
  destruct (fire_final _ _ _ _ _ _ Hi Hpre Hf) as (sizes & Hb).
  exists sizes. rewrite <- Hb.
  apply pLimit_bar in Hl. apply barrier_bar in H. congruence.
Qed.

(** After the completion event of a started task, in a process that is
    alive, the last percent reported for the task is 100. *)
Lemma run_final (step : nat -> event -> batch -> M batch)
    (evs : list (nat * event)) (i : nat) (j : job) (b : batch) (w : world) :
  (forall b0 b' w0 w', jobs b0 !! i = Some j -> pre (jtask j) w0 ->
     step i e b0 w0 = (Ok b', w') ->
     exists sizes, bar w' = bar w0 ++ [Report (fileName (jtask j)) 100 sizes]) ->
  (forall b0, quiet (step i e b0)) ->
  let r := run_events step evs b w in
  exit_code (snd r) = None -> jobs (fst r) !! i = Some j -> pre (jtask j) (snd r) ->
  last (percents_of (fileName (jtask j))
          (snd (run_events step (evs ++ [(i, e)]) b w))) = Some 100%Q.
Proof.
  intros Hstep Hq r Hx Hi Hpre. rewrite run_events_snoc. fold r.
  unfold callback. rewrite Hx.
  destruct (Hq (fst r) (snd r)) as (b' & w' & E & _). rewrite E. cbn [snd].
  destruct (Hstep _ _ _ _ Hi Hpre E) as (sizes & Hb).
  eapply last_percent_final; eauto.
Qed.

End FinalReport.

(** *** The three scripts with a progress bar per task *)

Lemma names_of_tasks (mk : string -> task) (files : list string) :
  (forall f, fileName (mk f) = f) -> fileName <$> map mk files = files.
Proof.
  intros Hmk. induction files as [|f files IH]; [reflexivity|].
  cbn [map fmap list_fmap]. now rewrite Hmk, IH.
Qed.

Lemma NoDup_matching (keep : string -> bool) (dir : string) (w : world) :
  NoDup (matching keep dir w).
Proof. apply NoDup_List_filter, NoDup_entries. Qed.

Section ProgressScripts.
Context {RT : Runtime} {RL : RoundingLaws RT}.

Lemma quiet_Index_handle t e st : quiet (Index.handle t e st).
Proof.
  destruct e; cbn [Index.handle]; try apply quiet_ret.
  - unfold Index.onInterval. destruct (interval st); quiet_steps.
  - unfold Index.onClose. quiet_steps. destruct (code =? 0); apply quiet_ret.
Qed.

Lemma quiet_Index_optimizeGIF t : quiet (Index.optimizeGIF t).
Proof.
  unfold Index.optimizeGIF. apply quiet_try_catch; [|intros; apply quiet_ret].
  apply calm_bind; [apply calm_statSync_size | intros sz].
  apply quiet_calm. quiet_steps.
Qed.

Lemma quiet_Legacy_handle t e st : quiet (Legacy.handle t e st).
Proof.
  destruct e; cbn [Legacy.handle]; try apply quiet_ret.
  - unfold Legacy.onInterval. destruct (interval st); quiet_steps.
  - unfold Legacy.onClose. destruct (code =? 0); quiet_steps.
Qed.

Lemma quiet_Legacy_optimizeGIF t : quiet (Legacy.optimizeGIF t).
Proof. unfold Legacy.optimizeGIF. quiet_steps. Qed.

Lemma Index_onClose_final t code st w st' w' :
  Index.handle t (Close code) st w = (Ok st', w') ->
  exists sizes, bar w' = bar w ++ [Report (fileName t) 100 sizes].
Proof.
  intros H. cbn [Index.handle] in H. unfold Index.onClose in H.
  unfold bind at 1 in H.
  destruct (size_or_spec (outputPath t) (originalSize (clearInterval st)) w)
    as (n & w1 & E & Hb & _). rewrite E in H.
  run_m in H. destruct (code =? 0); inversion H; subst; cbn [bar];
    rewrite Hb; eauto.
Qed.

Lemma Legacy_onClose_final t st w st' w' :
  Legacy.handle t (Close 0) st w = (Ok st', w') ->
  exists sizes, bar w' = bar w ++ [Report (fileName t) 100 sizes].
Proof.
  intros H. cbn [Legacy.handle] in H. unfold Legacy.onClose in H.
  cbn [Z.eqb] in H. run_m in H. inversion H; subst. cbn [bar]. eauto.
Qed.

Lemma Webp_onResolved_final t st w st' w' :
  is_Some (fs w !! outputPath t) ->
  Webp.handle t Resolved st w = (Ok st', w') ->
  exists sizes, bar w' = bar w ++ [Report (fileName t) 100 sizes].
Proof.
  intros [nd Hnd] H. cbn [Webp.handle] in H. unfold Webp.onResolved in H.
  run_m in H. rewrite Hnd in H.
  destruct nd as [c|sz]; run_m in H; inversion H; subst; cbn [bar]; eauto.
Qed.

Lemma Index_processGIFs_reports (w w0 : world) (b0 : batch) :
  bar w = [] -> Index.processGIFs w = (Ok b0, w0) ->
  reports_inv (queue b0) (jobs b0) w0.
Proof.
  intros Hb H. unfold Index.processGIFs in H.
  apply bind_Ok in H. destruct H as (files & w1 & Hr & H).
  apply readdirSync_Ok in Hr. destruct Hr as (-> & -> & _).
  match type of H with context [if ?c then _ else _] => destruct c end.
  - run_m in H. inversion H; subst. apply reports_inv_nil; [constructor | exact Hb].
  - apply bind_Ok in H. destruct H as ([] & w2 & Hl & H).
    run_m in Hl. inversion Hl; subst w2.
    eapply (for_await_reports _ Index_start_reports); [|exact H].
    apply reports_inv_nil; [|exact Hb].
    rewrite names_of_tasks by reflexivity. apply NoDup_matching.
Qed.

Lemma Legacy_processGIFs_reports (w w0 : world) (b0 : batch) :
  bar w = [] -> Legacy.processGIFs w = (Ok b0, w0) ->
  reports_inv (queue b0) (jobs b0) w0.
Proof.
  intros Hb H. unfold Legacy.processGIFs in H.
  apply bind_Ok in H. destruct H as (files & w1 & Hr & H).
  apply readdirSync_Ok in Hr. destruct Hr as (-> & -> & _).
  match type of H with context [if ?c then _ else _] => destruct c end.
  - run_m in H. inversion H; subst. apply reports_inv_nil; [constructor | exact Hb].
  - apply bind_Ok in H. destruct H as ([] & w2 & Hl & H).
    run_m in Hl. inversion Hl; subst w2.
    eapply (for_await_reports _ Legacy_start_reports); [|exact H].
    apply reports_inv_nil; [|exact Hb].
    rewrite names_of_tasks by reflexivity. apply NoDup_matching.
Qed.

Lemma Webp_processImages_reports (w w0 : world) (b0 : batch) :
  bar w = [] -> Webp.processImages w = (Ok b0, w0) ->
  reports_inv (queue b0) (jobs b0) w0.
Proof.
  intros Hb H. unfold Webp.processImages in H.
  apply bind_Ok in H. destruct H as (files & w1 & Hr & H).
  apply readdirSync_Ok in Hr. destruct Hr as (-> & -> & _).
  match type of H with context [if ?c then _ else _] => destruct c end.
  - run_m in H. inversion H; subst. apply reports_inv_nil; [constructor | exact Hb].
  - apply bind_Ok in H. destruct H as ([] & w2 & Hl & H).
    run_m in Hl. inversion Hl; subst w2.
    eapply (pool_submit_reports _ Webp_start_reports); [|exact H].
    apply reports_inv_nil; [|exact Hb].
    rewrite names_of_tasks by reflexivity. apply NoDup_matching.
Qed.

(** In a batch of index.js, of the first optimizer and of the raster
    converter, started with an empty bar and with the draws of
    [Math.random()] in [0, 1), whatever the interleaving of the events of
    its tasks: for every task the percents passed to the progress reporter
    are nondecreasing and never above 100; in a process that is alive, the
    last percent reported for a started task is exactly 100 once its child
    closes (index.js), closes with code 0 (first optimizer), or its
    conversion is fulfilled with the destination on disk (raster
    converter). *)
Theorem batch_reports_in_order (evs : list (nat * event)) (w w0 : world) (b0 : batch) :
  Forall (fun ie => draw_ok (snd ie)) evs ->
  bar w = [] ->
  (Index.processGIFs w = (Ok b0, w0) ->
   let r := run_events Index.step evs b0 w0 in
   reports_in_order (snd r)
   /\ forall i j code,
        exit_code (snd r) = None -> jobs (fst r) !! i = Some j ->
        last (percents_of (fileName (jtask j))
                (snd (run_events Index.step (evs ++ [(i, Close code)]) b0 w0)))
        = Some 100%Q)
  /\ (Legacy.processGIFs w = (Ok b0, w0) ->
      let r := run_events Legacy.step evs b0 w0 in
      reports_in_order (snd r)
      /\ forall i j,
           exit_code (snd r) = None -> jobs (fst r) !! i = Some j ->
           last (percents_of (fileName (jtask j))
                   (snd (run_events Legacy.step (evs ++ [(i, Close 0)]) b0 w0)))
           = Some 100%Q)
  /\ (Webp.processImages w = (Ok b0, w0) ->
      let r := run_events Webp.step evs b0 w0 in
      reports_in_order (snd r)
      /\ forall i j,
           exit_code (snd r) = None -> jobs (fst r) !! i = Some j ->
           is_Some (fs (snd r) !! outputPath (jtask j)) ->
           last (percents_of (fileName (jtask j))
                   (snd (run_events Webp.step (evs ++ [(i, Resolved)]) b0 w0)))
           = Some 100%Q).
Proof.
  intros Hd Hb. split; [|split].
  - intros H r. apply (Index_processGIFs_reports _ _ _ Hb) in H. split.
    + intros name. eapply reports_inv_all.
      apply (run_events_reports Index.step evs); auto.
      * intros i e b w1 b' w'.
        apply (seq_step_reports _ _ Index_handle_named Index_start_reports).
      * intros i e b. apply quiet_seq_step;
          auto using quiet_Index_optimizeGIF, quiet_Index_handle.
    + intros i j code Hx Hi.
      apply (run_final (Close code) (fun _ _ => True) Index.step evs i j b0 w0);
        auto.
      * intros b1 b' w1 w' Hi1 _.
        apply (seq_step_final Index.optimizeGIF Index.handle
                 (fun t w r w' H => proj1 (Index_start_reports t w r w' H))
                 (Close code) (fun _ _ => True) (fun _ => eq_refl)); auto.
        intros t st w2 st' w2' _. apply Index_onClose_final.
      * intros b1. apply quiet_seq_step;
          auto using quiet_Index_optimizeGIF, quiet_Index_handle.
  - intros H r. apply (Legacy_processGIFs_reports _ _ _ Hb) in H. split.
    + intros name. eapply reports_inv_all.
      apply (run_events_reports Legacy.step evs); auto.
      * intros i e b w1 b' w'.
        apply (seq_step_reports _ _ Legacy_handle_named Legacy_start_reports).
      * intros i e b. apply quiet_seq_step;
          auto using quiet_Legacy_optimizeGIF, quiet_Legacy_handle.
    + intros i j Hx Hi.
      apply (run_final (Close 0) (fun _ _ => True) Legacy.step evs i j b0 w0);
        auto.
      * intros b1 b' w1 w' Hi1 _.
        apply (seq_step_final Legacy.optimizeGIF Legacy.handle
                 (fun t w r w' H => proj1 (Legacy_start_reports t w r w' H))
                 (Close 0) (fun _ _ => True) (fun _ => eq_refl)); auto.
        intros t st w2 st' w2' _. apply Legacy_onClose_final.
      * intros b1. apply quiet_seq_step;
          auto using quiet_Legacy_optimizeGIF, quiet_Legacy_handle.
  - intros H r. apply (Webp_processImages_reports _ _ _ Hb) in H. split.
    + intros name. eapply reports_inv_all.
      apply (run_events_reports Webp.step evs); auto.
      * intros i e b w1 b' w'.
        apply (pool_step_reports _ _ Webp_handle_named Webp_start_reports).
      * intros i e b. apply quiet_Webp_step.
    + intros i j Hx Hi Hfile.
      apply (run_final Resolved (fun t w => is_Some (fs w !! outputPath t))
               Webp.step evs i j b0 w0); auto.
      * intros b1 b' w1 w' Hi1 Hpre.
        apply (pool_step_final Webp.convertToWebP Webp.handle
                 (fun t w r w' H => proj1 (Webp_start_reports t w r w' H))
                 Resolved (fun t w => is_Some (fs w !! outputPath t))
                 (fun _ => eq_refl)); auto.
        intros t st w2 st' w2'. apply Webp_onResolved_final.
      * intros b1. apply quiet_Webp_step.
Qed.

End ProgressScripts.

(** index.js on [input/] with a.gif and b.gif: the two tasks tick in turn,
    and then the child of the first one closes with code 3. *)
Lemma batch_reports_in_order_witness :
  let p := Example.started (Index.processGIFs (RT := Example.host)) Example.two_gifs in
  let r := run_events (Index.step (RT := Example.host)) Example.batch_ticks (fst p) (snd p) in
  reports_in_order (snd r)
  /\ last (percents_of "a.gif"
             (snd (run_events (Index.step (RT := Example.host))
                     (Example.batch_ticks ++ [(0%nat, Close 3)]) (fst p) (snd p))))
     = Some 100%Q.
Proof.
  intros p r.
  assert (Hd : Forall (fun ie => draw_ok (snd ie)) Example.batch_ticks).
  { repeat constructor; vm_compute; discriminate. }
  destruct (proj1 (batch_reports_in_order (RT := Example.host) (RL := exact_rounding_laws)
                     Example.batch_ticks Example.two_gifs (snd p) (fst p) Hd eq_refl))
    as [Hord Hlast]; [vm_compute; reflexivity|].
  split; [exact Hord|].
  set (j := match jobs (fst r) !! 0%nat with
            | Some j => j
            | None => Job (Index.make_task (RT := Example.host) "a.gif")
                        (TState 0 0 false None)
            end).
  assert (Hx : exit_code (snd r) = None) by (vm_compute; reflexivity).
  assert (Hj : jobs (fst r) !! 0%nat = Some j) by (vm_compute; reflexivity).
  pose proof (Hlast 0%nat j 3 Hx Hj) as H.
  vm_compute in H |- *. exact H.
Defined.

(** * The renderer, the filters and the runs of a batch: further properties *)

(** ** The rendering of the progress bar *)

Lemma fl_proper {RT : Runtime} {RL : RoundingLaws RT} (x y : Q) :
  (x == y)%Q -> (fl x == fl y)%Q.
Proof.
  intros E. apply Qle_antisym; apply fl_mono; rewrite E; apply Qle_refl.
Qed.

Lemma round_half (n : Z) : Qfloor (inject_Z n + (1 # 2)) = n.
Proof.
  assert (H : (inject_Z n + (1 # 2) == inject_Z (2 * n + 1) / inject_Z 2)%Q).
  { rewrite !inject_Z_plus, inject_Z_mult. field. }
  rewrite (Qfloor_comp _ _ H), <- Zdiv_Qdiv.
  symmetry. apply (Z.div_unique _ _ _ 1); lia.
Qed.

Lemma round_range (x : Q) (n : Z) :
  (0 <= x)%Q -> (x <= inject_Z n)%Q -> 0 <= ProgressBar.round x <= n.
Proof.
  intros H0 Hn. unfold ProgressBar.round. split.
  - change 0 with (Qfloor 0). apply Qfloor_resp_le. lra.
  - rewrite <- (round_half n). apply Qfloor_resp_le. lra.
Qed.

Lemma string_length_app (s1 s2 : string) :
  String.length (s1 +:+ s2) = (String.length s1 + String.length s2)%nat.
Proof.
  induction s1 as [|c s1 IH]; [reflexivity|].
  change (S (String.length (s1 +:+ s2)) = S (String.length s1 + String.length s2)).
  now rewrite IH.
Qed.

Lemma len_app (s1 s2 : string) :
  ProgressBar.len (s1 +:+ s2) = ProgressBar.len s1 + ProgressBar.len s2.
Proof. unfold ProgressBar.len. rewrite string_length_app. lia. Qed.

Lemma len_replicate (c : ascii) (n : nat) :
  ProgressBar.len (ProgressBar.replicate_char c n) = Z.of_nat n.
Proof.
  unfold ProgressBar.len. f_equal.
  induction n as [|n IH]; [reflexivity|]. cbn. now rewrite IH.
Qed.

Section Rendering.
Context {RT : Runtime} {RL : RoundingLaws RT} {EI : ExactIntegers RT}.

Lemma fl_one : (fl 1 == 1)%Q.
Proof. apply (fl_int 1). cbn. lia. Qed.

Lemma fraction_range (p : Q) :
  (0 <= p)%Q -> (p <= 100)%Q -> (0 <= fl (p / 100))%Q /\ (fl (p / 100) <= 1)%Q.
Proof.
  intros H0 H1. split.
  - rewrite <- fl_zero. apply fl_mono.
    apply Qle_shift_div_l; [reflexivity | lra].
  - rewrite <- fl_one. apply fl_mono.
    apply Qle_shift_div_r; [reflexivity | lra].
Qed.

Lemma completedWidth_range (p : Q) (bw : Z) :
  (0 <= p)%Q -> (p <= 100)%Q -> 0 <= bw <= 2 ^ 53 ->
  0 <= ProgressBar.completedWidth p bw <= bw.
Proof.
  intros H0 H1 Hb. unfold ProgressBar.completedWidth.
  destruct (fraction_range p H0 H1) as [Hf0 Hf1].
  assert (Hbw : (0 <= inject_Z bw)%Q).
  { change 0%Q with (inject_Z 0). rewrite <- Zle_Qle. lia. }
  apply round_range.
  - rewrite <- fl_zero. apply fl_mono. now apply Qmult_le_0_compat.
  - apply Qle_trans with (fl (inject_Z bw)).
    + apply fl_mono. apply Qle_trans with (1 * inject_Z bw)%Q; [|lra].
      apply Qmult_le_compat_r; assumption.
    + apply Qle_lteq. right. apply fl_int. lia.
Qed.

End Rendering.

Section RenderingTheorems.
Context {RT : Runtime} {RL : RoundingLaws RT} {EI : ExactIntegers RT}.

Lemma repeat_Ok (c : ascii) (n : Z) :
  0 <= n ->
  ProgressBar.repeat c n = Ok (ProgressBar.replicate_char c (Z.to_nat n)).
Proof.
  intros Hn. unfold ProgressBar.repeat.
  destruct (Z.ltb_spec n 0); [lia | reflexivity].
Qed.

Lemma cells_Ok (p : Q) (bw : Z) :
  (0 <= p)%Q -> (p <= 100)%Q -> 0 <= bw <= 2 ^ 53 ->
  exists bar, ProgressBar.cells p bw = Ok bar /\ ProgressBar.len bar = bw + 2.
Proof.
  intros H0 H1 Hb. pose proof (completedWidth_range p bw H0 H1 Hb) as Hc.
  unfold ProgressBar.cells. rewrite !repeat_Ok by lia.
  eexists. split; [reflexivity|].
  rewrite !len_app, !len_replicate.
  change (ProgressBar.len "[") with 1. change (ProgressBar.len "]") with 1. lia.
Qed.

(** The bar of a report between 0 and 100: the counts handed to [repeat]
    are never negative, so no RangeError is thrown, and the bar has
    [barWidth] cells between its brackets. *)
Theorem progress_bar_cells (p : Q) (bw : Z) :
  (0 <= p)%Q -> (p <= 100)%Q -> 0 <= bw <= 2 ^ 53 ->
  0 <= ProgressBar.completedWidth p bw <= bw
  /\ ProgressBar.cells p bw
     = Ok ("[" +:+ ProgressBar.replicate_char "#"
                     (Z.to_nat (ProgressBar.completedWidth p bw))
               +:+ ProgressBar.replicate_char "-"
                     (Z.to_nat (bw - ProgressBar.completedWidth p bw))
               +:+ "]")
  /\ exists bar, ProgressBar.cells p bw = Ok bar /\ ProgressBar.len bar = bw + 2.
Proof.
  intros H0 H1 Hb. pose proof (completedWidth_range p bw H0 H1 Hb) as Hc.
  split; [exact Hc|]. split; [|now apply cells_Ok].
  unfold ProgressBar.cells. now rewrite !repeat_Ok by lia.
Qed.

Lemma barWidth_range (columns : option N) (taken buffer : Z) :
  Z.of_N (ProgressBar.getTerminalWidth columns) <= 2 ^ 53 ->
  0 <= taken -> 0 <= buffer ->
  10 <= ProgressBar.barWidth (ProgressBar.getTerminalWidth columns) taken buffer <= 2 ^ 53.
Proof. unfold ProgressBar.barWidth. lia. Qed.

Lemma len_nonneg (s : string) : 0 <= ProgressBar.len s.
Proof. unfold ProgressBar.len. lia. Qed.

(** A report between 0 and 100 is rendered without an exception on any
    terminal.  With sizes the line is 5 characters short of the terminal's
    width while that leaves the bar more than 10 cells, and 15 characters
    longer than its other parts otherwise; without sizes it is 1 short, or
    14 longer. *)
Theorem render_line_width (columns : option N) (r : report) :
  (0 <= r_percent r)%Q -> (r_percent r <= 100)%Q ->
  Z.of_N (ProgressBar.getTerminalWidth columns) <= 2 ^ 53 ->
  exists line,
    ProgressBar.render columns r = Ok line
    /\ ProgressBar.len line
       = match r_sizes r with
         | Some _ => Z.max (Z.of_N (ProgressBar.getTerminalWidth columns) - 5)
                           (ProgressBar.taken r + 15)
         | None => Z.max (Z.of_N (ProgressBar.getTerminalWidth columns) - 1)
                         (ProgressBar.taken r + 14)
         end.
Proof.
  intros H0 H1 Hw. unfold ProgressBar.render, ProgressBar.taken.
  destruct (r_sizes r) as [[o c]|].
  - set (tk := ProgressBar.len (r_name r +:+ ":")
               + ProgressBar.len (SizeFormatter.toFixed1 (r_percent r) +:+ "%")
               + ProgressBar.len (sizeInfo o c)).
    assert (Htk : 0 <= tk).
    { unfold tk. pose proof (len_nonneg (r_name r +:+ ":")).
      pose proof (len_nonneg (SizeFormatter.toFixed1 (r_percent r) +:+ "%")).
      pose proof (len_nonneg (sizeInfo o c)). lia. }
    pose proof (barWidth_range columns tk 10 Hw Htk ltac:(lia)) as Hb.
    set (bw := ProgressBar.barWidth (ProgressBar.getTerminalWidth columns) tk 10) in *.
    destruct (cells_Ok (r_percent r) bw H0 H1 ltac:(lia)) as (b & -> & Hlen).
    eexists. split; [reflexivity|].
    rewrite !len_app, Hlen. unfold bw, ProgressBar.barWidth, tk.
    rewrite !len_app. change (ProgressBar.len " ") with 1. lia.
  - set (tk := ProgressBar.len (r_name r +:+ ":")
               + ProgressBar.len (SizeFormatter.toFixed1 (r_percent r) +:+ "%")).
    assert (Htk : 0 <= tk).
    { unfold tk. pose proof (len_nonneg (r_name r +:+ ":")).
      pose proof (len_nonneg (SizeFormatter.toFixed1 (r_percent r) +:+ "%")). lia. }
    pose proof (barWidth_range columns tk 5 Hw Htk ltac:(lia)) as Hb.
    set (bw := ProgressBar.barWidth (ProgressBar.getTerminalWidth columns) tk 5) in *.
    destruct (cells_Ok (r_percent r) bw H0 H1 ltac:(lia)) as (b & -> & Hlen).
    eexists. split; [reflexivity|].
    rewrite !len_app, Hlen. unfold bw, ProgressBar.barWidth, tk.
    rewrite !len_app. change (ProgressBar.len " ") with 1. lia.
Qed.

Lemma render_some (columns : option N) (r : report) :
  (0 <= r_percent r)%Q -> (r_percent r <= 100)%Q ->
  Z.of_N (ProgressBar.getTerminalWidth columns) <= 2 ^ 53 ->
  exists line, ProgressBar.render columns r = Ok line.
Proof.
  intros H0 H1 Hw. unfold ProgressBar.render.
  destruct (r_sizes r) as [[o c]|].
  - match goal with |- context [ProgressBar.cells _ ?bw] =>
      destruct (cells_Ok (r_percent r) bw H0 H1) as (b & -> & _)
    end; [|now eexists].
    pose proof (len_nonneg (r_name r +:+ ":")).
    pose proof (len_nonneg (SizeFormatter.toFixed1 (r_percent r) +:+ "%")).
    pose proof (len_nonneg (sizeInfo o c)).
    unfold ProgressBar.barWidth. lia.
  - match goal with |- context [ProgressBar.cells _ ?bw] =>
      destruct (cells_Ok (r_percent r) bw H0 H1) as (b & -> & _)
    end; [|now eexists].
    pose proof (len_nonneg (r_name r +:+ ":")).
    pose proof (len_nonneg (SizeFormatter.toFixed1 (r_percent r) +:+ "%")).
    unfold ProgressBar.barWidth. lia.
Qed.

(** At 100 every cell of the bar is filled, at 0 none is. *)
Theorem bar_full_and_empty (bw : Z) :
  0 <= bw <= 2 ^ 53 ->
  ProgressBar.cells 100 bw
  = Ok ("[" +:+ ProgressBar.replicate_char "#" (Z.to_nat bw) +:+ "]")
  /\ ProgressBar.cells 0 bw
     = Ok ("[" +:+ ProgressBar.replicate_char "-" (Z.to_nat bw) +:+ "]").
Proof.
  intros Hb.
  assert (H100 : ProgressBar.completedWidth 100 bw = bw).
  { unfold ProgressBar.completedWidth, ProgressBar.round.
    rewrite <- (round_half bw) at 2. apply Qfloor_comp.
    apply Qplus_inj_r.
    apply Qeq_trans with (fl (inject_Z bw)); [|apply fl_int; lia].
    apply fl_proper.
    assert (E : (fl (100 / 100) == 1)%Q).
    { apply Qeq_trans with (fl 1); [apply fl_proper; reflexivity | apply fl_one]. }
    rewrite E. ring. }
  assert (H0 : ProgressBar.completedWidth 0 bw = 0).
  { unfold ProgressBar.completedWidth, ProgressBar.round.
    change 0 with (Qfloor (0 + (1 # 2))) at 2. apply Qfloor_comp.
    apply Qplus_inj_r.
    apply Qeq_trans with (fl 0); [|apply fl_zero].
    apply fl_proper.
    assert (E : (fl (0 / 100) == 0)%Q).
    { apply Qeq_trans with (fl 0); [apply fl_proper; reflexivity | apply fl_zero]. }
    rewrite E. ring. }
  unfold ProgressBar.cells. rewrite H100, H0, Z.sub_diag, Z.sub_0_r.
  rewrite !repeat_Ok by lia. split; reflexivity.
Qed.

End RenderingTheorems.

(** The filled part of the bar grows with the percent; no law of the
    integers is needed for that. *)
Theorem bar_grows_with_progress {RT : Runtime} {RL : RoundingLaws RT}
    (p q : Q) (bw : Z) :
  (p <= q)%Q -> 0 <= bw ->
  ProgressBar.completedWidth p bw <= ProgressBar.completedWidth q bw.
Proof.
  intros Hpq Hb. unfold ProgressBar.completedWidth, ProgressBar.round.
  apply Qfloor_resp_le. apply Qplus_le_l. apply fl_mono.
  apply Qmult_le_compat_r.
  - apply fl_mono. apply Qmult_le_compat_r; [exact Hpq | discriminate].
  - change 0%Q with (inject_Z 0). rewrite <- Zle_Qle. exact Hb.
Qed.

(** ** The two filters on directory entries *)

Lemma lower_ascii_dot (c : ascii) :
  Ascii.eqb (NodeString.lower_ascii c) "."%char = Ascii.eqb c "."%char.
Proof. destruct c as [[] [] [] [] [] [] [] []]; reflexivity. Qed.

Lemma has_char_lower (s : string) :
  NodeString.has_char "."%char (NodeString.toLowerCase s)
  = NodeString.has_char "."%char s.
Proof.
  induction s as [|c s IH]; [reflexivity|].
  cbn [NodeString.toLowerCase NodeString.has_char]. now rewrite lower_ascii_dot, IH.
Qed.

Lemma has_char_app (c : ascii) (a b : string) :
  NodeString.has_char c (a +:+ b)
  = NodeString.has_char c a || NodeString.has_char c b.
Proof.
  induction a as [|x a IH]; [reflexivity|].
  change (NodeString.has_char c (String x (a +:+ b))
          = NodeString.has_char c (String x a) || NodeString.has_char c b).
  cbn [NodeString.has_char]. rewrite IH. now rewrite orb_assoc.
Qed.

Lemma split_last_dot_none (s : string) :
  NodeString.has_char "."%char s = false -> NodePath.split_last_dot s = None.
Proof.
  induction s as [|c s IH]; [reflexivity|].
  cbn [NodeString.has_char NodePath.split_last_dot]. intros H.
  apply orb_false_iff in H. destruct H as [Hc Hs].
  now rewrite (IH Hs), Hc.
Qed.

Lemma split_last_dot_ext (s b e : string) :
  NodePath.split_last_dot s = Some (b, e) ->
  exists rest, e = String "."%char rest /\ NodeString.has_char "."%char rest = false.
Proof.
  revert b e. induction s as [|c s IH]; intros b e H; [discriminate|].
  cbn [NodePath.split_last_dot] in H.
  destruct (NodePath.split_last_dot s) as [[b1 e1]|] eqn:E.
  - inversion H; subst. eapply IH. reflexivity.
  - destruct (Ascii.eqb_spec c "."%char) as [->|]; [|discriminate].
    inversion H; subst. exists s. split; [reflexivity|].
    clear -E. induction s as [|c s IH]; [reflexivity|].
    cbn [NodePath.split_last_dot] in E. cbn [NodeString.has_char].
    destruct (NodePath.split_last_dot s) as [[b1 e1]|]; [discriminate|].
    destruct (Ascii.eqb c "."%char); [discriminate|]. now apply IH.
Qed.

Lemma split_last_dot_app (stem rest : string) :
  NodeString.has_char "."%char rest = false ->
  NodePath.split_last_dot (stem +:+ String "."%char rest)
  = Some (stem, String "."%char rest).
Proof.
  intros Hr. induction stem as [|c stem IH].
  - change (NodePath.split_last_dot (String "."%char rest)
            = Some (EmptyString, String "."%char rest)).
    cbn [NodePath.split_last_dot]. now rewrite (split_last_dot_none _ Hr).
  - change (NodePath.split_last_dot (String c (stem +:+ String "."%char rest))
            = Some (String c stem, String "."%char rest)).
    cbn [NodePath.split_last_dot]. now rewrite IH.
Qed.

(** An extension is empty, or a dot followed by characters other than
    dots. *)
Lemma extname_shape (f : string) :
  NodePath.extname f = ""
  \/ exists rest, NodePath.extname f = String "."%char rest
                  /\ NodeString.has_char "."%char rest = false.
Proof.
  unfold NodePath.extname.
  destruct (NodePath.split_last_dot f) as [[b e]|] eqn:E; [|now left].
  destruct (String.eqb b "" || String.eqb f ".."); [now left|].
  right. eapply split_last_dot_ext; eauto.
Qed.

(** The GIF filter keeps exactly the names made of a stem that is not
    empty and of [.gif] in any mix of cases. *)
Theorem gif_filter_exact (f : string) :
  is_gif f = true <->
  exists stem ext, f = stem +:+ ext /\ stem <> ""
                   /\ NodeString.toLowerCase ext = ".gif".
Proof.
  unfold is_gif. split.
  - intros H. apply String.eqb_eq in H. unfold NodePath.extname in H.
    destruct (NodePath.split_last_dot f) as [[b e]|] eqn:E; [|discriminate].
    destruct (String.eqb_spec b "") as [->|Hb]; [discriminate|].
    destruct (String.eqb f ".."); [discriminate|]. cbn [orb] in H.
    exists b, e. split; [now apply split_last_dot_Some | now split].
  - intros (stem & ext & -> & Hs & He).
    destruct ext as [|c0 rest]; [discriminate|].
    cbn [NodeString.toLowerCase] in He. injection He as Hc Hrest.
    assert (c0 = "."%char) as ->.
    { apply Ascii.eqb_eq. rewrite <- lower_ascii_dot, Hc. reflexivity. }
    assert (Hnd : NodeString.has_char "."%char rest = false).
    { now rewrite <- has_char_lower, Hrest. }
    unfold NodePath.extname. rewrite (split_last_dot_app stem rest Hnd).
    destruct (String.eqb_spec stem "") as [|_]; [contradiction|].
    destruct (String.eqb_spec (stem +:+ String "."%char rest) "..") as [E|_].
    + exfalso. destruct stem as [|a [|b stem]]; [contradiction | |].
      * inversion E; subst. discriminate.
      * injection E as Ha Hb2 E2. destruct stem; discriminate.
    + cbn [orb NodeString.toLowerCase]. rewrite Hc, Hrest. reflexivity.
Qed.

(** The pattern of the raster filter is not anchored at its start, yet it
    keeps exactly the names whose extension is [.jpg], [.jpeg] or [.png]
    in any mix of cases: an extension holds one dot only. *)
Theorem raster_filter_exact (f : string) :
  is_raster f = true <->
  NodeString.toLowerCase (NodePath.extname f) = ".jpg"
  \/ NodeString.toLowerCase (NodePath.extname f) = ".jpeg"
  \/ NodeString.toLowerCase (NodePath.extname f) = ".png".
Proof.
  unfold is_raster. cbv zeta.
  assert (Hend : forall x tail,
            x = String "."%char tail ->
            NodeString.ends_with x (NodeString.toLowerCase (NodePath.extname f)) = true ->
            NodeString.toLowerCase (NodePath.extname f) = x).
  { intros x tail -> H. unfold NodeString.ends_with in H.
    apply bool_decide_eq_true in H. destruct H as [r Hr].
    apply strip_suffix_Some in Hr.
    destruct r as [|c r]; [exact Hr|]. exfalso.
    destruct (extname_shape f) as [E|(rest & E & Hnd)]; rewrite E in Hr.
    - discriminate.
    - cbn [NodeString.toLowerCase] in Hr.
      change (String (NodeString.lower_ascii "."%char) (NodeString.toLowerCase rest)
              = String c (r +:+ String "."%char tail)) in Hr.
      injection Hr as _ Hrest.
      rewrite <- has_char_lower, Hrest, has_char_app in Hnd.
      cbn [NodeString.has_char] in Hnd. rewrite Ascii.eqb_refl in Hnd.
      cbn [orb] in Hnd. now rewrite orb_true_r in Hnd. }
  split.
  - intros H. apply orb_true_iff in H. destruct H as [H|H].
    + apply orb_true_iff in H. destruct H as [H|H].
      * left. eapply Hend; eauto.
      * right. left. eapply Hend; eauto.
    + right. right. eapply Hend; eauto.
  - intros [E|[E|E]]; rewrite E; reflexivity.
Qed.

(** A name whose only dot is its first character has no extension, so
    neither filter keeps it. *)
Theorem dotfiles_are_skipped (s : string) :
  NodeString.has_char "."%char s = false ->
  NodePath.extname (String "."%char s) = ""
  /\ is_gif (String "."%char s) = false
  /\ is_raster (String "."%char s) = false.
Proof.
  intros H.
  assert (E : NodePath.extname (String "."%char s) = "").
  { unfold NodePath.extname. cbn [NodePath.split_last_dot].
    now rewrite (split_last_dot_none s H). }
  unfold is_gif, is_raster. rewrite E. repeat split; reflexivity.
Qed.

Lemma dotfiles_are_skipped_witness :
  NodePath.extname ".gif" = "" /\ is_gif ".gif" = false /\ is_raster ".gif" = false.
Proof. apply (dotfiles_are_skipped "gif"). reflexivity. Defined.

(** ** The size formatter near a change of unit *)

(** The unit is chosen on the exact quotient and the number is rounded
    afterwards, so just below 1024 KB (and 1024 MB) the number shown is
    1024.0 with the smaller unit. *)
Theorem formatFileSize_rounds_up_to_1024 (bytes : N) :
  ((1048525 <= bytes < 1048576)%N ->
   SizeFormatter.formatFileSize bytes = "1024.0 KB")
  /\ ((1073689396 <= bytes < 1073741824)%N ->
      SizeFormatter.formatFileSize bytes = "1024.0 MB").
Proof.
  unfold SizeFormatter.formatFileSize.
  set (kb := (inject_Z (Z.of_N bytes) / 1024)%Q).
  set (mb := (kb / 1024)%Q).
  assert (Hkb : (kb == inject_Z (Z.of_N bytes) / inject_Z (Z.pos 1024))%Q)
    by reflexivity.
  assert (Hmb : (mb == inject_Z (Z.of_N bytes) / inject_Z (Z.pos (1024 * 1024)))%Q).
  { unfold mb. rewrite Hkb, !Qmake_Qdiv. unfold Qeq, Qdiv, Qmult; simpl. lia. }
  split; intros Hb.
  - case_bool_decide as H0; [lia|].
    destruct (Qlt_le_dec kb 1024) as [_|H1].
    + unfold SizeFormatter.toFixed1.
      rewrite (tenths_as_floor kb bytes 1024 Hkb).
      pose proof (tenths_nearest bytes 1024 ltac:(lia)) as Ht.
      assert (SizeFormatter.tenths bytes 1024 = 10240%N) as -> by lia.
      reflexivity.
    + exfalso. apply (Qlt_not_le kb 1024); [|exact H1].
      apply (kb_lt_iff bytes 1024 kb Hkb). lia.
  - case_bool_decide as H0; [lia|].
    destruct (Qlt_le_dec kb 1024) as [H1|_].
    + apply (kb_lt_iff bytes 1024 kb Hkb) in H1. lia.
    + destruct (Qlt_le_dec mb 1024) as [_|H2].
      * unfold SizeFormatter.toFixed1.
        rewrite (tenths_as_floor mb bytes (1024 * 1024) Hmb).
        pose proof (tenths_nearest bytes (1024 * 1024) ltac:(lia)) as Ht.
        assert (SizeFormatter.tenths bytes (N.pos (1024 * 1024)) = 10240%N) as ->
          by (change (N.pos (1024 * 1024)) with (1024 * 1024)%N; lia).
        reflexivity.
      * exfalso. apply (Qlt_not_le mb 1024); [|exact H2].
        apply (kb_lt_iff bytes (1024 * 1024) mb Hmb). lia.
Qed.

Lemma formatFileSize_rounds_up_to_1024_witness :
  SizeFormatter.formatFileSize 1048570 = "1024.0 KB"
  /\ SizeFormatter.formatFileSize 1073700000 = "1024.0 MB".
Proof.
  split.
  - apply (proj1 (formatFileSize_rounds_up_to_1024 1048570)). lia.
  - apply (proj2 (formatFileSize_rounds_up_to_1024 1073700000)). lia.
Defined.

(** ** The output directory *)

Lemma ensureOutputDir_present (out : string) (w : world) :
  exists w', ensureOutputDir out w = (Ok tt, w') /\ is_Some (fs w' !! out).
Proof.
  unfold ensureOutputDir. run_m.
  destruct (fs w !! out) as [[c|sz]|] eqn:E.
  - run_m with E. eexists. split; [reflexivity|]. cbn [fs]. rewrite E. eauto.
  - run_m with E. eexists. split; [reflexivity|]. cbn [fs]. rewrite E. eauto.
  - run_m with E. eexists. split; [reflexivity|]. cbn [fs].
    rewrite lookup_insert_eq. eauto.
Qed.

(** ** The version check and the input directory: what the process is left with *)

Lemma run_check_exited (processGIFs : M batch) (not_installed : string)
    (evs : list child_event) (b : option batch) (w : world) (c : Z) :
  exit_code w = Some c -> run_check processGIFs not_installed evs b w = (b, w).
Proof.
  intros Hx. induction evs as [|ev evs IH]; [reflexivity|].
  cbn [run_check]. unfold callback. now rewrite Hx.
Qed.

Lemma run_events_exited (step : nat -> event -> batch -> M batch)
    (evs : list (nat * event)) (b : batch) (w : world) (c : Z) :
  exit_code w = Some c -> run_events step evs b w = (b, w).
Proof.
  intros Hx. induction evs as [|[i e] evs IH]; [reflexivity|].
  cbn [run_events]. unfold callback. now rewrite Hx.
Qed.

Lemma input_is_not_output {RT : Runtime} :
  NodePath.join dirname "input" <> NodePath.join dirname "output".
Proof. intros E. apply join_inj in E. discriminate. Qed.

Section CheckOutcome.
Context {RT : Runtime}.

Lemma Legacy_top_spec (w : world) :
  exit_code w = None ->
  exists w1,
    callback Legacy.top tt w = (tt, w1)
    /\ exit_code w1 = None /\ console w1 = console w /\ bar w1 = bar w
    /\ only_ensured Legacy.outputDir (fs w) (fs w1)
    /\ exists new, ops w1 = ops w ++ new /\ Forall (fun c => batch_work c = false) new.
Proof.
  intros Hw. unfold callback, Legacy.top. rewrite Hw. unfold bind at 1.
  destruct (ensureOutputDir_spec Legacy.outputDir w)
    as (w2 & -> & Hx2 & Hc2 & _ & Hens & Hops & Hb2).
  unfold sys. eexists. split; [reflexivity|]. cbn [exit_code console bar fs ops].
  repeat split; try congruence; [exact Hens|].
  destruct Hops as [-> | ->]; rewrite <- app_assoc; eexists; (split; [reflexivity|]);
    repeat constructor.
Qed.

(** The first optimizer gates its batch on the version check as the later
    ones do: when gifsicle cannot be launched, or exits with a code other
    than 0, no directory is listed, no file is read and no conversion is
    spawned, and a failed launch is reported by the error line. *)
Theorem legacy_version_check_gates_batch (check : spawn_result)
    (evs : list (nat * event)) (w : world) :
  exit_code w = None ->
  check <> Exited 0 ->
  let r := Legacy.main check evs w in
  fst r = None
  /\ (exists new, ops (snd r) = ops w ++ new
                  /\ Forall (fun c => batch_work c = false) new)
  /\ only_ensured Legacy.outputDir (fs w) (fs (snd r))
  /\ bar (snd r) = bar w
  /\ (forall errno, check = LaunchFailed errno ->
      console (snd r) = console w ++ [Legacy.not_installed]).
Proof.
  intros Hw Hc.
  destruct (Legacy_top_spec w Hw) as (w1 & Ht & Hx & Hcon & Hbar & Hens & Hops).
  intros r. subst r. unfold Legacy.main.
  rewrite (run_script_no_batch _ _ _ _ _ _ _ _ Ht Hc). cbn [fst snd].
  unfold after_check. rewrite Hx.
  destruct check as [errno|code]; cbn [fs console bar ops];
    (split; [reflexivity|]); (split; [exact Hops|]); (split; [exact Hens|]);
    (split; [exact Hbar|]).
  - intros _ _. now rewrite Hcon.
  - discriminate.
Qed.

(** A failed version check is no failure of the process: the three
    optimizers end with status 0, and when gifsicle ran and exited with a
    code other than 0 they print nothing at all. *)
Theorem failed_precheck_exits_zero (check : spawn_result)
    (evs : list (nat * event)) (w : world) :
  exit_code w = None ->
  check <> Exited 0 ->
  (exit_status (snd (Index.main check evs w)) = 0
   /\ (forall code, check = Exited code ->
       console (snd (Index.main check evs w)) = console w))
  /\ (exit_status (snd (Legacy.main check evs w)) = 0
      /\ (forall code, check = Exited code ->
          console (snd (Legacy.main check evs w)) = console w))
  /\ (is_Some (fs w !! Pool.inputDir) ->
      exit_status (snd (Pool.main check evs w)) = 0
      /\ (forall code, check = Exited code ->
          console (snd (Pool.main check evs w)) = console w)).
Proof.
  intros Hw Hc. split; [|split].
  - destruct (Index_top_spec w Hw) as (w1 & Ht & Hx & Hcon & _).
    unfold Index.main. rewrite (run_script_no_batch _ _ _ _ _ _ _ _ Ht Hc).
    cbn [snd]. unfold after_check, exit_status. rewrite Hx.
    destruct check; cbn [exit_code console]; rewrite ?Hx;
      (split; [reflexivity|]); intros code0 E; [discriminate | exact Hcon].
  - destruct (Legacy_top_spec w Hw) as (w1 & Ht & Hx & Hcon & _).
    unfold Legacy.main. rewrite (run_script_no_batch _ _ _ _ _ _ _ _ Ht Hc).
    cbn [snd]. unfold after_check, exit_status. rewrite Hx.
    destruct check; cbn [exit_code console]; rewrite ?Hx;
      (split; [reflexivity|]); intros code0 E; [discriminate | exact Hcon].
  - intros Hin.
    destruct (Pool_top_spec w Hw) as (w1 & Ht & _ & _ & _ & Hsome & _).
    destruct (Hsome Hin) as [Hx Hcon].
    unfold Pool.main. rewrite (run_script_no_batch _ _ _ _ _ _ _ _ Ht Hc).
    cbn [snd]. unfold after_check, exit_status. rewrite Hx.
    destruct check; cbn [exit_code console]; rewrite ?Hx;
      (split; [reflexivity|]); intros code0 E; [discriminate | exact Hcon].
Qed.

(** The two pooled scripts look for their input directory first: when it
    is missing they print the error line and exit with status 1 at once;
    the output directory is not created, gifsicle is not even asked for its
    version, and no event is handled. *)
Theorem pooled_missing_input (check : spawn_result) (evs : list (nat * event))
    (w : world) :
  exit_code w = None ->
  (fs w !! Pool.inputDir = None ->
   Pool.main check evs w
   = (None,
      World (fs w)
            (console w ++ ["🔴 Error: The input directory " +:+ Pool.inputDir
                           +:+ " does not exist."])
            (bar w) (ops w ++ [SysExists Pool.inputDir]) (Some 1)))
  /\ (fs w !! Webp.inputDir = None ->
      Webp.main evs w
      = (None,
         World (fs w)
               (console w ++ ["🔴 Error: The images directory " +:+ Webp.inputDir
                              +:+ " does not exist."])
               (bar w) (ops w ++ [SysExists Webp.inputDir]) (Some 1))).
Proof.
  intros Hw. split; intros E.
  - unfold Pool.main, run_script, callback. rewrite Hw.
    unfold Pool.top. run_m with E.
    rewrite (run_check_exited _ _ _ _ _ 1) by reflexivity. reflexivity.
  - unfold Webp.main, callback. rewrite Hw.
    unfold Webp.top. run_m with E. reflexivity.
Qed.

(** The two sequential scripts do not: with the input directory missing
    they create the output directory, ask gifsicle for its version, and
    when that succeeds the listing of the input directory throws inside
    the batch function, which nobody catches: no task is started and the
    process ends with status 1. *)
Theorem sequential_missing_input (evs : list (nat * event)) (w : world) :
  exit_code w = None ->
  (fs w !! Index.inputDir = None ->
   let r := Index.main (Exited 0) evs w in
   fst r = None
   /\ exit_status (snd r) = 1
   /\ is_Some (fs (snd r) !! Index.outputDir)
   /\ bar (snd r) = bar w
   /\ exists new, ops (snd r) = ops w ++ new ++ [SysReaddir Index.inputDir]
                  /\ Forall (fun c => batch_work c = false) new)
  /\ (fs w !! Legacy.inputDir = None ->
      let r := Legacy.main (Exited 0) evs w in
      fst r = None
      /\ exit_status (snd r) = 1
      /\ is_Some (fs (snd r) !! Legacy.outputDir)
      /\ bar (snd r) = bar w
      /\ exists new, ops (snd r) = ops w ++ new ++ [SysReaddir Legacy.inputDir]
                     /\ Forall (fun c => batch_work c = false) new).
Proof.
  intros Hw. split; intros E r; subst r.
  - destruct (Index_top_spec w Hw) as (w1 & Ht & Hx & Hcon & Hbar & Hens & new & Hops & Hnew).
    assert (E1 : fs w1 !! Index.inputDir = None).
    { destruct Hens as [-> | [_ ->]]; [exact E|].
      rewrite lookup_insert_ne; [exact E|]. intros C. symmetry in C.
      now apply input_is_not_output in C. }
    assert (Hout : is_Some (fs w1 !! Index.outputDir)).
    { unfold callback in Ht. rewrite Hw in Ht. unfold Index.top in Ht.
      unfold bind at 1 in Ht.
      destruct (ensureOutputDir_present Index.outputDir w) as (w2 & E2 & Hp).
      rewrite E2 in Ht. unfold sys in Ht. inversion Ht; subst. exact Hp. }
    assert (Hp : Index.processGIFs w1
                 = (Throw ("ENOENT: no such file or directory, scandir " +:+ Index.inputDir),
                    World (fs w1) (console w1) (bar w1)
                          (ops w1 ++ [SysReaddir Index.inputDir]) (exit_code w1))).
    { unfold Index.processGIFs. run_m with E1. reflexivity. }
    unfold Index.main, run_script. rewrite Ht. cbn [child_events run_check].
    unfold callback, onCheckEvent. rewrite Hx. cbn [Z.eqb]. unfold bind.
    rewrite Hp. cbn [fst snd crash].
    unfold exit_status. cbn [exit_code fs bar ops default].
    split; [reflexivity|]. split; [reflexivity|]. split; [exact Hout|].
    split; [exact Hbar|]. exists new. rewrite Hops, <- app_assoc. now split.
  - destruct (Legacy_top_spec w Hw) as (w1 & Ht & Hx & Hcon & Hbar & Hens & new & Hops & Hnew).
    assert (E1 : fs w1 !! Legacy.inputDir = None).
    { destruct Hens as [-> | [_ ->]]; [exact E|].
      rewrite lookup_insert_ne; [exact E|]. intros C. symmetry in C.
      now apply input_is_not_output in C. }
    assert (Hout : is_Some (fs w1 !! Legacy.outputDir)).
    { unfold callback in Ht. rewrite Hw in Ht. unfold Legacy.top in Ht.
      unfold bind at 1 in Ht.
      destruct (ensureOutputDir_present Legacy.outputDir w) as (w2 & E2 & Hp).
      rewrite E2 in Ht. unfold sys in Ht. inversion Ht; subst. exact Hp. }
    assert (Hp : Legacy.processGIFs w1
                 = (Throw ("ENOENT: no such file or directory, scandir " +:+ Legacy.inputDir),
                    World (fs w1) (console w1) (bar w1)
                          (ops w1 ++ [SysReaddir Legacy.inputDir]) (exit_code w1))).
    { unfold Legacy.processGIFs. run_m with E1. reflexivity. }
    unfold Legacy.main, run_script. rewrite Ht. cbn [child_events run_check].
    unfold callback, onCheckEvent. rewrite Hx. cbn [Z.eqb]. unfold bind.
    rewrite Hp. cbn [fst snd crash].
    unfold exit_status. cbn [exit_code fs bar ops default].
    split; [reflexivity|]. split; [reflexivity|]. split; [exact Hout|].
    split; [exact Hbar|]. exists new. rewrite Hops, <- app_assoc. now split.
Qed.

End CheckOutcome.

(** ** The timer of a task stops when the task ends *)

Ltac handler_disarms H :=
  run_m in H; split_matches H; inversion H; subst;
  unfold resolve, reject; apply interval_settle_clear.

Section Timers.
Context {RT : Runtime}.

Lemma Legacy_handle_disarms t e st w st' w' :
  ends_child e -> Legacy.handle t e st w = (Ok st', w') -> interval st' = false.
Proof.
  intros He H. destruct e; try contradiction; cbn [Legacy.handle] in H;
    unfold Legacy.onClose, Legacy.onError in H; handler_disarms H.
Qed.

Lemma Index_handle_disarms t e st w st' w' :
  ends_child e -> Index.handle t e st w = (Ok st', w') -> interval st' = false.
Proof.
  intros He H. destruct e; try contradiction; cbn [Index.handle] in H;
    unfold Index.onClose, Index.onError in H; handler_disarms H.
Qed.

Lemma Pool_handle_disarms t e st w st' w' :
  ends_child e -> Pool.handle t e st w = (Ok st', w') -> interval st' = false.
Proof.
  intros He H. destruct e; try contradiction; cbn [Pool.handle] in H;
    unfold Pool.onClose, Pool.onError in H; handler_disarms H.
Qed.

Lemma Webp_handle_disarms t e st w st' w' :
  ends_conversion e -> Webp.handle t e st w = (Ok st', w') -> interval st' = false.
Proof.
  intros He H. destruct e; try contradiction; cbn [Webp.handle] in H;
    unfold Webp.onResolved, Webp.onCatch in H; handler_disarms H.
Qed.

(** Every handler that ends a task clears its interval first: whatever the
    exit code or the error, a tick that arrives afterwards draws nothing,
    reads nothing and leaves the task as it is. *)
Theorem no_tick_after_the_end (t : task) (e : event) (st st' : tstate)
    (w w' : world) (r : Q) :
  (ends_child e ->
   (Index.handle t e st w = (Ok st', w') ->
    Index.handle t (Tick r) st' w' = (Ok st', w'))
   /\ (Pool.handle t e st w = (Ok st', w') ->
       Pool.handle t (Tick r) st' w' = (Ok st', w'))
   /\ (Legacy.handle t e st w = (Ok st', w') ->
       Legacy.handle t (Tick r) st' w' = (Ok st', w')))
  /\ (ends_conversion e ->
      Webp.handle t e st w = (Ok st', w') ->
      Webp.handle t (Tick r) st' w' = (Ok st', w')).
Proof.
  split.
  - intros He. split; [|split]; intros H.
    + apply (Index_handle_disarms _ _ _ _ _ _ He) in H.
      cbn [Index.handle]. unfold Index.onInterval. now rewrite H.
    + apply (Pool_handle_disarms _ _ _ _ _ _ He) in H.
      cbn [Pool.handle]. unfold Pool.onInterval. now rewrite H.
    + apply (Legacy_handle_disarms _ _ _ _ _ _ He) in H.
      cbn [Legacy.handle]. unfold Legacy.onInterval. now rewrite H.
  - intros He H. apply (Webp_handle_disarms _ _ _ _ _ _ He) in H.
    cbn [Webp.handle]. unfold Webp.onInterval. now rewrite H.
Qed.

End Timers.

(** ** The outcome of a task is final *)

(** [js'] holds the jobs of [js] at the same positions, each with its task
    and, once settled, its settlement, followed by the jobs started
    since. *)
Definition grows (js js' : list job) : Prop :=
  exists kept new, js' = kept ++ new /\ Forall2 keeps_promise js kept.

Lemma grows_refl (js : list job) : grows js js.
Proof.
  exists js, []. split; [now rewrite app_nil_r|].
  apply Forall2_same_length_lookup. split; [reflexivity|].
  intros i j j' H1 H2. rewrite H1 in H2. inversion H2; subst. apply keeps_promise_refl.
Qed.

Lemma keeps_promise_trans (j1 j2 j3 : job) :
  keeps_promise j1 j2 -> keeps_promise j2 j3 -> keeps_promise j1 j3.
Proof.
  intros [Ht1 Hp1] [Ht2 Hp2]. split; [congruence|].
  intros Hn. rewrite Hp2; [now apply Hp1|]. rewrite (Hp1 Hn). exact Hn.
Qed.

Lemma grows_trans (js1 js2 js3 : list job) :
  grows js1 js2 -> grows js2 js3 -> grows js1 js3.
Proof.
  intros (k1 & n1 & -> & H1) (k2 & n2 & -> & H2).
  apply Forall2_app_inv_l in H2. destruct H2 as (k2a & k2b & Ha & Hb & ->).
  exists k2a, (k2b ++ n2). split; [now rewrite app_assoc|].
  clear Hb. revert k2a Ha. induction H1 as [|j1 j2 js1 k1 Hj _ IH]; intros k2a Ha.
  - inversion Ha; subst. constructor.
  - inversion Ha as [|? j3 ? k3 Hj3 Hk3]; subst. constructor.
    + eapply keeps_promise_trans; eauto.
    + now apply IH.
Qed.

Lemma grows_keeps (js js' : list job) : Forall2 keeps_promise js js' -> grows js js'.
Proof. intros H. exists js', []. split; [now rewrite app_nil_r | exact H]. Qed.

Lemma grows_app (js new : list job) : grows js (js ++ new).
Proof.
  destruct (grows_refl js) as (k & n & E & H).
  exists js, new. split; [reflexivity|].
  apply Forall2_same_length_lookup. split; [reflexivity|].
  intros i j j' H1 H2. rewrite H1 in H2. inversion H2; subst. apply keeps_promise_refl.
Qed.

Lemma grows_lookup (js js' : list job) (i : nat) (j : job) (s : settlement) :
  grows js js' -> js !! i = Some j -> promise (jstate j) = Some s ->
  exists j', js' !! i = Some j' /\ jtask j' = jtask j
             /\ promise (jstate j') = Some s.
Proof.
  intros (kept & new & -> & H) Hi Hs.
  destruct (Forall2_lookup_l _ _ _ _ _ H Hi) as (j' & Hk & [Ht Hp]).
  exists j'. split; [now apply lookup_app_l_Some|]. split; [exact Ht|].
  rewrite Hp; [exact Hs | congruence].
Qed.

Section Growth.
Variable start : task -> M tstate.
Variable handle : task -> event -> tstate -> M tstate.

Hypothesis handle_keeps : forall t e st w st' w',
  handle t e st w = (Ok st', w') ->
  promise st <> None -> promise st' = promise st.

Lemma for_await_grows (q : list task) :
  forall js w b w', for_await start q js w = (Ok b, w') -> grows js (jobs b).
Proof.
  induction q as [|t q IH]; intros js w b w' H; cbn [for_await] in H.
  - run_m in H. inversion H; subst. apply grows_refl.
  - apply bind_Ok in H. destruct H as (st & w1 & Hs & H).
    destruct (promise st) as [s|].
    + apply bind_Ok in H. destruct H as ([] & w2 & _ & H).
      apply IH in H. eapply grows_trans; [apply grows_app | exact H].
    + apply ret_Ok in H. destruct H as [<- _]. apply grows_app.
Qed.

Lemma seq_step_grows (i : nat) (e : event) (b b' : batch) (w w' : world) :
  seq_step start handle i e b w = (Ok b', w') -> grows (jobs b) (jobs b').
Proof.
  intros H. unfold seq_step in H.
  apply bind_Ok in H. destruct H as (js & w1 & Hf & H).
  apply (fire_keeps handle handle_keeps) in Hf. apply grows_keeps in Hf.
  destruct (returned b).
  - apply ret_Ok in H. destruct H as [<- _]. exact Hf.
  - destruct (last js) as [j|].
    + destruct (promise (jstate j)) as [s|].
      * apply bind_Ok in H. destruct H as ([] & w2 & _ & H).
        apply for_await_grows in H. eapply grows_trans; eauto.
      * apply ret_Ok in H. destruct H as [<- _]. exact Hf.
    + apply ret_Ok in H. destruct H as [<- _]. exact Hf.
Qed.

Lemma pLimit_grows (n : nat) (q : list task) :
  forall js w qjs w', pLimit start n q js w = (Ok qjs, w') -> grows js (snd qjs).
Proof.
  induction q as [|t q IH]; intros js w qjs w' H; cbn [pLimit] in H.
  - apply ret_Ok in H. destruct H as [<- _]. apply grows_refl.
  - destruct (in_progress js <? n)%nat.
    + apply bind_Ok in H. destruct H as (st & w1 & _ & H).
      apply IH in H. eapply grows_trans; [apply grows_app | exact H].
    + apply ret_Ok in H. destruct H as [<- _]. apply grows_refl.
Qed.

Lemma pool_step_grows (done_msg err_msg : string) (n i : nat) (e : event)
    (b b' : batch) (w w' : world) :
  pool_step start handle done_msg err_msg n i e b w = (Ok b', w') ->
  grows (jobs b) (jobs b').
Proof.
  intros H. unfold pool_step in H.
  apply bind_Ok in H. destruct H as (js & w1 & Hf & H).
  apply bind_Ok in H. destruct H as (qjs & w2 & Hl & H).
  apply (fire_keeps handle handle_keeps) in Hf. apply grows_keeps in Hf.
  apply pLimit_grows in Hl.
  apply (barrier_spec) in H. cbn [jobs] in H. destruct H as (_ & -> & _).
  eapply grows_trans; eauto.
Qed.

End Growth.

Lemma run_events_grows (step : nat -> event -> batch -> M batch)
    (evs : list (nat * event)) :
  (forall i e b w b' w', step i e b w = (Ok b', w') -> grows (jobs b) (jobs b')) ->
  forall b w, grows (jobs b) (jobs (fst (run_events step evs b w))).
Proof.
  intros Hstep. induction evs as [|[i e] evs IH]; intros b w; [apply grows_refl|].
  cbn [run_events]. unfold callback. destruct (exit_code w); [apply IH|].
  destruct (step i e b w) as [[b'|msg] w'] eqn:E; [|apply IH].
  eapply grows_trans; [eapply Hstep; eauto | apply IH].
Qed.

(** Once the promise of a task is settled, no later event of the batch,
    addressed to it or to another task, changes its outcome or moves it:
    under each of the four scripts. *)
Theorem outcomes_are_final {RT : Runtime} (evs : list (nat * event)) (b : batch)
    (w : world) (i : nat) (j : job) (s : settlement) :
  jobs b !! i = Some j ->
  promise (jstate j) = Some s ->
  (exists j', jobs (fst (run_events Index.step evs b w)) !! i = Some j'
              /\ jtask j' = jtask j /\ promise (jstate j') = Some s)
  /\ (exists j', jobs (fst (run_events Legacy.step evs b w)) !! i = Some j'
                 /\ jtask j' = jtask j /\ promise (jstate j') = Some s)
  /\ (exists j', jobs (fst (run_events Pool.step evs b w)) !! i = Some j'
                 /\ jtask j' = jtask j /\ promise (jstate j') = Some s)
  /\ (exists j', jobs (fst (run_events Webp.step evs b w)) !! i = Some j'
                 /\ jtask j' = jtask j /\ promise (jstate j') = Some s).
Proof.
  intros Hi Hs. repeat split.
  - eapply grows_lookup; [|exact Hi|exact Hs]. apply run_events_grows.
    intros i0 e b1 w1 b' w'. apply seq_step_grows, Index_handle_keeps.
  - eapply grows_lookup; [|exact Hi|exact Hs]. apply run_events_grows.
    intros i0 e b1 w1 b' w'. apply seq_step_grows, Legacy_handle_keeps.
  - eapply grows_lookup; [|exact Hi|exact Hs]. apply run_events_grows.
    intros i0 e b1 w1 b' w'. apply pool_step_grows, Pool_handle_keeps.
  - eapply grows_lookup; [|exact Hi|exact Hs]. apply run_events_grows.
    intros i0 e b1 w1 b' w'. apply pool_step_grows, Webp_handle_keeps.
Qed.

(** ** The last line of the sequential loop *)

Section LoopEnd.
Variable start : task -> M tstate.
Variable handle : task -> event -> tstate -> M tstate.

Lemma for_await_last_line (q : list task) :
  forall js w b w',
  for_await start q js w = (Ok b, w') -> returned b = true ->
  last (console w') = Some "All files optimized successfully!".
Proof.
  induction q as [|t q IH]; intros js w b w' H Hr; cbn [for_await] in H.
  - run_m in H. inversion H; subst. cbn [console]. apply last_snoc.
  - apply bind_Ok in H. destruct H as (st & w1 & Hs & H).
    destruct (promise st) as [s|].
    + apply bind_Ok in H. destruct H as ([] & w2 & _ & H). eapply IH; eauto.
    + apply ret_Ok in H. destruct H as [<- _]. discriminate.
Qed.

Lemma seq_step_last_line (i : nat) (e : event) (b b' : batch) (w w' : world) :
  returned b = false ->
  seq_step start handle i e b w = (Ok b', w') -> returned b' = true ->
  last (console w') = Some "All files optimized successfully!".
Proof.
  intros Hb H Hr. unfold seq_step in H.
  apply bind_Ok in H. destruct H as (js & w1 & Hf & H). rewrite Hb in H.
  destruct (last js) as [j|].
  - destruct (promise (jstate j)) as [s|].
    + apply bind_Ok in H. destruct H as ([] & w2 & _ & H).
      eapply for_await_last_line; eauto.
    + apply ret_Ok in H. destruct H as [<- _]. discriminate.
  - apply ret_Ok in H. destruct H as [<- _]. discriminate.
Qed.

Lemma run_events_last_line (evs : list (nat * event)) (i : nat) (e : event)
    (b : batch) (w : world) :
  let r := run_events (seq_step start handle) evs b w in
  let r' := run_events (seq_step start handle) (evs ++ [(i, e)]) b w in
  returned (fst r) = false -> returned (fst r') = true ->
  last (console (snd r')) = Some "All files optimized successfully!".
Proof.
  intros r r' Hb Hr. subst r'. rewrite run_events_snoc in Hr |- *. fold r in Hr |- *.
  unfold callback in Hr |- *. destruct (exit_code (snd r)).
  - cbn [fst] in Hr. congruence.
  - destruct (seq_step start handle i e (fst r) (snd r)) as [[b'|msg] w'] eqn:E.
    + cbn [fst snd] in Hr |- *. eapply seq_step_last_line; eauto.
    + cbn [fst] in Hr. congruence.
Qed.

End LoopEnd.

(** The event that ends the loop of a sequential script leaves [All files
    optimized successfully!] as the last line of the console, whether the
    tasks were fulfilled or rejected: the loop keeps no count of the
    failures it logged. *)
Theorem loop_ends_with_success_line {RT : Runtime} (evs : list (nat * event))
    (i : nat) (e : event) (b : batch) (w : world) :
  (returned (fst (run_events Index.step evs b w)) = false ->
   returned (fst (run_events Index.step (evs ++ [(i, e)]) b w)) = true ->
   last (console (snd (run_events Index.step (evs ++ [(i, e)]) b w)))
   = Some "All files optimized successfully!")
  /\ (returned (fst (run_events Legacy.step evs b w)) = false ->
      returned (fst (run_events Legacy.step (evs ++ [(i, e)]) b w)) = true ->
      last (console (snd (run_events Legacy.step (evs ++ [(i, e)]) b w)))
      = Some "All files optimized successfully!").
Proof.
  split.
  - apply (run_events_last_line Index.optimizeGIF Index.handle).
  - apply (run_events_last_line Legacy.optimizeGIF Legacy.handle).
Qed.

(** ** Every report of a batch can be drawn *)

Section PoolProgress.
Context {RT : Runtime} {RL : RoundingLaws RT}.

Lemma Pool_handle_named t e st w r w' ps :
  draw_ok e -> percents_ok ps -> armed_ok st ps ->
  Pool.handle t e st w = (r, w') -> step_named (fileName t) ps w w' r.
Proof.
  intros He Hp Ha H. destruct e; cbn [Pool.handle] in H;
    try (inversion H; subst; now apply step_named_none).
  - unfold Pool.onInterval in H. destruct (interval st) eqn:Hi.
    + unfold bind at 1 in H.
      destruct (size_or_spec (outputPath t) (originalSize st) w)
        as (n & w1 & E & Hb & _). rewrite E in H.
      run_m in H. inversion H; subst. destruct He as [Hr _].
      eapply step_named_tick with (r := r0); eauto. cbn [bar]. now rewrite Hb.
    + inversion H; subst. now apply step_named_none.
  - unfold Pool.onClose in H. unfold bind at 1 in H.
    destruct (size_or_spec (outputPath t) (originalSize (clearInterval st)) w)
      as (n & w1 & E & Hb & _). rewrite E in H.
    destruct (originalSize (clearInterval st) <=? n)%N.
    + exists []. cbn [map]. rewrite !app_nil_r.
      assert (Hbar : bar w' = bar w).
      { run_m in H. split_matches H; inversion H; subst; cbn [bar]; exact Hb. }
      split; [exact Hbar|]. split; [constructor|]. split; [exact Hp|].
      intros st' ->. apply disarmed_ok.
      run_m in H. split_matches H; inversion H; subst; apply interval_settle_clear.
    + run_m in H. destruct (code =? 0); inversion H; subst;
        (eapply step_named_final; [exact Hp | apply interval_settle_clear |]);
        cbn [bar]; now rewrite Hb.
  - inversion H; subst. apply step_named_disarmed; [exact Hp|].
    apply interval_settle_clear.
Qed.

Lemma Pool_start_reports t w r w' :
  Pool.optimizeGIF t w = (r, w') ->
  bar w' = bar w /\ forall st, r = Ok st -> armed_ok st [].
Proof.
  unfold Pool.optimizeGIF. run_m.
  destruct (fs w !! inputPath t) as [[c|sz]|]; run_m; intros H; inversion H; subst;
    (split; [reflexivity|]); intros st E; inversion E; subst;
    first [apply armed_ok_start | now apply disarmed_ok].
Qed.

Lemma armed_zero (n : N) : armed_ok (TState n 0 true None) [0%Q].
Proof.
  intros _. split; [|apply fl_zero]. constructor; [apply Qle_refl | constructor].
Qed.

Lemma Legacy_start_zero t w r w' :
  Legacy.optimizeGIF t w = (r, w') ->
  bar w' = bar w /\ forall st, r = Ok st -> armed_ok st [0%Q].
Proof.
  unfold Legacy.optimizeGIF. run_m. intros H. inversion H; subst.
  split; [reflexivity|]. intros st E. inversion E; subst. apply armed_zero.
Qed.

Lemma Index_start_zero t w r w' :
  Index.optimizeGIF t w = (r, w') ->
  bar w' = bar w /\ forall st, r = Ok st -> armed_ok st [0%Q].
Proof.
  unfold Index.optimizeGIF. run_m.
  destruct (fs w !! inputPath t) as [[c|sz]|]; run_m; intros H; inversion H; subst;
    (split; [reflexivity|]); intros st E; inversion E; subst;
    first [apply armed_zero | now apply disarmed_ok].
Qed.

Lemma Pool_start_zero t w r w' :
  Pool.optimizeGIF t w = (r, w') ->
  bar w' = bar w /\ forall st, r = Ok st -> armed_ok st [0%Q].
Proof.
  unfold Pool.optimizeGIF. run_m.
  destruct (fs w !! inputPath t) as [[c|sz]|]; run_m; intros H; inversion H; subst;
    (split; [reflexivity|]); intros st E; inversion E; subst;
    first [apply armed_zero | now apply disarmed_ok].
Qed.

Lemma Webp_start_zero t w r w' :
  Webp.convertToWebP t w = (r, w') ->
  bar w' = bar w /\ forall st, r = Ok st -> armed_ok st [0%Q].
Proof.
  unfold Webp.convertToWebP. run_m.
  destruct (fs w !! inputPath t) as [[c|sz]|]; run_m; intros H; inversion H; subst;
    (split; [reflexivity|]); intros st E; inversion E; subst;
    first [apply armed_zero | now apply disarmed_ok].
Qed.

End PoolProgress.

Lemma percents_from_zero (new : list report) :
  percents_ok ([0%Q] ++ map r_percent new) -> Forall drawable new.
Proof.
  intros [Hs Hb]. cbn [app] in Hs, Hb.
  inversion Hs as [|? ? _ Hz]; subst. inversion Hb as [|? ? _ Hh]; subst.
  rewrite Forall_map in Hz, Hh. clear -Hz Hh.
  induction new as [|rep new IH]; [constructor|].
  inversion Hz; subst. inversion Hh; subst. constructor; [now split | now apply IH].
Qed.

Section BarInvariant.
Context {RT : Runtime} {RL : RoundingLaws RT}.
Variable start : task -> M tstate.
Variable handle : task -> event -> tstate -> M tstate.

Hypothesis handle_named : forall t e st w r w' ps,
  draw_ok e -> percents_ok ps -> armed_ok st ps ->
  handle t e st w = (r, w') -> step_named (fileName t) ps w w' r.

Hypothesis start_zero : forall t w r w',
  start t w = (r, w') ->
  bar w' = bar w /\ forall st, r = Ok st -> armed_ok st [0%Q].

Lemma handle_drawable t e st w r w' :
  draw_ok e -> armed_ok st [0%Q] -> handle t e st w = (r, w') ->
  exists new, bar w' = bar w ++ new /\ Forall drawable new
              /\ forall st', r = Ok st' -> armed_ok st' [0%Q].
Proof.
  intros He Ha H.
  assert (Hp : percents_ok [0%Q]).
  { split; repeat constructor. discriminate. }
  destruct (handle_named _ _ _ _ _ _ _ He Hp Ha H) as (new & Hb & _ & Hp' & Ha').
  exists new. split; [exact Hb|]. split; [now apply percents_from_zero|].
  intros st' E Hi. destruct (Ha' st' E Hi) as [Hle Hfix].
  split; [|exact Hfix]. cbn [app] in Hle. inversion Hle; subst.
  constructor; [assumption | constructor].
Qed.

Lemma fire_bar_inv (i : nat) (e : event) (js : list job) (w w' : world)
    (r : result (list job)) :
  draw_ok e -> bar_inv js w ->
  fire handle i e js w = (r, w') ->
  Forall drawable (bar w')
  /\ forall js', r = Ok js' -> bar_inv js' w'.
Proof.
  intros He [Hj Hb] H. unfold fire in H.
  destruct (js !! i) as [j|] eqn:Hi.
  - unfold bind at 1 in H.
    destruct (environment_spec (jtask j) e w) as (w1 & Ee & Hb1 & _).
    rewrite Ee in H. unfold bind at 1 in H.
    destruct (handle (jtask j) e (jstate j) w1) as [[st|msg] w2] eqn:Eh.
    + assert (Hji : armed_ok (jstate j) [0%Q]) by (rewrite Forall_lookup in Hj; eauto).
      destruct (handle_drawable _ _ _ _ _ _ He Hji Eh) as (new & Hb2 & Hnew & Ha).
      run_m in H. inversion H; subst.
      assert (Hbar : Forall drawable (bar w')).
      { rewrite Hb2, Hb1. apply Forall_app. now split. }
      split; [exact Hbar|]. intros js' E. inversion E; subst. split; [|exact Hbar].
      apply Forall_insert; [exact Hj|]. cbn [jstate]. now apply Ha.
    + assert (Hji : armed_ok (jstate j) [0%Q]) by (rewrite Forall_lookup in Hj; eauto).
      destruct (handle_drawable _ _ _ _ _ _ He Hji Eh) as (new & Hb2 & Hnew & _).
      inversion H; subst. split; [|discriminate].
      rewrite Hb2, Hb1. apply Forall_app. now split.
  - inversion H; subst. split; [exact Hb|]. intros js' E. inversion E; subst. now split.
Qed.

Lemma for_await_bar_inv (q : list task) :
  forall js w r w',
  bar_inv js w ->
  for_await start q js w = (r, w') ->
  Forall drawable (bar w') /\ forall b, r = Ok b -> bar_inv (jobs b) w'.
Proof.
  induction q as [|t q IH]; intros js w r w' [Hj Hb] H; cbn [for_await] in H.
  - run_m in H. inversion H; subst. cbn [bar]. split; [exact Hb|].
    intros b E. inversion E; subst. now split.
  - unfold bind at 1 in H.
    destruct (start t w) as [[st|msg] w1] eqn:Es;
      destruct (start_zero _ _ _ _ Es) as [Hb1 Ha].
    + assert (Hinv : bar_inv (js ++ [Job t st]) w1).
      { split; [|now rewrite Hb1]. apply Forall_app. split; [exact Hj|].
        constructor; [|constructor]. cbn [jstate]. now apply Ha. }
      destruct (promise st) as [s|].
      * unfold bind at 1 in H.
        destruct (onRejection_spec t s w1) as (w2 & E & Hb2). rewrite E in H.
        eapply IH; [|exact H]. destruct Hinv as [? ?]. split; [assumption|].
        now rewrite Hb2.
      * inversion H; subst. split; [now rewrite Hb1|].
        intros b E. inversion E; subst. exact Hinv.
    + inversion H; subst. split; [now rewrite Hb1 | discriminate].
Qed.

Lemma pLimit_bar_inv (n : nat) (q : list task) :
  forall js w r w',
  bar_inv js w ->
  pLimit start n q js w = (r, w') ->
  Forall drawable (bar w') /\ forall qjs, r = Ok qjs -> bar_inv (snd qjs) w'.
Proof.
  induction q as [|t q IH]; intros js w r w' [Hj Hb] H; cbn [pLimit] in H.
  - inversion H; subst. split; [exact Hb|]. intros qjs E. inversion E; subst. now split.
  - destruct (in_progress js <? n)%nat.
    + unfold bind at 1 in H.
      destruct (start t w) as [[st|msg] w1] eqn:Es;
        destruct (start_zero _ _ _ _ Es) as [Hb1 Ha].
      * eapply IH; [|exact H]. split; [|now rewrite Hb1].
        apply Forall_app. split; [exact Hj|].
        constructor; [|constructor]. cbn [jstate]. now apply Ha.
      * inversion H; subst. split; [now rewrite Hb1 | discriminate].
    + inversion H; subst. split; [exact Hb|].
      intros qjs E. inversion E; subst. now split.
Qed.

Lemma barrier_total (done_msg err_msg : string) (b : batch) (w : world) :
  exists b' w', barrier done_msg err_msg b w = (Ok b', w')
                /\ jobs b' = jobs b /\ bar w' = bar w.
Proof.
  unfold barrier. destruct (returned b); [now eexists _, _|].
  destruct (first_rejected (jobs b)).
  - run_m. now eexists _, _.
  - destruct (bool_decide (queue b = []) && forallb fulfilled (jobs b));
      run_m; now eexists _, _.
Qed.

Lemma seq_step_bar_inv (i : nat) (e : event) (b : batch) (w w' : world)
    (r : result batch) :
  draw_ok e -> bar_inv (jobs b) w ->
  seq_step start handle i e b w = (r, w') ->
  Forall drawable (bar w') /\ forall b', r = Ok b' -> bar_inv (jobs b') w'.
Proof.
  intros He Hinv H. unfold seq_step in H. unfold bind at 1 in H.
  destruct (fire handle i e (jobs b) w) as [[js|msg] w1] eqn:Ef;
    destruct (fire_bar_inv _ _ _ _ _ _ He Hinv Ef) as [Hb1 Hj1].
  - specialize (Hj1 js eq_refl).
    assert (Hsame : forall q ret, Forall drawable (bar w1)
              /\ forall b', Ok (Batch q js ret) = Ok b' -> bar_inv (jobs b') w1).
    { intros q ret. split; [exact Hb1|]. intros b' E. inversion E; subst. exact Hj1. }
    destruct (returned b); [inversion H; subst; apply Hsame|].
    destruct (last js) as [j|]; [|inversion H; subst; apply Hsame].
    destruct (promise (jstate j)) as [s|]; [|inversion H; subst; apply Hsame].
    unfold bind at 1 in H.
    destruct (onRejection_spec (jtask j) s w1) as (w2 & E & Hb2). rewrite E in H.
    eapply for_await_bar_inv; [|exact H]. destruct Hj1. split; [assumption|].
    now rewrite Hb2.
  - inversion H; subst. split; [exact Hb1 | discriminate].
Qed.

Lemma pool_step_bar_inv (done_msg err_msg : string) (n i : nat) (e : event)
    (b : batch) (w w' : world) (r : result batch) :
  draw_ok e -> bar_inv (jobs b) w ->
  pool_step start handle done_msg err_msg n i e b w = (r, w') ->
  Forall drawable (bar w') /\ forall b', r = Ok b' -> bar_inv (jobs b') w'.
Proof.
  intros He Hinv H. unfold pool_step in H. unfold bind at 1 in H.
  destruct (fire handle i e (jobs b) w) as [[js|msg] w1] eqn:Ef;
    destruct (fire_bar_inv _ _ _ _ _ _ He Hinv Ef) as [Hb1 Hj1].
  - specialize (Hj1 js eq_refl). unfold bind at 1 in H.
    destruct (pLimit start n (queue b) js w1) as [[qjs|msg] w2] eqn:El;
      destruct (pLimit_bar_inv _ _ _ _ _ _ Hj1 El) as [Hb2 Hj2].
    + specialize (Hj2 qjs eq_refl).
      destruct (barrier_total done_msg err_msg
                  (Batch (fst qjs) (snd qjs) (returned b)) w2)
        as (b2 & w3 & Eb & Hjobs & Hbar).
      rewrite Eb in H. inversion H; subst. rewrite Hbar. split; [exact Hb2|].
      intros b' E. inversion E; subst. rewrite Hjobs. cbn [jobs].
      destruct Hj2. split; [assumption | now rewrite Hbar].
    + inversion H; subst. split; [exact Hb2 | discriminate].
  - inversion H; subst. split; [exact Hb1 | discriminate].
Qed.

Lemma pool_submit_bar_inv (done_msg err_msg : string) (n : nat) (tasks : list task)
    (b : batch) (w w' : world) :
  Forall drawable (bar w) ->
  pool_submit start done_msg err_msg n tasks w = (Ok b, w') ->
  bar_inv (jobs b) w'.
Proof.
  intros Hb H. unfold pool_submit in H. unfold bind at 1 in H.
  destruct (pLimit start n tasks [] w) as [[qjs|msg] w2] eqn:El; [|discriminate].
  assert (Hinv : bar_inv [] w) by (split; [constructor | exact Hb]).
  destruct (pLimit_bar_inv _ _ _ _ _ _ Hinv El) as [Hb2 Hj2].
  specialize (Hj2 qjs eq_refl).
  destruct (barrier_total done_msg err_msg (Batch (fst qjs) (snd qjs) false) w2)
    as (b2 & w3 & Eb & Hjobs & Hbar).
  rewrite Eb in H. inversion H; subst. rewrite Hjobs. cbn [jobs].
  destruct Hj2. split; [assumption | now rewrite Hbar].
Qed.

End BarInvariant.

Lemma run_events_bar_inv {RT : Runtime} (step : nat -> event -> batch -> M batch)
    (evs : list (nat * event)) :
  (forall i e b w r w', draw_ok e -> bar_inv (jobs b) w ->
     step i e b w = (r, w') ->
     Forall drawable (bar w') /\ forall b', r = Ok b' -> bar_inv (jobs b') w') ->
  Forall (fun ie => draw_ok (snd ie)) evs ->
  forall b w, bar_inv (jobs b) w ->
  Forall drawable (bar (snd (run_events step evs b w))).
Proof.
  intros Hstep. induction 1 as [|[i e] evs He _ IH]; intros b w Hinv.
  - now destruct Hinv.
  - cbn [run_events]. unfold callback. destruct (exit_code w) eqn:Hx; [now apply IH|].
    destruct (step i e b w) as [[b'|msg] w'] eqn:E;
      destruct (Hstep _ _ _ _ _ _ He Hinv E) as [Hb Hj].
    + apply IH. now apply Hj.
    + rewrite (run_events_exited _ _ _ _ 1) by reflexivity. exact Hb.
Qed.

Section DrawnScripts.
Context {RT : Runtime} {RL : RoundingLaws RT}.

Lemma Index_processGIFs_bar_inv (w w0 : world) (b0 : batch) :
  bar w = [] -> Index.processGIFs w = (Ok b0, w0) -> bar_inv (jobs b0) w0.
Proof.
  intros Hb H. unfold Index.processGIFs in H.
  apply bind_Ok in H. destruct H as (files & w1 & Hr & H).
  apply readdirSync_Ok in Hr. destruct Hr as (-> & -> & _).
  match type of H with context [if ?c then _ else _] => destruct c end.
  - run_m in H. inversion H; subst. split; [constructor|]. cbn [bar]. rewrite Hb. constructor.
  - apply bind_Ok in H. destruct H as ([] & w2 & Hl & H).
    run_m in Hl. inversion Hl; subst w2.
    eapply (for_await_bar_inv _ Index_start_zero); [|exact H|reflexivity].
    split; [constructor|]. cbn [bar]. rewrite Hb. constructor.
Qed.

Lemma Legacy_processGIFs_bar_inv (w w0 : world) (b0 : batch) :
  bar w = [] -> Legacy.processGIFs w = (Ok b0, w0) -> bar_inv (jobs b0) w0.
Proof.
  intros Hb H. unfold Legacy.processGIFs in H.
  apply bind_Ok in H. destruct H as (files & w1 & Hr & H).
  apply readdirSync_Ok in Hr. destruct Hr as (-> & -> & _).
  match type of H with context [if ?c then _ else _] => destruct c end.
  - run_m in H. inversion H; subst. split; [constructor|]. cbn [bar]. rewrite Hb. constructor.
  - apply bind_Ok in H. destruct H as ([] & w2 & Hl & H).
    run_m in Hl. inversion Hl; subst w2.
    eapply (for_await_bar_inv _ Legacy_start_zero); [|exact H|reflexivity].
    split; [constructor|]. cbn [bar]. rewrite Hb. constructor.
Qed.

Lemma Pool_processGIFs_bar_inv (w w0 : world) (b0 : batch) :
  bar w = [] -> Pool.processGIFs w = (Ok b0, w0) -> bar_inv (jobs b0) w0.
Proof.
  intros Hb H. unfold Pool.processGIFs in H.
  apply bind_Ok in H. destruct H as (files & w1 & Hr & H).
  apply readdirSync_Ok in Hr. destruct Hr as (-> & -> & _).
  match type of H with context [if ?c then _ else _] => destruct c end.
  - run_m in H. inversion H; subst. split; [constructor|]. cbn [bar]. rewrite Hb. constructor.
  - apply bind_Ok in H. destruct H as ([] & w2 & Hl & H).
    run_m in Hl. inversion Hl; subst w2.
    eapply (pool_submit_bar_inv _ Pool_start_zero); [|exact H].
    cbn [bar]. rewrite Hb. constructor.
Qed.

Lemma Webp_processImages_bar_inv (w w0 : world) (b0 : batch) :
  bar w = [] -> Webp.processImages w = (Ok b0, w0) -> bar_inv (jobs b0) w0.
Proof.
  intros Hb H. unfold Webp.processImages in H.
  apply bind_Ok in H. destruct H as (files & w1 & Hr & H).
  apply readdirSync_Ok in Hr. destruct Hr as (-> & -> & _).
  match type of H with context [if ?c then _ else _] => destruct c end.
  - run_m in H. inversion H; subst. split; [constructor|]. cbn [bar]. rewrite Hb. constructor.
  - apply bind_Ok in H. destruct H as ([] & w2 & Hl & H).
    run_m in Hl. inversion Hl; subst w2.
    eapply (pool_submit_bar_inv _ Webp_start_zero); [|exact H].
    cbn [bar]. rewrite Hb. constructor.
Qed.

Context {EI : ExactIntegers RT}.

Lemma drawable_rendered (columns : option N) (l : list report) :
  Z.of_N (ProgressBar.getTerminalWidth columns) <= 2 ^ 53 ->
  Forall drawable l -> Forall (rendered columns) l.
Proof.
  intros Hw H. eapply Forall_impl; [exact H|]. intros rep [H0 H1].
  destruct (render_some columns rep H0 H1 Hw) as (line & E). now exists line.
Qed.

(** Under each of the four scripts, with the draws of [Math.random()] in
    [0, 1), every percent handed to [updateProgressBar] in a batch is
    between 0 and 100, so the line of every report can be written: the
    renderer never throws, whatever the width of the terminal and the
    interleaving of the events, and also when a handler throws. *)
Theorem every_report_is_drawn (columns : option N) (evs : list (nat * event))
    (w w0 : world) (b0 : batch) :
  Forall (fun ie => draw_ok (snd ie)) evs ->
  bar w = [] ->
  Z.of_N (ProgressBar.getTerminalWidth columns) <= 2 ^ 53 ->
  (Index.processGIFs w = (Ok b0, w0) ->
   Forall (rendered columns) (bar (snd (run_events Index.step evs b0 w0))))
  /\ (Legacy.processGIFs w = (Ok b0, w0) ->
      Forall (rendered columns) (bar (snd (run_events Legacy.step evs b0 w0))))
  /\ (Pool.processGIFs w = (Ok b0, w0) ->
      Forall (rendered columns) (bar (snd (run_events Pool.step evs b0 w0))))
  /\ (Webp.processImages w = (Ok b0, w0) ->
      Forall (rendered columns) (bar (snd (run_events Webp.step evs b0 w0)))).
Proof.
  intros Hd Hb Hw. repeat split; intros H; apply (drawable_rendered columns _ Hw).
  - apply (run_events_bar_inv Index.step evs); auto.
    + intros i e b w1 r w'.
      apply (seq_step_bar_inv _ _ Index_handle_named Index_start_zero).
    + eapply Index_processGIFs_bar_inv; eauto.
  - apply (run_events_bar_inv Legacy.step evs); auto.
    + intros i e b w1 r w'.
      apply (seq_step_bar_inv _ _ Legacy_handle_named Legacy_start_zero).
    + eapply Legacy_processGIFs_bar_inv; eauto.
  - apply (run_events_bar_inv Pool.step evs); auto.
    + intros i e b w1 r w'.
      apply (pool_step_bar_inv _ _ Pool_handle_named Pool_start_zero).
    + eapply Pool_processGIFs_bar_inv; eauto.
  - apply (run_events_bar_inv Webp.step evs); auto.
    + intros i e b w1 r w'.
      apply (pool_step_bar_inv _ _ Webp_handle_named Webp_start_zero).
    + eapply Webp_processImages_bar_inv; eauto.
Qed.

End DrawnScripts.

(** ** The reports of the pooled optimizer *)

Lemma run_events_reports_throw {RT : Runtime} (step : nat -> event -> batch -> M batch)
    (evs : list (nat * event)) :
  (forall i e b w b' w', draw_ok e -> reports_inv (queue b) (jobs b) w ->
     step i e b w = (Ok b', w') -> reports_inv (queue b') (jobs b') w') ->
  (forall i e b w msg w', step i e b w = (Throw msg, w') -> bar w' = bar w) ->
  Forall (fun ie => draw_ok (snd ie)) evs ->
  forall b w,
  reports_inv (queue b) (jobs b) w ->
  let r := run_events step evs b w in
  reports_inv (queue (fst r)) (jobs (fst r)) (snd r).
Proof.
  intros Hstep Hthrow. induction 1 as [|[i e] evs He _ IH]; intros b w Hinv; [exact Hinv|].
  cbn [run_events]. unfold callback. destruct (exit_code w).
  - now apply IH.
  - destruct (step i e b w) as [[b'|msg] w'] eqn:E.
    + apply IH. eapply Hstep; eauto.
    + apply IH. eapply reports_inv_bar; [|exact Hinv].
      cbn [crash bar]. eapply Hthrow; eauto.
Qed.

Section PoolReports.
Context {RT : Runtime} {RL : RoundingLaws RT}.

Lemma quiet_Pool_optimizeGIF t : quiet (Pool.optimizeGIF t).
Proof.
  unfold Pool.optimizeGIF. apply quiet_try_catch; [|intros; apply quiet_ret].
  apply calm_bind; [apply calm_statSync_size | intros sz].
  apply quiet_calm. quiet_steps.
Qed.

(** The only exception of a handler of the pooled optimizer is that of the
    copy of the fallback, which comes before any report. *)
Lemma Pool_handle_throw_bar t e st w msg w' :
  Pool.handle t e st w = (Throw msg, w') -> bar w' = bar w.
Proof.
  intros H. destruct e; cbn [Pool.handle] in H;
    unfold Pool.onInterval, Pool.onClose, Pool.onError in H;
    run_m in H; split_matches H; inversion H; subst; reflexivity.
Qed.

Lemma Pool_step_throw_bar i e b w msg w' :
  Pool.step i e b w = (Throw msg, w') -> bar w' = bar w.
Proof.
  unfold Pool.step, pool_step. intros H. unfold bind at 1 in H.
  destruct (fire Pool.handle i e (jobs b) w) as [[js|m1] w1] eqn:Ef.
  - exfalso. unfold bind at 1 in H.
    destruct (quiet_pLimit Pool.optimizeGIF quiet_Pool_optimizeGIF 4 (queue b) js w1)
      as (qjs & w2 & El & _). rewrite El in H.
    destruct (barrier_total Pool.all_done_message Pool.error_message
                (Batch (fst qjs) (snd qjs) (returned b)) w2) as (b2 & w3 & Eb & _).
    rewrite Eb in H. discriminate.
  - inversion H; subst. unfold fire in Ef.
    destruct (jobs b !! i) as [j|]; [|discriminate].
    unfold bind at 1 in Ef.
    destruct (environment_spec (jtask j) e w) as (w1 & Ee & Hb1 & _).
    rewrite Ee in Ef. unfold bind at 1 in Ef.
    destruct (Pool.handle (jtask j) e (jstate j) w1) as [[st|m2] w2] eqn:Eh;
      [discriminate|].
    inversion Ef; subst. apply Pool_handle_throw_bar in Eh. congruence.
Qed.

Lemma Pool_processGIFs_reports (w w0 : world) (b0 : batch) :
  bar w = [] -> Pool.processGIFs w = (Ok b0, w0) ->
  reports_inv (queue b0) (jobs b0) w0.
Proof.
  intros Hb H. unfold Pool.processGIFs in H.
  apply bind_Ok in H. destruct H as (files & w1 & Hr & H).
  apply readdirSync_Ok in Hr. destruct Hr as (-> & -> & _).
  match type of H with context [if ?c then _ else _] => destruct c end.
  - run_m in H. inversion H; subst. apply reports_inv_nil; [constructor | exact Hb].
  - apply bind_Ok in H. destruct H as ([] & w2 & Hl & H).
    run_m in Hl. inversion Hl; subst w2.
    eapply (pool_submit_reports _ Pool_start_reports); [|exact H].
    apply reports_inv_nil; [|exact Hb].
    rewrite names_of_tasks by reflexivity. apply NoDup_matching.
Qed.

(** The pooled optimizer reports as the other scripts do: in a batch
    started with an empty bar and with the draws of [Math.random()] in
    [0, 1), for every task the percents passed to the progress reporter are
    nondecreasing and never above 100, whatever the interleaving of the
    events of up to four tasks, and also when the copy of the fallback
    throws. *)
Theorem pool_reports_in_order (evs : list (nat * event)) (w w0 : world) (b0 : batch) :
  Forall (fun ie => draw_ok (snd ie)) evs ->
  bar w = [] ->
  Pool.processGIFs w = (Ok b0, w0) ->
  reports_in_order (snd (run_events Pool.step evs b0 w0)).
Proof.
  intros Hd Hb H name. apply (Pool_processGIFs_reports _ _ _ Hb) in H.
  eapply reports_inv_all.
  apply (run_events_reports_throw Pool.step evs); auto.
  - intros i e b w1 b' w'.
    apply (pool_step_reports _ _ Pool_handle_named Pool_start_reports).
  - intros i e b w1 msg w'. apply Pool_step_throw_bar.
Qed.

End PoolReports.

(** ** The promises of the raster converter are never rejected *)

Lemma first_rejected_None (js : list job) :
  Forall unrejected js <-> first_rejected js = None.
Proof.
  induction js as [|j js IH]; cbn [first_rejected]; [split; [reflexivity | constructor]|].
  split.
  - intros H. inversion H as [|? ? Hj Hjs]; subst.
    destruct (promise (jstate j)) as [[o|reason]|] eqn:E; try now apply IH.
    exfalso. exact (Hj reason E).
  - intros H. destruct (promise (jstate j)) as [[o|reason]|] eqn:E; try discriminate;
      (constructor; [unfold unrejected; rewrite E; congruence | now apply IH]).
Qed.

Lemma entries_present (dir f : string) (m : gmap string node) :
  f ∈ NodeFs.entries dir m -> is_Some (m !! NodePath.join dir f).
Proof.
  unfold NodeFs.entries. intros H. apply list_elem_of_omap in H.
  destruct H as (path & Hin & He). apply entry_of_Some in He. subst path.
  apply list_elem_of_fmap in Hin. destruct Hin as ([p nd] & -> & Hin).
  apply elem_of_map_to_list in Hin. cbn. rewrite Hin. eauto.
Qed.

Section NeverRejected.
Context {RT : Runtime}.

Lemma Webp_start_pending (t : task) (w : world) :
  is_Some (fs w !! inputPath t) ->
  exists n w', Webp.convertToWebP t w = (Ok (TState n 0 true None), w')
               /\ fs w' = fs w.
Proof.
  intros [nd E]. unfold Webp.convertToWebP.
  destruct nd as [c|sz]; run_m with E; eexists _, _; split; reflexivity.
Qed.

Lemma Webp_handle_unrejected t e st w st' w' :
  Webp.handle t e st w = (Ok st', w') ->
  fs w' = fs w
  /\ ((forall reason, promise st <> Some (Reject reason)) ->
      forall reason, promise st' <> Some (Reject reason)).
Proof.
  intros H. destruct e; cbn [Webp.handle] in H;
    unfold Webp.onInterval, Webp.onResolved, Webp.onCatch in H;
    run_m in H; split_matches H; inversion H; subst; cbn [fs];
    (split; [reflexivity|]); intros Hu reason;
    unfold resolve, settle, set_progress, clearInterval; cbn [promise];
    try apply Hu;
    destruct (promise st) as [[o|r1]|] eqn:Ep; cbn [promise];
    rewrite ?Ep; try discriminate; try congruence; try (exfalso; eapply Hu; eauto).
Qed.

Lemma environment_keeps_sources (t : task) (e : event) (q : list task) (w w' : world) :
  environment t e w = (Ok tt, w') -> sources_present q w -> sources_present q w'.
Proof.
  intros H Hs. destruct e; cbn [environment] in H; run_m in H; inversion H; subst;
    try exact Hs.
  eapply Forall_impl; [exact Hs|]. intros t0 [nd E]. cbn [fs].
  destruct (decide (outputPath t = inputPath t0)) as [->|Hne].
  - rewrite lookup_insert_eq. eauto.
  - rewrite lookup_insert_ne by exact Hne. eauto.
Qed.

Lemma sources_present_fs (q : list task) (w w' : world) :
  fs w' = fs w -> sources_present q w -> sources_present q w'.
Proof. unfold sources_present. now intros ->. Qed.

Lemma Webp_fire_unrejected (i : nat) (e : event) (q : list task) (js js' : list job)
    (w w' : world) :
  fire Webp.handle i e js w = (Ok js', w') ->
  Forall unrejected js -> sources_present q w ->
  Forall unrejected js' /\ sources_present q w'.
Proof.
  intros H Hu Hs. unfold fire in H. destruct (js !! i) as [j|] eqn:Hi.
  - apply bind_Ok in H. destruct H as ([] & w1 & He & H).
    apply bind_Ok in H. destruct H as (st & w2 & Hh & H).
    apply ret_Ok in H. destruct H as [<- <-].
    apply Webp_handle_unrejected in Hh. destruct Hh as [Hfs Hst].
    split.
    + apply Forall_insert; [exact Hu|]. unfold unrejected. cbn [jstate].
      apply Hst. rewrite Forall_lookup in Hu. exact (Hu i j Hi).
    + eapply sources_present_fs; [exact Hfs|].
      eapply environment_keeps_sources; eauto.
  - apply ret_Ok in H. destruct H as [<- <-]. now split.
Qed.

Lemma Webp_pLimit_unrejected (n : nat) (q : list task) :
  forall js w q' js' w',
  pLimit Webp.convertToWebP n q js w = (Ok (q', js'), w') ->
  Forall unrejected js -> sources_present q w ->
  Forall unrejected js' /\ sources_present q' w'.
Proof.
  induction q as [|t q IH]; intros js w q' js' w' H Hu Hs; cbn [pLimit] in H.
  - apply ret_Ok in H. destruct H as [H <-]. inversion H; subst. now split.
  - destruct (in_progress js <? n)%nat.
    + apply bind_Ok in H. destruct H as (st & w1 & Hst & H).
      inversion Hs as [|? ? Ht Hq]; subst.
      destruct (Webp_start_pending t w Ht) as (sz & w1' & E & Hfs).
      rewrite E in Hst. inversion Hst; subst.
      eapply IH; [exact H| |].
      * apply Forall_app. split; [exact Hu|]. constructor; [|constructor].
        intros reason. discriminate.
      * eapply sources_present_fs; eauto.
    + apply ret_Ok in H. destruct H as [H <-]. inversion H; subst. now split.
Qed.

Lemma barrier_fs (done_msg err_msg : string) (b b' : batch) (w w' : world) :
  barrier done_msg err_msg b w = (Ok b', w') -> fs w' = fs w.
Proof.
  unfold barrier. destruct (returned b); [intros H; now inversion H|].
  destruct (first_rejected (jobs b)).
  - run_m. intros H. now inversion H.
  - destruct (bool_decide (queue b = []) && forallb fulfilled (jobs b));
      run_m; intros H; now inversion H.
Qed.

Lemma Webp_step_unrejected (i : nat) (e : event) (b b' : batch) (w w' : world) :
  Webp.step i e b w = (Ok b', w') ->
  Forall unrejected (jobs b) -> sources_present (queue b) w ->
  Forall unrejected (jobs b') /\ sources_present (queue b') w'.
Proof.
  unfold Webp.step, pool_step. intros H Hu Hs.
  apply bind_Ok in H. destruct H as (js & w1 & Hf & H).
  apply bind_Ok in H. destruct H as ([q' js2] & w2 & Hl & H).
  destruct (Webp_fire_unrejected _ _ _ _ _ _ _ Hf Hu Hs) as [Hu1 Hs1].
  destruct (Webp_pLimit_unrejected _ _ _ _ _ _ _ Hl Hu1 Hs1) as [Hu2 Hs2].
  pose proof (barrier_fs _ _ _ _ _ _ H) as Hfs.
  apply (barrier_spec) in H. cbn [fst snd queue jobs] in H.
  destruct H as (-> & -> & _). split; [exact Hu2|].
  eapply sources_present_fs; eauto.
Qed.

Lemma Webp_run_unrejected (evs : list (nat * event)) :
  forall b w,
  Forall unrejected (jobs b) -> sources_present (queue b) w ->
  Forall unrejected (jobs (fst (run_events Webp.step evs b w))).
Proof.
  induction evs as [|[i e] evs IH]; intros b w Hu Hs; [exact Hu|].
  cbn [run_events]. unfold callback. destruct (exit_code w); [now apply IH|].
  destruct (quiet_Webp_step i e b w) as (b' & w' & E & _). rewrite E.
  destruct (Webp_step_unrejected _ _ _ _ _ _ E Hu Hs). now apply IH.
Qed.

Lemma Webp_processImages_unrejected (w w0 : world) (b0 : batch) :
  Webp.processImages w = (Ok b0, w0) ->
  Forall unrejected (jobs b0) /\ sources_present (queue b0) w0.
Proof.
  intros H. unfold Webp.processImages in H.
  apply bind_Ok in H. destruct H as (files & w1 & Hr & H).
  apply readdirSync_Ok in Hr. destruct Hr as (-> & -> & _).
  match type of H with context [if ?c then _ else _] => destruct c end.
  - run_m in H. inversion H; subst. split; constructor.
  - apply bind_Ok in H. destruct H as ([] & w2 & Hl & H).
    run_m in Hl. inversion Hl; subst w2. unfold pool_submit in H.
    apply bind_Ok in H. destruct H as ([q' js2] & w3 & Hp & H).
    pose proof (barrier_fs _ _ _ _ _ _ H) as Hfs.
    apply (barrier_spec) in H. cbn [fst snd queue jobs] in H.
    destruct H as (-> & -> & _).
    apply Webp_pLimit_unrejected in Hp; [| constructor |].
    + destruct Hp as [Hu Hs]. split; [exact Hu|].
      eapply sources_present_fs; eauto.
    + unfold sources_present. cbn [fs]. apply Forall_forall. intros t Ht.
      apply list_elem_of_In, in_map_iff in Ht. destruct Ht as (f & <- & Hf).
      cbn [Webp.make_task inputPath]. apply entries_present.
      apply list_elem_of_In. apply filter_In in Hf. now destruct Hf.
Qed.

(** In the raster converter every error of a conversion is caught inside
    [convertToWebP], and the source of a task is on the disk when the task
    starts: no promise handed to [Promise.all] is ever rejected.  So the
    [catch] of [processImages] never runs, and the batch function returns
    exactly when every task was started and has ended, with an error or
    without. *)
Theorem webp_never_rejects (evs : list (nat * event)) (w w0 : world) (b0 : batch) :
  Webp.processImages w = (Ok b0, w0) ->
  let b := fst (run_events Webp.step evs b0 w0) in
  first_rejected (jobs b) = None
  /\ (returned b = true <-> queue b = [] /\ forallb fulfilled (jobs b) = true).
Proof.
  intros H b.
  destruct (Webp_processImages_unrejected _ _ _ H) as [Hu Hs].
  assert (Hnone : first_rejected (jobs b) = None).
  { apply first_rejected_None. now apply Webp_run_unrejected. }
  split; [exact Hnone|].
  pose proof (Webp_processImages_state _ _ _ H) as Hst.
  pose proof (pool_state_run Webp.convertToWebP Webp.handle Webp_handle_keeps
                Webp.all_done_message Webp.error_message 4 _ evs b0 w0 Hst)
    as [_ Hbar].
  fold Webp.step in Hbar. fold b in Hbar. unfold first_failure_barrier in Hbar.
  rewrite Hnone in Hbar. rewrite Hbar. split.
  - intros [[x C]|Hall]; [discriminate | exact Hall].
  - intros Hall. now right.
Qed.

End NeverRejected.

(** ** The failure lines of the sequential loop *)

Lemma strip_prefix_self (p x : string) : NodeString.strip_prefix p (p +:+ x) = Some x.
Proof.
  induction p as [|c p IH]; [now destruct x|].
  change (NodeString.strip_prefix (String c p) (String c (p +:+ x)) = Some x).
  cbn [NodeString.strip_prefix]. now rewrite Ascii.eqb_refl.
Qed.

Lemma failure_line_is (t : task) : is_failure_line (failure_line t) = true.
Proof.
  unfold is_failure_line, failure_line. apply bool_decide_eq_true.
  rewrite strip_prefix_self. eauto.
Qed.

Lemma failure_log_app (js js' : list job) :
  failure_log (js ++ js') = failure_log js ++ failure_log js'.
Proof. unfold failure_log. now rewrite List.filter_app, map_app. Qed.

Lemma failure_log_settled (js js' : list job) :
  Forall2 keeps_promise js js' -> Forall settled js ->
  failure_log js' = failure_log js.
Proof.
  induction 1 as [|j j' js js' [Ht Hp] _ IH]; intros Hs; [reflexivity|].
  inversion Hs as [|? ? Hj Hjs]; subst.
  change (j' :: js') with ([j'] ++ js'). change (j :: js) with ([j] ++ js).
  rewrite !failure_log_app, (IH Hjs). f_equal.
  unfold settled, pending in Hj. unfold failure_log, rejected. cbn [List.filter].
  destruct (promise (jstate j)) as [s|] eqn:E; [|discriminate].
  rewrite Hp by discriminate. destruct s; cbn [map]; now rewrite ?Ht.
Qed.

Lemma failure_log_pending (j : job) : pending j = true -> failure_log [j] = [].
Proof.
  unfold pending, failure_log, rejected. cbn [List.filter].
  now destruct (promise (jstate j)).
Qed.

Lemma environment_console (t : task) (e : event) (w w' : world) :
  environment t e w = (Ok tt, w') -> console w' = console w.
Proof.
  destruct e; cbn [environment]; run_m; intros H; now inversion H.
Qed.

Lemma accounted_more (base : list string) (js : list job) (q q' : list task)
    (ret ret' : bool) (w w' : world) (more : list string) :
  accounted base (Batch q js ret) w ->
  console w' = console w ++ more ->
  List.filter is_failure_line more = [] ->
  accounted base (Batch q' js ret') w'.
Proof.
  intros (lines & Hc & Hf) Hm Hn. exists (lines ++ more). cbn [jobs] in *.
  split; [now rewrite Hm, Hc, app_assoc|].
  now rewrite List.filter_app, Hn, app_nil_r.
Qed.

Section Accounting.
Variable start : task -> M tstate.
Variable handle : task -> event -> tstate -> M tstate.

Hypothesis handle_keeps : forall t e st w st' w',
  handle t e st w = (Ok st', w') ->
  promise st <> None -> promise st' = promise st.

Hypothesis handle_lines : forall t e st w st' w',
  handle t e st w = (Ok st', w') ->
  exists new, console w' = console w ++ new
              /\ List.filter is_failure_line new = [].

Hypothesis start_lines : forall t w st w',
  start t w = (Ok st, w') -> console w' = console w.

Lemma onRejection_lines (t : task) (st : tstate) (s : settlement) (w w' : world) :
  promise st = Some s ->
  onRejection t s w = (Ok tt, w') ->
  exists new, console w' = console w ++ new
              /\ List.filter is_failure_line new = failure_log [Job t st].
Proof.
  intros Hp. unfold onRejection, failure_log, rejected. cbn [List.filter jstate].
  rewrite Hp. destruct s as [o|reason]; cbn [is_rejected]; run_m; intros H;
    inversion H; subst; cbn [console].
  - exists []. now rewrite app_nil_r.
  - eexists. split; [reflexivity|]. cbn [List.filter map jtask].
    fold (failure_line t). now rewrite failure_line_is.
Qed.

Lemma for_await_lines (q : list task) :
  forall js w b w',
  for_await start q js w = (Ok b, w') ->
  exists new more, jobs b = js ++ new /\ console w' = console w ++ more
                   /\ List.filter is_failure_line more = failure_log new.
Proof.
  induction q as [|t q IH]; intros js w b w' H; cbn [for_await] in H.
  - run_m in H. inversion H; subst. cbn [jobs console].
    exists [], ["All files optimized successfully!"].
    split; [now rewrite app_nil_r|]. split; reflexivity.
  - apply bind_Ok in H. destruct H as (st & w1 & Hs & H).
    apply start_lines in Hs. destruct (promise st) as [s|] eqn:Hp.
    + apply bind_Ok in H. destruct H as ([] & w2 & Hr & H).
      destruct (onRejection_lines t st s w1 w2 Hp Hr) as (l1 & Hc1 & Hf1).
      destruct (IH _ _ _ _ H) as (new & more & Hj & Hc & Hf).
      exists (Job t st :: new), (l1 ++ more). split; [|split].
      * rewrite Hj, <- app_assoc. reflexivity.
      * rewrite Hc, Hc1, Hs, app_assoc. reflexivity.
      * rewrite List.filter_app, Hf1, Hf.
        change (Job t st :: new) with ([Job t st] ++ new).
        now rewrite failure_log_app.
    + apply ret_Ok in H. destruct H as [<- <-]. cbn [jobs].
      exists [Job t st], []. split; [reflexivity|]. split; [now rewrite app_nil_r, Hs|].
      symmetry. apply failure_log_pending. unfold pending. cbn [jstate]. now rewrite Hp.
Qed.

Lemma fire_lines (i : nat) (e : event) (js js' : list job) (w w' : world) :
  fire handle i e js w = (Ok js', w') ->
  exists new, console w' = console w ++ new
              /\ List.filter is_failure_line new = [].
Proof.
  intros H. unfold fire in H. destruct (js !! i) as [j|].
  - apply bind_Ok in H. destruct H as ([] & w1 & He & H).
    apply bind_Ok in H. destruct H as (st & w2 & Hh & H).
    apply ret_Ok in H. destruct H as [_ <-].
    apply environment_console in He.
    destruct (handle_lines _ _ _ _ _ _ Hh) as (new & Hc & Hf).
    exists new. now rewrite Hc, He.
  - apply ret_Ok in H. destruct H as [_ <-]. exists []. now rewrite app_nil_r.
Qed.

Lemma seq_step_accounted (base : list string) (tasks : list task) (i : nat)
    (e : event) (b b' : batch) (w w' : world) :
  loop_state tasks b -> accounted base b w ->
  seq_step start handle i e b w = (Ok b', w') ->
  accounted base b' w'.
Proof.
  intros (Hord & Hret & Hrun) Hacc H. unfold seq_step in H.
  apply bind_Ok in H. destruct H as (js & w1 & Hf & H).
  pose proof (fire_keeps handle handle_keeps _ _ _ _ _ _ Hf) as Hk.
  destruct (fire_lines _ _ _ _ _ _ Hf) as (new & Hc1 & Hn1).
  destruct Hacc as (lines & Hc & Hl).
  destruct (returned b) eqn:Hr.
  - apply ret_Ok in H. destruct H as [<- <-]. destruct (Hret eq_refl) as [_ Hs].
    exists (lines ++ new). cbn [jobs]. split; [now rewrite Hc1, Hc, app_assoc|].
    rewrite List.filter_app, Hn1, app_nil_r, Hl. symmetry.
    now apply failure_log_settled.
  - destruct (Hrun eq_refl) as (js0 & j & Hjobs & Hj & Hs0).
    rewrite Hjobs in Hk. apply Forall2_app_inv_l in Hk.
    destruct Hk as (js0' & l' & K0 & K1 & Ea).
    inversion K1 as [|j0 j' l0 l'' Kj Knil E1 E2]. inversion Knil. subst.
    rewrite last_snoc in H.
    assert (Hlog0 : failure_log js0' = failure_log (jobs b)).
    { rewrite Hjobs, failure_log_app, (failure_log_pending j Hj), app_nil_r.
      now apply failure_log_settled. }
    destruct (promise (jstate j')) as [s|] eqn:Hp.
    + apply bind_Ok in H. destruct H as ([] & w2 & Hrej & H).
      destruct (onRejection_lines (jtask j') (jstate j') s w1 w2 Hp Hrej)
        as (l1 & Hc2 & Hf1).
      destruct (for_await_lines _ _ _ _ _ H) as (newjobs & more & Hj' & Hc3 & Hf3).
      exists (lines ++ new ++ l1 ++ more). split.
      * rewrite Hc3, Hc2, Hc1, Hc, <- !app_assoc. reflexivity.
      * rewrite !List.filter_app, Hn1, Hf1, Hf3, Hl, Hj', !failure_log_app, Hlog0.
        destruct j' as [t' st']. cbn [app jtask jstate]. now rewrite <- app_assoc.
    + apply ret_Ok in H. destruct H as [<- <-].
      exists (lines ++ new). cbn [jobs]. split; [now rewrite Hc1, Hc, app_assoc|].
      rewrite List.filter_app, Hn1, app_nil_r, Hl, failure_log_app, Hlog0.
      rewrite (failure_log_pending j'); [now rewrite app_nil_r|].
      unfold pending. now rewrite Hp.
Qed.

Hypothesis quiet_start : forall t, quiet (start t).
Hypothesis quiet_handle : forall t e st, quiet (handle t e st).

Lemma run_events_accounted (base : list string) (tasks : list task)
    (evs : list (nat * event)) :
  forall b w,
  loop_state tasks b -> accounted base b w ->
  let r := run_events (seq_step start handle) evs b w in
  accounted base (fst r) (snd r).
Proof.
  induction evs as [|[i e] evs IH]; intros b w Hst Hacc; [exact Hacc|].
  cbn [run_events]. unfold callback. destruct (exit_code w); [now apply IH|].
  destruct (quiet_seq_step start handle quiet_start quiet_handle i e b w)
    as (b' & w' & E & _).
  rewrite E. apply IH.
  - eapply (loop_state_step start handle handle_keeps); eauto.
  - eapply seq_step_accounted; eauto.
Qed.

End Accounting.

Section AccountingScripts.
Context {RT : Runtime}.

Lemma Index_handle_lines t e st w st' w' :
  Index.handle t e st w = (Ok st', w') ->
  exists new, console w' = console w ++ new
              /\ List.filter is_failure_line new = [].
Proof.
  intros H. destruct e; cbn [Index.handle] in H;
    unfold Index.onInterval, Index.onClose, Index.onError in H;
    run_m in H; split_matches H; inversion H; subst; cbn [console];
    first [ now (exists []; rewrite app_nil_r) | now (exists [""]) ].
Qed.

Lemma Legacy_handle_lines t e st w st' w' :
  Legacy.handle t e st w = (Ok st', w') ->
  exists new, console w' = console w ++ new
              /\ List.filter is_failure_line new = [].
Proof.
  intros H. destruct e; cbn [Legacy.handle] in H;
    unfold Legacy.onInterval, Legacy.onClose, Legacy.onError in H;
    run_m in H; split_matches H; inversion H; subst; cbn [console];
    first [ now (exists []; rewrite app_nil_r) | now (exists [""]) ].
Qed.

Lemma Index_start_lines t w st w' :
  Index.optimizeGIF t w = (Ok st, w') -> console w' = console w.
Proof.
  unfold Index.optimizeGIF. run_m.
  destruct (fs w !! inputPath t) as [[c|sz]|]; run_m; intros H; now inversion H.
Qed.

Lemma Legacy_start_lines t w st w' :
  Legacy.optimizeGIF t w = (Ok st, w') -> console w' = console w.
Proof. unfold Legacy.optimizeGIF. run_m. intros H. now inversion H. Qed.

Lemma found_line_is_not_failure (n : N) (what : string) :
  is_failure_line ("Found " +:+ NodeString.show_N n +:+ what) = false.
Proof. reflexivity. Qed.

Lemma Index_processGIFs_accounted (w w0 : world) (b0 : batch) :
  Index.processGIFs w = (Ok b0, w0) -> accounted (console w) b0 w0.
Proof.
  intros H. unfold Index.processGIFs in H.
  apply bind_Ok in H. destruct H as (files & w1 & Hr & H).
  apply readdirSync_Ok in Hr. destruct Hr as (-> & -> & _).
  match type of H with context [if ?c then _ else _] => destruct c end.
  - run_m in H. inversion H; subst. eexists. split; [reflexivity|]. reflexivity.
  - apply bind_Ok in H. destruct H as ([] & w2 & Hl & H).
    run_m in Hl. inversion Hl; subst w2.
    destruct (for_await_lines _ Index_start_lines _ _ _ _ _ H)
      as (new & more & Hj & Hc & Hf).
    cbn [console] in Hc. eexists. split; [rewrite Hc, <- app_assoc; reflexivity|].
    rewrite Hj. cbn [app List.filter]. rewrite found_line_is_not_failure. exact Hf.
Qed.

Lemma Legacy_processGIFs_accounted (w w0 : world) (b0 : batch) :
  Legacy.processGIFs w = (Ok b0, w0) -> accounted (console w) b0 w0.
Proof.
  intros H. unfold Legacy.processGIFs in H.
  apply bind_Ok in H. destruct H as (files & w1 & Hr & H).
  apply readdirSync_Ok in Hr. destruct Hr as (-> & -> & _).
  match type of H with context [if ?c then _ else _] => destruct c end.
  - run_m in H. inversion H; subst. eexists. split; [reflexivity|]. reflexivity.
  - apply bind_Ok in H. destruct H as ([] & w2 & Hl & H).
    run_m in Hl. inversion Hl; subst w2.
    destruct (for_await_lines _ Legacy_start_lines _ _ _ _ _ H)
      as (new & more & Hj & Hc & Hf).
    cbn [console] in Hc. eexists. split; [rewrite Hc, <- app_assoc; reflexivity|].
    rewrite Hj. cbn [app List.filter]. rewrite found_line_is_not_failure. exact Hf.
Qed.

End AccountingScripts.

(** The console of a sequential script accounts for its failures: of the
    lines printed since the batch function was called, those that report a
    failure are one line for each task rejected so far, in the order of the
    tasks, whatever the events.  A line is printed when the loop reaches
    the task, never twice, and never for a task that was fulfilled. *)
Theorem failures_are_logged_once {RT : Runtime} (evs : list (nat * event))
    (w w0 : world) (b0 : batch) :
  (Index.processGIFs w = (Ok b0, w0) ->
   let r := run_events Index.step evs b0 w0 in
   exists lines, console (snd r) = console w ++ lines
                 /\ List.filter is_failure_line lines = failure_log (jobs (fst r)))
  /\ (Legacy.processGIFs w = (Ok b0, w0) ->
      let r := run_events Legacy.step evs b0 w0 in
      exists lines, console (snd r) = console w ++ lines
                    /\ List.filter is_failure_line lines = failure_log (jobs (fst r))).
Proof.
  split; intros H.
  - apply (run_events_accounted Index.optimizeGIF Index.handle Index_handle_keeps
             Index_handle_lines Index_start_lines
             quiet_Index_optimizeGIF quiet_Index_handle (console w)
             (map Index.make_task (matching is_gif Index.inputDir w))).
    + eapply Index_processGIFs_state; eauto.
    + now apply Index_processGIFs_accounted.
  - apply (run_events_accounted Legacy.optimizeGIF Legacy.handle Legacy_handle_keeps
             Legacy_handle_lines Legacy_start_lines
             quiet_Legacy_optimizeGIF quiet_Legacy_handle (console w)
             (map Legacy.make_task (matching is_gif Legacy.inputDir w))).
    + eapply Legacy_processGIFs_state; eauto.
    + now apply Legacy_processGIFs_accounted.
Qed.

(** ** The output directory *)

(** Ensuring the output directory never throws and leaves every other path
    alone; afterwards the path exists.  A path that is already there is not
    looked at any further: a second run only asks whether it exists, and a
    regular file standing at the path is taken for the directory. *)
Theorem ensureOutputDir_total (out : string) (w : world) :
  exists w',
    ensureOutputDir out w = (Ok tt, w')
    /\ is_Some (fs w' !! out)
    /\ (forall p, p <> out -> fs w' !! p = fs w !! p)
    /\ (is_Some (fs w !! out) ->
        w' = World (fs w) (console w) (bar w) (ops w ++ [SysExists out]) (exit_code w))
    /\ ensureOutputDir out w'
       = (Ok tt, World (fs w') (console w') (bar w') (ops w' ++ [SysExists out])
                       (exit_code w')).
Proof.
  unfold ensureOutputDir. run_m.
  destruct (fs w !! out) as [[c|sz]|] eqn:E.
  - run_m with E. eexists. split; [reflexivity|]. cbn [fs console bar ops exit_code].
    split; [rewrite E; eauto|]. split; [reflexivity|]. split; [reflexivity|].
    run_m with E. reflexivity.
  - run_m with E. eexists. split; [reflexivity|]. cbn [fs console bar ops exit_code].
    split; [rewrite E; eauto|]. split; [reflexivity|]. split; [reflexivity|].
    run_m with E. reflexivity.
  - run_m with E. eexists. split; [reflexivity|]. cbn [fs console bar ops exit_code].
    split; [rewrite lookup_insert_eq; eauto|].
    split; [intros p Hp; now rewrite lookup_insert_ne|].
    split; [intros [x C]; discriminate|].
    rewrite lookup_insert_eq. reflexivity.
Qed.

(** ** What decides the outcome of an optimizer task *)

Lemma size_or_value (p : string) (dflt : N) (w : world) :
  exists w1,
    size_or p dflt w
    = (Ok (match fs w !! p with Some nd => node_size nd | None => dflt end), w1)
    /\ fs w1 = fs w.
Proof.
  unfold size_or. run_m.
  destruct (fs w !! p) as [[c|sz]|] eqn:E; run_m with E; eexists; split; reflexivity.
Qed.

Section ExitCodes2.
Context {RT : Runtime}.

(** In index.js and in the first optimizer the exit code alone decides:
    code 0 fulfils the promise, whether gifsicle wrote its output or not,
    and any other code rejects it with a message that names the file and
    the code; an 'error' of the child rejects it with that error.  The
    handlers write nothing to the file system. *)
Theorem sequential_outcome_is_exit_code (t : task) (code : Z) (err : string)
    (st : tstate) (w : world) :
  promise st = None ->
  let verdict :=
    if code =? 0 then Fulfil Succeeded
    else Reject ("Optimization failed for " +:+ fileName t
                 +:+ " with exit code " +:+ show_Z code) in
  (exists st' w', Index.handle t (Close code) st w = (Ok st', w')
                  /\ promise st' = Some verdict /\ fs w' = fs w)
  /\ (exists st' w', Legacy.handle t (Close code) st w = (Ok st', w')
                     /\ promise st' = Some verdict /\ fs w' = fs w)
  /\ (exists st', Index.handle t (SpawnError err) st w = (Ok st', w)
                  /\ promise st' = Some (Reject err))
  /\ (exists st', Legacy.handle t (SpawnError err) st w = (Ok st', w)
                  /\ promise st' = Some (Reject err)).
Proof.
  intros Hp verdict. subst verdict. repeat split.
  - cbn [Index.handle]. unfold Index.onClose. unfold bind at 1.
    destruct (size_or_spec (outputPath t) (originalSize (clearInterval st)) w)
      as (n & w1 & -> & _ & Hfs & _).
    run_m. destruct (code =? 0); eexists _, _; (split; [reflexivity|]);
      unfold resolve, reject, settle; cbn [clearInterval promise fs];
      rewrite Hp; cbn [promise]; now split.
  - cbn [Legacy.handle]. unfold Legacy.onClose.
    destruct (code =? 0); run_m; eexists _, _; (split; [reflexivity|]);
      unfold resolve, reject, settle; cbn [clearInterval promise fs];
      rewrite Hp; cbn [promise]; now split.
  - cbn [Index.handle]. unfold Index.onError. run_m. eexists. split; [reflexivity|].
    unfold reject, settle. cbn [clearInterval promise]. now rewrite Hp.
  - cbn [Legacy.handle]. unfold Legacy.onError. run_m. eexists. split; [reflexivity|].
    unfold reject, settle. cbn [clearInterval promise]. now rewrite Hp.
Qed.

(** In the pooled optimizer the size is looked at first: the promise of a
    pending task is rejected at 'close' exactly when the exit code is not 0
    and the destination is there and strictly smaller than the original
    size; in every other case in which the handler returns, the promise is
    fulfilled. *)
Theorem pool_rejects_iff (t : task) (code : Z) (st st' : tstate) (w w' : world) :
  promise st = None ->
  Pool.handle t (Close code) st w = (Ok st', w') ->
  ((exists reason, promise st' = Some (Reject reason)) <->
   code <> 0 /\ exists nd, fs w !! outputPath t = Some nd
                           /\ (node_size nd < originalSize st)%N)
  /\ ((exists o, promise st' = Some (Fulfil o)) <->
      code = 0 \/ forall nd, fs w !! outputPath t = Some nd ->
                             (originalSize st <= node_size nd)%N).
Proof.
  intros Hp H. cbn [Pool.handle] in H. unfold Pool.onClose in H.
  unfold bind at 1 in H.
  destruct (size_or_value (outputPath t) (originalSize (clearInterval st)) w)
    as (w1 & E1 & Hfs). rewrite E1 in H. clear E1.
  cbn [clearInterval originalSize] in H.
  set (n := match fs w !! outputPath t with
            | Some nd => node_size nd
            | None => originalSize st
            end) in H.
  assert (Hres : ((originalSize st <= n)%N ->
                  promise st' = Some (Fulfil SucceededViaFallback))
                 /\ ((n < originalSize st)%N ->
                     (code = 0 -> promise st' = Some (Fulfil Succeeded))
                     /\ (code <> 0 -> exists reason, promise st' = Some (Reject reason)))).
  { destruct (N.leb_spec (originalSize st) n) as [Hle|Hlt].
    - split; [intros _|lia].
      run_m in H. split_matches H; inversion H; subst;
        unfold resolve, settle; cbn [clearInterval promise]; now rewrite Hp.
    - split; [lia|intros _].
      run_m in H. destruct (Z.eqb_spec code 0) as [->|Hne]; inversion H; subst;
        unfold resolve, reject, settle; cbn [clearInterval promise]; rewrite Hp;
        (split; [intros C | intros C]); try reflexivity; try contradiction; eauto;
        try congruence. }
  destruct Hres as [Hfall Hrun]. clear H.
  destruct (fs w !! outputPath t) as [nd|] eqn:E; subst n.
  - destruct (N.le_gt_cases (originalSize st) (node_size nd)) as [Hle|Hlt].
    + specialize (Hfall Hle). rewrite Hfall. split; split.
      * intros [x C]. discriminate.
      * intros [_ (nd0 & End & Hn)]. inversion End; subst. lia.
      * intros _. right. intros nd0 End. inversion End; subst. exact Hle.
      * intros _. eauto.
    + destruct (Hrun Hlt) as [Hz Hnz]. destruct (Z.eq_dec code 0) as [Hc|Hc].
      * rewrite (Hz Hc). split; split.
        -- intros [x C]. discriminate.
        -- intros [C _]. contradiction.
        -- intros _. now left.
        -- intros _. eauto.
      * destruct (Hnz Hc) as (reason & Hr). rewrite Hr. split; split.
        -- intros _. split; [exact Hc|]. eauto.
        -- intros _. eauto.
        -- intros [x C]. discriminate.
        -- intros [C | Hall]; [contradiction|]. specialize (Hall nd eq_refl). lia.
  - specialize (Hfall (N.le_refl _)). rewrite Hfall. split; split.
    + intros [x C]. discriminate.
    + intros [_ (nd & C & _)]. discriminate.
    + intros _. right. intros nd C. discriminate.
    + intros _. eauto.
Qed.

End ExitCodes2.

(** ** Concrete runs *)

(** Exact arithmetic leaves the integers alone. *)
Lemma exact_integers : ExactIntegers Example.host.
Proof. intros n _. apply Qeq_refl. Qed.

(** A bar of 40 cells at 37.5 percent. *)
Lemma progress_bar_cells_witness :
  exists bar, ProgressBar.cells (RT := Example.host) (75 # 2) 40 = Ok bar
              /\ ProgressBar.len bar = 40 + 2.
Proof.
  apply (proj2 (proj2 (progress_bar_cells (RT := Example.host)
                         (RL := exact_rounding_laws) (EI := exact_integers)
                         (75 # 2) 40
                         ltac:(vm_compute; discriminate)
                         ltac:(vm_compute; discriminate)
                         ltac:(lia)))).
Defined.

(** a.gif at 37.5 percent, 5 bytes down to 3, on a terminal of 80
    columns: a line of 75 characters. *)
Lemma render_line_width_witness :
  exists line,
    ProgressBar.render (RT := Example.host) (Some 80%N)
      (Report "a.gif" (75 # 2) (Some (5%N, 3%N))) = Ok line
    /\ ProgressBar.len line = 75.
Proof.
  destruct (render_line_width (RT := Example.host)
              (RL := exact_rounding_laws) (EI := exact_integers)
              (Some 80%N) (Report "a.gif" (75 # 2) (Some (5%N, 3%N)))
              ltac:(vm_compute; discriminate)
              ltac:(vm_compute; discriminate)
              ltac:(vm_compute; discriminate)) as (line & E & L).
  exists line. split; [exact E|]. rewrite L. vm_compute. reflexivity.
Defined.

Lemma bar_full_and_empty_witness :
  ProgressBar.cells (RT := Example.host) 100 10 = Ok "[##########]"
  /\ ProgressBar.cells (RT := Example.host) 0 10 = Ok "[----------]".
Proof.
  apply (bar_full_and_empty (RT := Example.host)
           (RL := exact_rounding_laws) (EI := exact_integers) 10).
  lia.
Defined.

Lemma bar_grows_with_progress_witness :
  ProgressBar.completedWidth (RT := Example.host) 30 40
  <= ProgressBar.completedWidth (RT := Example.host) 60 40.
Proof.
  apply (bar_grows_with_progress (RT := Example.host) (RL := exact_rounding_laws)
           30 60 40).
  - vm_compute. discriminate.
  - lia.
Defined.

Lemma gif_filter_exact_witness : is_gif "clip.v2.GiF" = true.
Proof.
  apply (proj2 (gif_filter_exact "clip.v2.GiF")).
  exists "clip.v2", ".GiF". split; [reflexivity|]. split; [discriminate | reflexivity].
Defined.

Lemma raster_filter_exact_witness : is_raster "photo.JPeG" = true.
Proof.
  apply (proj2 (raster_filter_exact "photo.JPeG")). right. left. reflexivity.
Defined.

(** The first optimizer on two GIF files when gifsicle is not on the
    search path. *)
Lemma legacy_version_check_gates_batch_witness :
  let r := Legacy.main (RT := Example.host) (LaunchFailed 2) [(0%nat, Close 0)]
             Example.two_gifs in
  fst r = None /\ console (snd r) = [Legacy.not_installed].
Proof.
  intros r.
  destruct (legacy_version_check_gates_batch (RT := Example.host) (LaunchFailed 2)
              [(0%nat, Close 0)] Example.two_gifs eq_refl ltac:(discriminate))
    as (H1 & _ & _ & _ & H2).
  split; [exact H1 | exact (H2 2%positive eq_refl)].
Defined.

(** index.js when [gifsicle --version] exits with code 1. *)
Lemma failed_precheck_exits_zero_witness :
  let r := Index.main (RT := Example.host) (Exited 1) [] Example.two_gifs in
  exit_status (snd r) = 0 /\ console (snd r) = [].
Proof.
  intros r.
  destruct (failed_precheck_exits_zero (RT := Example.host) (Exited 1) []
              Example.two_gifs eq_refl ltac:(discriminate)) as [[H1 H2] _].
  split; [exact H1 | exact (H2 1 eq_refl)].
Defined.

(** The pooled optimizer in a directory without [input/]. *)
Lemma pooled_missing_input_witness :
  let r := Pool.main (RT := Example.host) (Exited 0) [] (Example.world_of []) in
  fst r = None /\ exit_status (snd r) = 1 /\ fs (snd r) = ∅.
Proof.
  intros r. subst r.
  rewrite (proj1 (pooled_missing_input (RT := Example.host) (Exited 0) []
                    (Example.world_of []) eq_refl) eq_refl).
  repeat split.
Defined.

(** index.js in a directory without [input/]. *)
Lemma sequential_missing_input_witness :
  let r := Index.main (RT := Example.host) (Exited 0) [] (Example.world_of []) in
  fst r = None /\ exit_status (snd r) = 1
  /\ is_Some (fs (snd r) !! "/app/output").
Proof.
  intros r.
  destruct (proj1 (sequential_missing_input (RT := Example.host) []
                     (Example.world_of []) eq_refl) eq_refl)
    as (H1 & H2 & H3 & _).
  split; [exact H1|]. split; [exact H2 | exact H3].
Defined.

(** The task of a.gif under index.js: a tick after the close of its
    child. *)
Lemma no_tick_after_the_end_witness :
  let t := Index.make_task (RT := Example.host) "a.gif" in
  let p := Index.handle (RT := Example.host) t (Close 0) (TState 5 0 true None)
             Example.two_gifs in
  Index.handle (RT := Example.host) t (Tick (1 # 2)) (Example.state_of p) (snd p)
  = (Ok (Example.state_of p), snd p).
Proof.
  intros t p.
  apply (proj1 (proj1 (no_tick_after_the_end (RT := Example.host) t (Close 0)
                         (TState 5 0 true None) (Example.state_of p)
                         Example.two_gifs (snd p) (1 # 2)) I)).
  vm_compute. reflexivity.
Defined.

(** A fulfilled task of index.js receives the close of a child with code 1
    and an error. *)
Lemma outcomes_are_final_witness :
  let j := Job (Index.make_task (RT := Example.host) "a.gif")
               (TState 5 0 false (Some (Fulfil Succeeded))) in
  exists j',
    jobs (fst (run_events (Index.step (RT := Example.host))
                 [(0%nat, Close 1); (0%nat, SpawnError "EPIPE")]
                 (Batch [] [j] true) Example.two_gifs)) !! 0%nat = Some j'
    /\ jtask j' = jtask j /\ promise (jstate j') = Some (Fulfil Succeeded).
Proof.
  intros j.
  apply (proj1 (outcomes_are_final (RT := Example.host)
                  [(0%nat, Close 1); (0%nat, SpawnError "EPIPE")]
                  (Batch [] [j] true) Example.two_gifs 0%nat j (Fulfil Succeeded)
                  eq_refl eq_refl)).
Defined.

(** index.js on a.gif and b.gif: gifsicle fails on the first and succeeds
    on the second. *)
Lemma loop_ends_with_success_line_witness :
  let p := Example.started (Index.processGIFs (RT := Example.host)) Example.two_gifs in
  let r := run_events (Index.step (RT := Example.host))
             ([(0%nat, Close 1)] ++ [(1%nat, Close 0)]) (fst p) (snd p) in
  last (console (snd r)) = Some "All files optimized successfully!"
  /\ is_Some (first_rejected (jobs (fst r))).
Proof.
  intros p r. split.
  - apply (proj1 (loop_ends_with_success_line (RT := Example.host)
                    [(0%nat, Close 1)] 1%nat (Close 0) (fst p) (snd p)));
      vm_compute; reflexivity.
  - vm_compute. eauto.
Defined.

Lemma every_report_is_drawn_witness :
  let p := Example.started (Index.processGIFs (RT := Example.host)) Example.two_gifs in
  Forall (rendered (RT := Example.host) (Some 80%N))
    (bar (snd (run_events (Index.step (RT := Example.host)) Example.batch_ticks
                 (fst p) (snd p)))).
Proof.
  intros p.
  assert (Hd : Forall (fun ie => draw_ok (snd ie)) Example.batch_ticks).
  { repeat constructor; vm_compute; discriminate. }
  apply (proj1 (every_report_is_drawn (RT := Example.host)
                  (RL := exact_rounding_laws) (EI := exact_integers)
                  (Some 80%N) Example.batch_ticks Example.two_gifs (snd p) (fst p)
                  Hd eq_refl ltac:(vm_compute; discriminate))).
  vm_compute. reflexivity.
Defined.

Lemma pool_reports_in_order_witness :
  let p := Example.started (Pool.processGIFs (RT := Example.host)) Example.two_gifs in
  reports_in_order
    (snd (run_events (Pool.step (RT := Example.host)) Example.batch_ticks
            (fst p) (snd p))).
Proof.
  intros p.
  assert (Hd : Forall (fun ie => draw_ok (snd ie)) Example.batch_ticks).
  { repeat constructor; vm_compute; discriminate. }
  apply (pool_reports_in_order (RT := Example.host) (RL := exact_rounding_laws)
           Example.batch_ticks Example.two_gifs (snd p) (fst p) Hd eq_refl).
  vm_compute. reflexivity.
Defined.

(** The raster converter on a.jpg and a.png: sharp fails on the first. *)
Lemma webp_never_rejects_witness :
  let p := Example.started (Webp.processImages (RT := Example.host))
             Example.two_rasters in
  first_rejected
    (jobs (fst (run_events (Webp.step (RT := Example.host))
                  [(0%nat, Rejected "unsupported image format")] (fst p) (snd p))))
  = None.
Proof.
  intros p.
  apply (webp_never_rejects (RT := Example.host)
           [(0%nat, Rejected "unsupported image format")]
           Example.two_rasters (snd p) (fst p)).
  vm_compute. reflexivity.
Defined.

Lemma failures_are_logged_once_witness :
  let p := Example.started (Index.processGIFs (RT := Example.host)) Example.two_gifs in
  let r := run_events (Index.step (RT := Example.host))
             [(0%nat, Close 1); (1%nat, Close 0)] (fst p) (snd p) in
  exists lines,
    console (snd r) = console Example.two_gifs ++ lines
    /\ List.filter is_failure_line lines = failure_log (jobs (fst r)).
Proof.
  intros p r.
  apply (proj1 (failures_are_logged_once (RT := Example.host)
                  [(0%nat, Close 1); (1%nat, Close 0)]
                  Example.two_gifs (snd p) (fst p))).
  vm_compute. reflexivity.
Defined.

Lemma sequential_outcome_is_exit_code_witness :
  exists st' w',
    Index.handle (RT := Example.host) (Index.make_task (RT := Example.host) "a.gif")
      (Close 3) (TState 5 0 true None) Example.two_gifs = (Ok st', w')
    /\ promise st' = Some (Reject "Optimization failed for a.gif with exit code 3")
    /\ fs w' = fs Example.two_gifs.
Proof.
  apply (proj1 (sequential_outcome_is_exit_code (RT := Example.host)
                  (Index.make_task (RT := Example.host) "a.gif") 3 ""
                  (TState 5 0 true None) Example.two_gifs eq_refl)).
Defined.

(** The pooled optimizer: gifsicle wrote 2 bytes for the 5 of a.gif and
    exited with code 1. *)
Lemma pool_rejects_iff_witness :
  let t := Pool.make_task (RT := Example.host) "a.gif" in
  let w := Example.world_of [("/app/input/a.gif", File (Example.bytes 5));
                             ("/app/output/a.gif", File (Example.bytes 2))] in
  let p := Pool.handle (RT := Example.host) t (Close 1) (TState 5 0 true None) w in
  exists reason, promise (Example.state_of p) = Some (Reject reason).
Proof.
  intros t w p.
  apply (proj2 (proj1 (pool_rejects_iff (RT := Example.host) t 1
                         (TState 5 0 true None) (Example.state_of p) w (snd p)
                         eq_refl ltac:(vm_compute; reflexivity)))).
  split; [lia|]. exists (File (Example.bytes 2)).
  split; [reflexivity | vm_compute; reflexivity].
Defined.

(** ** The last line of a pooled batch *)

Lemma barrier_last_line (done_msg err_msg : string) (b b' : batch) (w w' : world) :
  barrier done_msg err_msg b w = (Ok b', w') ->
  returned b = false -> returned b' = true ->
  jobs b' = jobs b
  /\ last (console w')
     = Some (match first_rejected (jobs b) with
             | Some reason => err_msg +:+ " " +:+ reason
             | None => done_msg
             end).
Proof.
  unfold barrier. intros H Hb Hr. rewrite Hb in H.
  destruct (first_rejected (jobs b)) as [reason|].
  - run_m in H. inversion H; subst. cbn [jobs console]. split; [reflexivity|].
    apply last_snoc.
  - destruct (bool_decide (queue b = []) && forallb fulfilled (jobs b));
      run_m in H; inversion H; subst; cbn [jobs console returned] in *.
    + split; [reflexivity | apply last_snoc].
    + congruence.
Qed.

Lemma pool_step_last_line (start : task -> M tstate)
    (handle : task -> event -> tstate -> M tstate) (done_msg err_msg : string)
    (n i : nat) (e : event) (b b' : batch) (w w' : world) :
  pool_step start handle done_msg err_msg n i e b w = (Ok b', w') ->
  returned b = false -> returned b' = true ->
  last (console w')
  = Some (match first_rejected (jobs b') with
          | Some reason => err_msg +:+ " " +:+ reason
          | None => done_msg
          end).
Proof.
  intros H Hb Hr. unfold pool_step in H.
  apply bind_Ok in H. destruct H as (js & w1 & _ & H).
  apply bind_Ok in H. destruct H as (qjs & w2 & _ & H).
  destruct (barrier_last_line _ _ _ _ _ _ H Hb Hr) as [Hj Hl].
  rewrite Hj. exact Hl.
Qed.

Lemma run_events_pool_last_line (start : task -> M tstate)
    (handle : task -> event -> tstate -> M tstate) (done_msg err_msg : string)
    (n : nat) (evs : list (nat * event)) (i : nat) (e : event)
    (b : batch) (w : world) :
  let step := pool_step start handle done_msg err_msg n in
  let r := run_events step evs b w in
  let r' := run_events step (evs ++ [(i, e)]) b w in
  returned (fst r) = false -> returned (fst r') = true ->
  last (console (snd r'))
  = Some (match first_rejected (jobs (fst r')) with
          | Some reason => err_msg +:+ " " +:+ reason
          | None => done_msg
          end).
Proof.
  intros step r r' Hb Hr. subst r'. rewrite run_events_snoc in Hr |- *.
  fold r in Hr |- *. unfold callback in Hr |- *. destruct (exit_code (snd r)).
  - cbn [fst] in Hr. congruence.
  - destruct (step i e (fst r) (snd r)) as [[b'|msg] w'] eqn:E.
    + cbn [fst snd] in Hr |- *. eapply pool_step_last_line; eauto.
    + cbn [fst] in Hr. congruence.
Qed.

(** The event at which the batch function of a pooled script returns
    leaves one final line as the last line of the console: the error line
    with the reason of the first rejected task when a promise was
    rejected, the success line otherwise. *)
Theorem pool_ends_with_one_line {RT : Runtime} (evs : list (nat * event))
    (i : nat) (e : event) (b : batch) (w : world) :
  (returned (fst (run_events Pool.step evs b w)) = false ->
   returned (fst (run_events Pool.step (evs ++ [(i, e)]) b w)) = true ->
   last (console (snd (run_events Pool.step (evs ++ [(i, e)]) b w)))
   = Some (match first_rejected
                   (jobs (fst (run_events Pool.step (evs ++ [(i, e)]) b w))) with
           | Some reason => Pool.error_message +:+ " " +:+ reason
           | None => Pool.all_done_message
           end))
  /\ (returned (fst (run_events Webp.step evs b w)) = false ->
      returned (fst (run_events Webp.step (evs ++ [(i, e)]) b w)) = true ->
      last (console (snd (run_events Webp.step (evs ++ [(i, e)]) b w)))
      = Some (match first_rejected
                      (jobs (fst (run_events Webp.step (evs ++ [(i, e)]) b w))) with
              | Some reason => Webp.error_message +:+ " " +:+ reason
              | None => Webp.all_done_message
              end)).
Proof.
  split.
  - apply (run_events_pool_last_line Pool.optimizeGIF Pool.handle).
  - apply (run_events_pool_last_line Webp.convertToWebP Webp.handle).
Qed.

(** The pooled optimizer on a.gif and b.gif: gifsicle writes one byte for
    a.gif and exits with code 1. *)
Lemma pool_ends_with_one_line_witness :
  let p := Example.started (Pool.processGIFs (RT := Example.host)) Example.two_gifs in
  let r := run_events (Pool.step (RT := Example.host))
             ([(0%nat, Produced (Example.bytes 1))] ++ [(0%nat, Close 1)])
             (fst p) (snd p) in
  last (console (snd r))
  = Some (Pool.error_message
          +:+ " 🔴 Optimization failed for a.gif with exit code 1").
Proof.
  intros p r.
  pose proof (proj1 (pool_ends_with_one_line (RT := Example.host)
                       [(0%nat, Produced (Example.bytes 1))] 0%nat (Close 1)
                       (fst p) (snd p))
                ltac:(vm_compute; reflexivity) ltac:(vm_compute; reflexivity)) as H.
  subst r. rewrite H. vm_compute. reflexivity.
Defined.

(** ** The exit status of the sequential scripts *)

Section SequentialExit.
Context {RT : Runtime}.

Lemma Index_processGIFs_Dir (sz : N) (w : world) :
  fs w !! Index.inputDir = Some (Dir sz) ->
  exists b w', Index.processGIFs w = (Ok b, w') /\ exit_code w' = exit_code w.
Proof.
  intros E. unfold Index.processGIFs. unfold bind at 1.
  rewrite (readdirSync_Dir _ _ _ E).
  match goal with |- context [(if ?c then _ else _) ?w1] => destruct c end.
  - run_m. now eexists _, _.
  - match goal with |- exists b w', ?m ?w1 = _ /\ _ =>
      assert (Hq : quiet m)
    end.
    { apply quiet_bind; [apply quiet_console_log | intros _].
      apply quiet_for_await. apply quiet_Index_optimizeGIF. }
    match goal with |- exists b w', ?m ?w1 = _ /\ _ =>
      destruct (Hq w1) as (b & w' & Hb & Hx)
    end.
    exists b, w'. split; [exact Hb | exact Hx].
Qed.

Lemma Legacy_processGIFs_Dir (sz : N) (w : world) :
  fs w !! Legacy.inputDir = Some (Dir sz) ->
  exists b w', Legacy.processGIFs w = (Ok b, w') /\ exit_code w' = exit_code w.
Proof.
  intros E. unfold Legacy.processGIFs. unfold bind at 1.
  rewrite (readdirSync_Dir _ _ _ E).
  match goal with |- context [(if ?c then _ else _) ?w1] => destruct c end.
  - run_m. now eexists _, _.
  - match goal with |- exists b w', ?m ?w1 = _ /\ _ =>
      assert (Hq : quiet m)
    end.
    { apply quiet_bind; [apply quiet_console_log | intros _].
      apply quiet_for_await. apply quiet_Legacy_optimizeGIF. }
    match goal with |- exists b w', ?m ?w1 = _ /\ _ =>
      destruct (Hq w1) as (b & w' & Hb & Hx)
    end.
    exists b, w'. split; [exact Hb | exact Hx].
Qed.

Lemma run_script_exit (top : M unit) (processGIFs : M batch) (not_installed : string)
    (step : nat -> event -> batch -> M batch) (check : spawn_result)
    (evs : list (nat * event)) (w w1 : world) :
  callback top tt w = (tt, w1) -> exit_code w1 = None ->
  (exists b w2, processGIFs w1 = (Ok b, w2) /\ exit_code w2 = None) ->
  (forall i e b, quiet (step i e b)) ->
  exit_code (snd (run_script top processGIFs not_installed step check evs w)) = None.
Proof.
  intros Ht Hx (b & w2 & Hp & Hx2) Hq.
  assert (Hdec : check = Exited 0 \/ check <> Exited 0).
  { destruct check as [errno|code]; [right; discriminate|].
    destruct (Z.eq_dec code 0) as [->|Hne]; [now left | right; congruence]. }
  destruct Hdec as [->|Hc].
  - unfold run_script. rewrite Ht. cbn [child_events run_check].
    unfold callback, onCheckEvent. rewrite Hx. cbn [Z.eqb]. unfold bind.
    rewrite Hp. unfold ret.
    destruct (run_events step evs b w2) as [b' w3] eqn:E. cbn [snd].
    change w3 with (snd (b', w3)). rewrite <- E. now apply run_events_quiet.
  - rewrite (run_script_no_batch _ _ _ _ _ _ _ _ Ht Hc). cbn [snd].
    unfold after_check. rewrite Hx. destruct check; cbn [exit_code]; now rewrite ?Hx.
Qed.

(** With their input directory in place, index.js and the first optimizer
    end with status 0 whatever happens: whether the version check fails,
    and however many of the tasks are rejected.  No handler of theirs can
    throw, and nothing in them sets the exit status. *)
Theorem sequential_exit_status_zero (check : spawn_result)
    (evs : list (nat * event)) (w : world) (sz : N) :
  exit_code w = None ->
  (fs w !! Index.inputDir = Some (Dir sz) ->
   exit_status (snd (Index.main check evs w)) = 0)
  /\ (fs w !! Legacy.inputDir = Some (Dir sz) ->
      exit_status (snd (Legacy.main check evs w)) = 0).
Proof.
  intros Hw. split; intros E.
  - destruct (Index_top_spec w Hw) as (w1 & Ht & Hx & _ & _ & Hens & _).
    assert (E1 : fs w1 !! Index.inputDir = Some (Dir sz)).
    { destruct Hens as [-> | [_ ->]]; [exact E|].
      rewrite lookup_insert_ne; [exact E|]. intros C. symmetry in C.
      now apply Index_dirs_differ in C. }
    unfold exit_status, Index.main.
    rewrite (run_script_exit _ _ _ _ check evs w w1 Ht Hx); [reflexivity| |].
    + destruct (Index_processGIFs_Dir sz w1 E1) as (b & w2 & Hp & Hx2).
      exists b, w2. split; [exact Hp | congruence].
    + intros i e b. apply quiet_seq_step;
        auto using quiet_Index_optimizeGIF, quiet_Index_handle.
  - destruct (Legacy_top_spec w Hw) as (w1 & Ht & Hx & _ & _ & Hens & _).
    assert (E1 : fs w1 !! Legacy.inputDir = Some (Dir sz)).
    { destruct Hens as [-> | [_ ->]]; [exact E|].
      rewrite lookup_insert_ne; [exact E|]. intros C. symmetry in C.
      now apply input_is_not_output in C. }
    unfold exit_status, Legacy.main.
    rewrite (run_script_exit _ _ _ _ check evs w w1 Ht Hx); [reflexivity| |].
    + destruct (Legacy_processGIFs_Dir sz w1 E1) as (b & w2 & Hp & Hx2).
      exists b, w2. split; [exact Hp | congruence].
    + intros i e b. apply quiet_seq_step;
        auto using quiet_Legacy_optimizeGIF, quiet_Legacy_handle.
Qed.

End SequentialExit.

(** index.js on a.gif and b.gif: gifsicle fails on both. *)
Lemma sequential_exit_status_zero_witness :
  let r := Index.main (RT := Example.host) (Exited 0)
             [(0%nat, Close 1); (1%nat, Close 2)] Example.two_gifs in
  exit_status (snd r) = 0
  /\ (exists b, fst r = Some b /\ any_failed b = true).
Proof.
  intros r. split.
  - apply (proj1 (sequential_exit_status_zero (RT := Example.host) (Exited 0)
                    [(0%nat, Close 1); (1%nat, Close 2)] Example.two_gifs 0%N
                    eq_refl)).
    reflexivity.
  - vm_compute. eauto.
Defined.

(** ** What a batch writes *)

Lemma frame_refl (dest : string -> Prop) (w : world) : frame dest w w.
Proof. now intros p _. Qed.

Lemma frame_trans (dest : string -> Prop) (w1 w2 w3 : world) :
  frame dest w1 w2 -> frame dest w2 w3 -> frame dest w1 w3.
Proof. intros H1 H2 p Hp. now rewrite (H2 p Hp), (H1 p Hp). Qed.

Lemma frame_fs (dest : string -> Prop) (w w' : world) :
  fs w' = fs w -> frame dest w w'.
Proof. intros E p _. now rewrite E. Qed.

Lemma environment_frame (dest : string -> Prop) (t : task) (e : event) (w w' : world)
    (r : result unit) :
  dest (outputPath t) -> environment t e w = (r, w') -> frame dest w w'.
Proof.
  intros Hd H. destruct e; cbn [environment] in H; run_m in H; inversion H; subst;
    try apply frame_refl.
  intros p Hp. cbn [fs]. apply lookup_insert_ne. intros C. subst p. contradiction.
Qed.

Lemma onRejection_fs (t : task) (s : settlement) (w : world) :
  exists w', onRejection t s w = (Ok tt, w') /\ fs w' = fs w.
Proof. unfold onRejection. destruct (is_rejected s); run_m; now eexists. Qed.

Section Frame.
Variable dest : string -> Prop.
Variable start : task -> M tstate.
Variable handle : task -> event -> tstate -> M tstate.

Hypothesis start_fs : forall t w r w', start t w = (r, w') -> fs w' = fs w.

Hypothesis handle_frame : forall t e st w r w',
  handle t e st w = (r, w') ->
  forall p, p <> outputPath t -> fs w' !! p = fs w !! p.

Lemma fire_frame (i : nat) (e : event) (js : list job) (w w' : world)
    (r : result (list job)) :
  Forall (fun j => dest (outputPath (jtask j))) js ->
  fire handle i e js w = (r, w') -> frame dest w w'.
Proof.
  intros Hd H. unfold fire in H. destruct (js !! i) as [j|] eqn:Hi.
  - assert (Hj : dest (outputPath (jtask j))) by (rewrite Forall_lookup in Hd; eauto).
    unfold bind at 1 in H.
    destruct (environment (jtask j) e w) as [[[]|msg] w1] eqn:Ee;
      pose proof (environment_frame dest _ _ _ _ _ Hj Ee) as F1.
    + unfold bind at 1 in H.
      destruct (handle (jtask j) e (jstate j) w1) as [[st|msg] w2] eqn:Eh;
        pose proof (handle_frame _ _ _ _ _ _ Eh) as F2;
        run_m in H; inversion H; subst;
        (eapply frame_trans; [exact F1|]); intros p Hp; apply F2;
        intros C; subst p; contradiction.
    + inversion H; subst. exact F1.
  - inversion H; subst. apply frame_refl.
Qed.

Lemma for_await_fs (q : list task) :
  forall js w r w', for_await start q js w = (r, w') -> fs w' = fs w.
Proof.
  induction q as [|t q IH]; intros js w r w' H; cbn [for_await] in H.
  - run_m in H. now inversion H.
  - unfold bind at 1 in H.
    destruct (start t w) as [[st|msg] w1] eqn:Es; apply start_fs in Es.
    + destruct (promise st) as [s|].
      * unfold bind at 1 in H.
        destruct (onRejection_fs t s w1) as (w2 & E & Hfs). rewrite E in H.
        apply IH in H. congruence.
      * inversion H; subst. exact Es.
    + inversion H; subst. exact Es.
Qed.

Lemma pLimit_fs (n : nat) (q : list task) :
  forall js w r w', pLimit start n q js w = (r, w') -> fs w' = fs w.
Proof.
  induction q as [|t q IH]; intros js w r w' H; cbn [pLimit] in H.
  - now inversion H.
  - destruct (in_progress js <? n)%nat; [|now inversion H].
    unfold bind at 1 in H.
    destruct (start t w) as [[st|msg] w1] eqn:Es; apply start_fs in Es.
    + apply IH in H. congruence.
    + inversion H; subst. exact Es.
Qed.

Lemma barrier_any_fs (done_msg err_msg : string) (b : batch) (w w' : world)
    (r : result batch) :
  barrier done_msg err_msg b w = (r, w') -> fs w' = fs w.
Proof.
  unfold barrier. destruct (returned b); [intros H; now inversion H|].
  destruct (first_rejected (jobs b)).
  - run_m. intros H. now inversion H.
  - destruct (bool_decide (queue b = []) && forallb fulfilled (jobs b));
      run_m; intros H; now inversion H.
Qed.

Lemma seq_step_frame (i : nat) (e : event) (b : batch) (w w' : world)
    (r : result batch) :
  Forall (fun j => dest (outputPath (jtask j))) (jobs b) ->
  seq_step start handle i e b w = (r, w') -> frame dest w w'.
Proof.
  intros Hd H. unfold seq_step in H. unfold bind at 1 in H.
  destruct (fire handle i e (jobs b) w) as [[js|msg] w1] eqn:Ef;
    pose proof (fire_frame _ _ _ _ _ _ Hd Ef) as F1.
  - eapply frame_trans; [exact F1|]. apply frame_fs.
    destruct (returned b); [now inversion H|].
    destruct (last js) as [j|]; [|now inversion H].
    destruct (promise (jstate j)) as [s|]; [|now inversion H].
    unfold bind at 1 in H.
    destruct (onRejection_fs (jtask j) s w1) as (w2 & E & Hfs). rewrite E in H.
    apply for_await_fs in H. congruence.
  - inversion H; subst. exact F1.
Qed.

Lemma pool_step_frame (done_msg err_msg : string) (n i : nat) (e : event)
    (b : batch) (w w' : world) (r : result batch) :
  Forall (fun j => dest (outputPath (jtask j))) (jobs b) ->
  pool_step start handle done_msg err_msg n i e b w = (r, w') -> frame dest w w'.
Proof.
  intros Hd H. unfold pool_step in H. unfold bind at 1 in H.
  destruct (fire handle i e (jobs b) w) as [[js|msg] w1] eqn:Ef;
    pose proof (fire_frame _ _ _ _ _ _ Hd Ef) as F1.
  - eapply frame_trans; [exact F1|]. apply frame_fs.
    unfold bind at 1 in H.
    destruct (pLimit start n (queue b) js w1) as [[qjs|msg] w2] eqn:El;
      apply pLimit_fs in El.
    + apply barrier_any_fs in H. congruence.
    + inversion H; subst. exact El.
  - inversion H; subst. exact F1.
Qed.

Hypothesis handle_keeps : forall t e st w st' w',
  handle t e st w = (Ok st', w') ->
  promise st <> None -> promise st' = promise st.

Lemma started_dest (tasks : list task) (b : batch) :
  Forall (fun t => dest (outputPath t)) tasks ->
  map jtask (jobs b) ++ queue b = tasks ->
  Forall (fun j => dest (outputPath (jtask j))) (jobs b).
Proof.
  intros Hd E. rewrite <- E in Hd. apply Forall_app in Hd. destruct Hd as [Hd _].
  now rewrite Forall_map in Hd.
Qed.

Lemma run_events_seq_frame (tasks : list task) (evs : list (nat * event)) :
  Forall (fun t => dest (outputPath t)) tasks ->
  forall b w,
  loop_state tasks b ->
  frame dest w (snd (run_events (seq_step start handle) evs b w)).
Proof.
  intros Hd. induction evs as [|[i e] evs IH]; intros b w Hst; [apply frame_refl|].
  cbn [run_events]. unfold callback. destruct (exit_code w); [now apply IH|].
  assert (Hj : Forall (fun j => dest (outputPath (jtask j))) (jobs b)).
  { eapply started_dest; [exact Hd|]. now destruct Hst. }
  destruct (seq_step start handle i e b w) as [[b'|msg] w'] eqn:E;
    pose proof (seq_step_frame _ _ _ _ _ _ Hj E) as F.
  - eapply frame_trans; [exact F|]. apply IH.
    eapply (loop_state_step start handle handle_keeps); eauto.
  - eapply frame_trans; [exact F|].
    eapply frame_trans; [apply (frame_fs dest w' (crash msg w')); reflexivity|].
    apply IH. exact Hst.
Qed.

Lemma run_events_pool_frame (done_msg err_msg : string) (n : nat)
    (tasks : list task) (evs : list (nat * event)) :
  Forall (fun t => dest (outputPath t)) tasks ->
  forall b w,
  pool_state n tasks b ->
  frame dest w
    (snd (run_events (pool_step start handle done_msg err_msg n) evs b w)).
Proof.
  intros Hd. induction evs as [|[i e] evs IH]; intros b w Hst; [apply frame_refl|].
  cbn [run_events]. unfold callback. destruct (exit_code w); [now apply IH|].
  assert (Hj : Forall (fun j => dest (outputPath (jtask j))) (jobs b)).
  { eapply started_dest; [exact Hd|]. destruct Hst as [(_ & Ht & _) _]. exact Ht. }
  destruct (pool_step start handle done_msg err_msg n i e b w) as [[b'|msg] w'] eqn:E;
    pose proof (pool_step_frame _ _ _ _ _ _ _ _ _ Hj E) as F.
  - eapply frame_trans; [exact F|]. apply IH.
    eapply (pool_state_step start handle handle_keeps); eauto.
  - eapply frame_trans; [exact F|].
    eapply frame_trans; [apply (frame_fs dest w' (crash msg w')); reflexivity|].
    apply IH. exact Hst.
Qed.

End Frame.

Section FrameScripts.
Context {RT : Runtime}.

Lemma Index_start_fs t w r w' : Index.optimizeGIF t w = (r, w') -> fs w' = fs w.
Proof.
  unfold Index.optimizeGIF. run_m.
  destruct (fs w !! inputPath t) as [[c|sz]|]; run_m; intros H; now inversion H.
Qed.

Lemma Legacy_start_fs t w r w' : Legacy.optimizeGIF t w = (r, w') -> fs w' = fs w.
Proof. unfold Legacy.optimizeGIF. run_m. intros H. now inversion H. Qed.

Lemma Pool_start_fs t w r w' : Pool.optimizeGIF t w = (r, w') -> fs w' = fs w.
Proof.
  unfold Pool.optimizeGIF. run_m.
  destruct (fs w !! inputPath t) as [[c|sz]|]; run_m; intros H; now inversion H.
Qed.

Lemma Webp_start_fs t w r w' : Webp.convertToWebP t w = (r, w') -> fs w' = fs w.
Proof.
  unfold Webp.convertToWebP. run_m.
  destruct (fs w !! inputPath t) as [[c|sz]|]; run_m; intros H; now inversion H.
Qed.

Lemma Index_handle_fs t e st w r w' : Index.handle t e st w = (r, w') -> fs w' = fs w.
Proof.
  intros H. destruct e; cbn [Index.handle] in H;
    unfold Index.onInterval, Index.onClose, Index.onError in H;
    run_m in H; split_matches H; inversion H; subst; reflexivity.
Qed.

Lemma Legacy_handle_fs t e st w r w' : Legacy.handle t e st w = (r, w') -> fs w' = fs w.
Proof.
  intros H. destruct e; cbn [Legacy.handle] in H;
    unfold Legacy.onInterval, Legacy.onClose, Legacy.onError in H;
    run_m in H; split_matches H; inversion H; subst; reflexivity.
Qed.

Lemma Webp_handle_fs t e st w r w' : Webp.handle t e st w = (r, w') -> fs w' = fs w.
Proof.
  intros H. destruct e; cbn [Webp.handle] in H;
    unfold Webp.onInterval, Webp.onResolved, Webp.onCatch in H;
    run_m in H; split_matches H; inversion H; subst; reflexivity.
Qed.

(** The pooled optimizer writes the destination of the task and nothing
    else. *)
Lemma Pool_handle_frame t e st w r w' :
  Pool.handle t e st w = (r, w') ->
  forall p, p <> outputPath t -> fs w' !! p = fs w !! p.
Proof.
  intros H p Hp. destruct e; cbn [Pool.handle] in H;
    unfold Pool.onInterval, Pool.onClose, Pool.onError in H;
    run_m in H; split_matches H; inversion H; subst; cbn [fs];
    rewrite ?lookup_insert_ne by congruence; reflexivity.
Qed.

Lemma inside_task (dir : string) (mk : string -> task) (files : list string) :
  (forall f, inside dir (outputPath (mk f))) ->
  Forall (fun t => inside dir (outputPath t)) (map mk files).
Proof.
  intros H. apply Forall_forall. intros t Ht.
  apply list_elem_of_In, in_map_iff in Ht. destruct Ht as (f & <- & _). apply H.
Qed.

Lemma processGIFs_fs_Index (w w0 : world) (b0 : batch) :
  Index.processGIFs w = (Ok b0, w0) -> fs w0 = fs w.
Proof.
  intros H. unfold Index.processGIFs in H.
  apply bind_Ok in H. destruct H as (files & w1 & Hr & H).
  apply readdirSync_Ok in Hr. destruct Hr as (-> & -> & _).
  match type of H with context [if ?c then _ else _] => destruct c end.
  - run_m in H. now inversion H.
  - apply bind_Ok in H. destruct H as ([] & w2 & Hl & H).
    run_m in Hl. inversion Hl; subst w2.
    apply (for_await_fs _ Index_start_fs) in H. exact H.
Qed.

Lemma processGIFs_fs_Legacy (w w0 : world) (b0 : batch) :
  Legacy.processGIFs w = (Ok b0, w0) -> fs w0 = fs w.
Proof.
  intros H. unfold Legacy.processGIFs in H.
  apply bind_Ok in H. destruct H as (files & w1 & Hr & H).
  apply readdirSync_Ok in Hr. destruct Hr as (-> & -> & _).
  match type of H with context [if ?c then _ else _] => destruct c end.
  - run_m in H. now inversion H.
  - apply bind_Ok in H. destruct H as ([] & w2 & Hl & H).
    run_m in Hl. inversion Hl; subst w2.
    apply (for_await_fs _ Legacy_start_fs) in H. exact H.
Qed.

Lemma processGIFs_fs_Pool (w w0 : world) (b0 : batch) :
  Pool.processGIFs w = (Ok b0, w0) -> fs w0 = fs w.
Proof.
  intros H. unfold Pool.processGIFs in H.
  apply bind_Ok in H. destruct H as (files & w1 & Hr & H).
  apply readdirSync_Ok in Hr. destruct Hr as (-> & -> & _).
  match type of H with context [if ?c then _ else _] => destruct c end.
  - run_m in H. now inversion H.
  - apply bind_Ok in H. destruct H as ([] & w2 & Hl & H).
    run_m in Hl. inversion Hl; subst w2. unfold pool_submit in H.
    apply bind_Ok in H. destruct H as (qjs & w3 & Hp & H).
    apply (pLimit_fs _ Pool_start_fs) in Hp. apply barrier_any_fs in H.
    cbn [fs] in *. congruence.
Qed.

Lemma processImages_fs (w w0 : world) (b0 : batch) :
  Webp.processImages w = (Ok b0, w0) -> fs w0 = fs w.
Proof.
  intros H. unfold Webp.processImages in H.
  apply bind_Ok in H. destruct H as (files & w1 & Hr & H).
  apply readdirSync_Ok in Hr. destruct Hr as (-> & -> & _).
  match type of H with context [if ?c then _ else _] => destruct c end.
  - run_m in H. now inversion H.
  - apply bind_Ok in H. destruct H as ([] & w2 & Hl & H).
    run_m in Hl. inversion Hl; subst w2. unfold pool_submit in H.
    apply bind_Ok in H. destruct H as (qjs & w3 & Hp & H).
    apply (pLimit_fs _ Webp_start_fs) in Hp. apply barrier_any_fs in H.
    cbn [fs] in *. congruence.
Qed.

Lemma frame_after (dest : string -> Prop) (w w0 w1 : world) :
  fs w0 = fs w -> frame dest w0 w1 -> frame dest w w1.
Proof. intros E F p Hp. now rewrite (F p Hp), E. Qed.

Lemma Index_input_outside (f : string) :
  ~ inside Index.outputDir (NodePath.join Index.inputDir f).
Proof.
  intros [g E]. unfold Index.inputDir, Index.outputDir, NodePath.join in E.
  rewrite !string_app_assoc in E. apply (inj (String.app dirname)) in E.
  discriminate E.
Qed.

Lemma Legacy_input_outside (f : string) :
  ~ inside Legacy.outputDir (NodePath.join Legacy.inputDir f).
Proof.
  intros [g E]. unfold Legacy.inputDir, Legacy.outputDir, NodePath.join in E.
  rewrite !string_app_assoc in E. apply (inj (String.app dirname)) in E.
  discriminate E.
Qed.

Lemma Pool_input_outside (f : string) :
  ~ inside Pool.outputDir (NodePath.join Pool.inputDir f).
Proof.
  intros [g E]. unfold Pool.inputDir, Pool.outputDir, NodePath.join in E.
  rewrite !string_app_assoc in E. apply (inj (String.app dirname)) in E.
  discriminate E.
Qed.

Lemma Webp_input_outside (f : string) :
  ~ inside Webp.outputDir (NodePath.join Webp.inputDir f).
Proof.
  intros [g E]. unfold Webp.inputDir, Webp.outputDir, NodePath.join in E.
  rewrite !string_app_assoc in E. apply (inj (String.app dirname)) in E.
  discriminate E.
Qed.

(** From the call of the batch function on, under each of the four
    scripts and whatever the events, a path outside the output directory
    keeps what it holds: the scripts and the converters they drive write
    destination files only, and the entries of the input directory are
    such paths, so no source file is ever modified.  (The model has the
    converter write the destination of its task and nothing else.) *)
Theorem batch_writes_destinations_only (evs : list (nat * event))
    (w w0 : world) (b0 : batch) (p f : string) :
  (Index.processGIFs w = (Ok b0, w0) ->
   let w' := snd (run_events Index.step evs b0 w0) in
   (~ inside Index.outputDir p -> fs w' !! p = fs w !! p)
   /\ fs w' !! NodePath.join Index.inputDir f = fs w !! NodePath.join Index.inputDir f)
  /\ (Legacy.processGIFs w = (Ok b0, w0) ->
      let w' := snd (run_events Legacy.step evs b0 w0) in
      (~ inside Legacy.outputDir p -> fs w' !! p = fs w !! p)
      /\ fs w' !! NodePath.join Legacy.inputDir f
         = fs w !! NodePath.join Legacy.inputDir f)
  /\ (Pool.processGIFs w = (Ok b0, w0) ->
      let w' := snd (run_events Pool.step evs b0 w0) in
      (~ inside Pool.outputDir p -> fs w' !! p = fs w !! p)
      /\ fs w' !! NodePath.join Pool.inputDir f = fs w !! NodePath.join Pool.inputDir f)
  /\ (Webp.processImages w = (Ok b0, w0) ->
      let w' := snd (run_events Webp.step evs b0 w0) in
      (~ inside Webp.outputDir p -> fs w' !! p = fs w !! p)
      /\ fs w' !! NodePath.join Webp.inputDir f = fs w !! NodePath.join Webp.inputDir f).
Proof.
  split; [|split; [|split]]; intros H w'.
  - assert (F : frame (inside Index.outputDir) w w').
    { apply (frame_after _ w w0 _ (processGIFs_fs_Index _ _ _ H)).
      apply (run_events_seq_frame (inside Index.outputDir) Index.optimizeGIF
               Index.handle Index_start_fs
               (fun t e st w1 r w2 E q _ =>
                  f_equal (fun m => m !! q) (Index_handle_fs t e st w1 r w2 E))
               Index_handle_keeps
               (map Index.make_task (matching is_gif Index.inputDir w))).
      - apply inside_task. intros g. now exists g.
      - eapply Index_processGIFs_state; eauto. }
    split; [exact (F p) | exact (F _ (Index_input_outside f))].
  - assert (F : frame (inside Legacy.outputDir) w w').
    { apply (frame_after _ w w0 _ (processGIFs_fs_Legacy _ _ _ H)).
      apply (run_events_seq_frame (inside Legacy.outputDir) Legacy.optimizeGIF
               Legacy.handle Legacy_start_fs
               (fun t e st w1 r w2 E q _ =>
                  f_equal (fun m => m !! q) (Legacy_handle_fs t e st w1 r w2 E))
               Legacy_handle_keeps
               (map Legacy.make_task (matching is_gif Legacy.inputDir w))).
      - apply inside_task. intros g. now exists g.
      - eapply Legacy_processGIFs_state; eauto. }
    split; [exact (F p) | exact (F _ (Legacy_input_outside f))].
  - assert (F : frame (inside Pool.outputDir) w w').
    { apply (frame_after _ w w0 _ (processGIFs_fs_Pool _ _ _ H)).
      apply (run_events_pool_frame (inside Pool.outputDir) Pool.optimizeGIF Pool.handle
               Pool_start_fs Pool_handle_frame Pool_handle_keeps
               Pool.all_done_message Pool.error_message 4
               (map Pool.make_task (matching is_gif Pool.inputDir w))).
      - apply inside_task. intros g. now exists g.
      - eapply Pool_processGIFs_state; eauto. }
    split; [exact (F p) | exact (F _ (Pool_input_outside f))].
  - assert (F : frame (inside Webp.outputDir) w w').
    { apply (frame_after _ w w0 _ (processImages_fs _ _ _ H)).
      apply (run_events_pool_frame (inside Webp.outputDir) Webp.convertToWebP
               Webp.handle Webp_start_fs
               (fun t e st w1 r w2 E q _ =>
                  f_equal (fun m => m !! q) (Webp_handle_fs t e st w1 r w2 E))
               Webp_handle_keeps
               Webp.all_done_message Webp.error_message 4
               (map Webp.make_task (matching is_raster Webp.inputDir w))).
      - apply inside_task. intros g.
        now exists (NodePath.basename g (NodePath.extname g) +:+ ".webp").
      - eapply Webp_processImages_state; eauto. }
    split; [exact (F p) | exact (F _ (Webp_input_outside f))].
Qed.

End FrameScripts.

(** The pooled optimizer on a.gif and b.gif: gifsicle writes a larger file
    for a.gif, which the fallback replaces; a.gif itself is as it was. *)
Lemma batch_writes_destinations_only_witness :
  let p := Example.started (Pool.processGIFs (RT := Example.host)) Example.two_gifs in
  let w' := snd (run_events (Pool.step (RT := Example.host))
                   [(0%nat, Produced (Example.bytes 9)); (0%nat, Close 0)]
                   (fst p) (snd p)) in
  fs w' !! "/app/input/a.gif" = Some (File (Example.bytes 5))
  /\ fs w' !! "/app/output/a.gif" = Some (File (Example.bytes 5)).
Proof.
  intros p w'. split.
  - destruct (proj1 (proj2 (proj2
               (batch_writes_destinations_only (RT := Example.host)
                  [(0%nat, Produced (Example.bytes 9)); (0%nat, Close 0)]
                  Example.two_gifs (snd p) (fst p) "" "a.gif")))
               ltac:(vm_compute; reflexivity)) as [_ H].
    exact H.
  - vm_compute. reflexivity.
Defined.
